(** * The observation builder of flatland-challenge (observations.py)

    A shallow embedding of [CustomObservation]: the speed model, the
    cumulative weights, the packed positions, the conflict detector
    [agents_in_path], [common_nodes], the deadlock predictor
    [find_deadlocks], the assembly of the feature tensor in [get] and
    [normalize]; and of [masked_max] and [masked_argmax] of
    policy_utils.py.

    Conventions of the embedding.
    - A float64 is a value of [fval]: a rational, one of the two
      infinities, or NaN.  Comparisons are those of IEEE 754 (false as
      soon as one side is NaN).
    - The speed model rounds as the code does: every quotient and
      difference it takes is rounded to the nearest float64 by [fl], ties
      to even, before [int] truncates it.  Weights and distances are whole
      numbers of ticks, exact in float64 as they are here.  The crash turn
      of [find_deadlocks] divides; it is taken in exact rationals, and
      nothing is stated about its value.
    - Arrays that only ever hold finite numbers are lists of [Q]
      (cumulative weights) or of [Z] (counters).
    - A statement that raises in Python ([IndexError], [KeyError],
      [ValueError] on a shape mismatch, [AssertionError]) returns [Raise].
    - The collaborators that live outside observations.py
      ([railway_encoding], [utils], the environment) are records of
      functions passed as arguments. *)

From Stdlib Require Import ZArith QArith Qround Qabs Qminmax List Bool Lia Lqa.
Import ListNotations.
Open Scope Z_scope.

(** ** Numbers *)

Inductive fval : Type :=
| NInf
| Fin (q : Q)
| PInf
| NaN.

Definition Qltb (x y : Q) : bool := negb (Qle_bool y x).

(** [a < b] on floats. *)
Definition flt (a b : fval) : bool :=
  match a, b with
  | NaN, _ | _, NaN => false
  | _, NInf => false
  | NInf, _ => true
  | PInf, _ => false
  | Fin _, PInf => true
  | Fin x, Fin y => Qltb x y
  end.

(** [a <= b] on floats. *)
Definition fle (a b : fval) : bool :=
  match a, b with
  | NaN, _ | _, NaN => false
  | NInf, _ => true
  | _, PInf => true
  | _, NInf => false
  | PInf, _ => false
  | Fin x, Fin y => Qle_bool x y
  end.

(** [a == b] on floats. *)
Definition feq (a b : fval) : bool :=
  match a, b with
  | NInf, NInf | PInf, PInf => true
  | Fin x, Fin y => Qeq_bool x y
  | _, _ => false
  end.

Definition fgt (a b : fval) : bool := flt b a.
Definition fge (a b : fval) : bool := fle b a.

Definition of_Z (z : Z) : fval := Fin (inject_Z z).

(** Python's [int(x)] on a float: truncation toward zero. *)
Definition py_int (q : Q) : Z := Z.quot (Qnum q) (Zpos (Qden q)).

(** [np.clip(x, lo, hi)] is [minimum(maximum(x, lo), hi)]. *)
Definition np_clip (x lo hi : Q) : Q := Qmin (Qmax x lo) hi.

(** [np.ceil]. *)
Definition np_ceil (q : Q) : Q := inject_Z (Qceiling q).

(** *** Rounding to float64 *)

(** [N / D] rounded to the nearest integer, a tie to the even one
    ([D] positive). *)
Definition scaled_round (N D : Z) : Z :=
  let f := N / D in
  let r := N mod D in
  match 2 * r ?= D with
  | Lt => f
  | Gt => f + 1
  | Eq => if Z.even f then f else f + 1
  end.

(** Whether [2^e <= n / d]. *)
Definition pow2_le (e n d : Z) : bool :=
  if 0 <=? e then 2 ^ e * d <=? n else d <=? n * 2 ^ (- e).

(** The exponent [e] of a positive [n / d]: [2^e <= n / d < 2^(e+1)]. *)
Definition binade (n d : Z) : Z :=
  let e0 := Z.log2 n - Z.log2 d in
  if pow2_le e0 n d then e0 else e0 - 1.

(** A positive [n / d] rounded to 53 significant bits. *)
Definition fl_pos (n d : Z) : Q :=
  let u := binade n d - 52 in
  if 0 <=? u
  then inject_Z (scaled_round n (d * 2 ^ u) * 2 ^ u)
  else Qmake (scaled_round (n * 2 ^ (- u)) d) (Z.to_pos (2 ^ (- u))).

(** The float64 nearest to a rational, ties to even.  The range of the
    exponent is not modelled: the result is that of IEEE 754 when it is 0
    or has a magnitude in [2^-1022, 2^1024). *)
Definition fl (x : Q) : Q :=
  let x := Qred x in
  match Qnum x with
  | Z0 => 0%Q
  | Zpos n => fl_pos (Zpos n) (Zpos (Qden x))
  | Zneg n => (- fl_pos (Zpos n) (Zpos (Qden x)))%Q
  end.

(** The slowest speed of the speed model: down to it the quotients by the
    speed stay below 2^53, far from the overflow of float64.  (The speeds
    of Flatland are 1, 1/2, 1/3 and 1/4.) *)
Definition min_speed : Q := / inject_Z (2 ^ 53).

(** ** Exceptions *)

Inductive res (A : Type) : Type :=
| Ret (a : A)
| Raise.
Arguments Ret {A} a.
Arguments Raise {A}.

Definition bind {A B : Type} (m : res A) (k : A -> res B) : res B :=
  match m with
  | Ret a => k a
  | Raise => Raise
  end.

Notation "x <- m ;; k" := (bind m (fun x => k))
  (at level 61, m at next level, right associativity).
Notation "' p <- m ;; k" := (bind m (fun x => let p := x in k))
  (at level 61, p pattern, m at next level, right associativity).

(** [l[i]] for a list or a row of an array, and [d[k]] for a dict keyed by
    the handles [0 .. n-1]. *)
Definition item {A : Type} (l : list A) (i : nat) : res A :=
  match nth_error l i with
  | Some x => Ret x
  | None => Raise
  end.

Fixpoint mapM {A B : Type} (f : A -> res B) (l : list A) : res (list B) :=
  match l with
  | [] => Ret []
  | x :: t => y <- f x ;; ys <- mapM f t ;; Ret (y :: ys)
  end.

Fixpoint foldM {A S : Type} (f : S -> A -> res S) (l : list A) (s : S) : res S :=
  match l with
  | [] => Ret s
  | x :: t => s' <- f s x ;; foldM f t s'
  end.

(** ** Arrays *)

Definition np_full {A : Type} (n : nat) (v : A) : list A := repeat v n.

(** [l[i] = f(l[i])], for [i] in range. *)
Fixpoint upd_at {A : Type} (i : nat) (f : A -> A) (l : list A) : list A :=
  match l, i with
  | [], _ => []
  | x :: t, O => f x :: t
  | x :: t, S i' => x :: upd_at i' f t
  end.

(** [l[lo:hi] = f(l[lo:hi])] elementwise; a slice is cut to the array. *)
Fixpoint map_range {A : Type} (lo hi : nat) (f : A -> A) (l : list A) : list A :=
  match l with
  | [] => []
  | x :: t =>
      (if ((lo =? 0) && (0 <? hi))%nat then f x else x)
        :: map_range (pred lo) (pred hi) f t
  end.

(** [row[:len(xs)] = xs]: numpy refuses a source longer than the row. *)
Definition fill_prefix {A : Type} (row xs : list A) : res (list A) :=
  if (length xs <=? length row)%nat
  then Ret (xs ++ skipn (length xs) row)
  else Raise.

(** [a[i, c]] and [a[i, c] = v] on a two-dimensional array. *)
Definition item2 {A : Type} (a : list (list A)) (i c : nat) : res A :=
  row <- item a i ;; item row c.

Definition set2 {A : Type} (a : list (list A)) (i c : nat) (v : A) : list (list A) :=
  upd_at i (upd_at c (fun _ => v)) a.

(** [a[lo:hi, c] += 1]. *)
Definition add_slice_col (lo hi c : nat) (a : list (list Z)) : list (list Z) :=
  map_range lo hi (upd_at c (fun x => x + 1)) a.

(** [a[lo:hi] += 1]. *)
Definition add_slice (lo hi : nat) (a : list Z) : list Z :=
  map_range lo hi (fun x => x + 1) a.

Definition column {A : Type} (d : A) (c : nat) (a : list (list A)) : list A :=
  map (fun row => nth c row d) a.

(** [np.transpose] of an array with [w] columns. *)
Definition np_transpose {A : Type} (d : A) (w : nat) (a : list (list A)) : list (list A) :=
  map (fun c => column d c a) (seq 0 w).

Fixpoint np_cumsum_from (acc : Q) (l : list Q) : list Q :=
  match l with
  | [] => []
  | x :: t => (acc + x)%Q :: np_cumsum_from (acc + x)%Q t
  end.

Definition np_cumsum (l : list Q) : list Q :=
  match l with
  | [] => []
  | x :: t => x :: np_cumsum_from x t
  end.

Definition enumerate {A : Type} (l : list A) : list (nat * A) :=
  combine (seq 0 (length l)) l.

(** ** Cells, nodes and paths *)

Definition Pos : Type := Z * Z.
Definition Node : Type := Z * Z * Z.

(** [node[:-1]]. *)
Definition node_pos (n : Node) : Pos := fst n.

Definition pos_eqb (a b : Pos) : bool :=
  (fst a =? fst b) && (snd a =? snd b).

Definition node_eqb (a b : Node) : bool :=
  pos_eqb (fst a) (fst b) && (snd a =? snd b).

(** The filler of the per-tick arrays. *)
Definition pad_pos : Pos := (-1, -1).
Definition pad_node : Node := (-1, -1, -1).

Record edge : Type := {
  e_from : Node;
  e_to : Node;
  e_weight : Q
}.

(** [prediction.lenght]: a number of cells, or [np.inf]. *)
Inductive length_t : Type :=
| Cells (q : Q)
| Unreachable.

Record Prediction : Type := {
  path : list Node;
  edges : list edge;
  lenght : length_t
}.

(** ** The collaborators *)

Inductive RailAgentStatus : Type :=
| READY_TO_DEPART
| ACTIVE
| DONE
| DONE_REMOVED.

Record Agent : Type := {
  speed : Q;
  position_fraction : Q;
  malfunction : Z;
  status : RailAgentStatus
}.

Record CellOrientationGraph : Type := {
  get_agent_cell : nat -> option Node;
  previous_node : option Node -> Node * Z;
  next_node : Node -> Node * Q;
  get_nodes : Pos -> list Node;
  successors : Node -> list Node;
  graph_nodes : Node -> bool
}.

Record Utils : Type := {
  get_index : list Node -> Node -> option nat;
  reciprocal_sum : Z -> Z -> Q;
  min_max_scaling :
    list (list (list fval)) -> Q -> Q -> Q -> Q -> option Q -> option Q ->
    list (list (list fval))
}.

(** ** The builder *)

Record SpeedData : Type := {
  times : Z;
  remaining : Z
}.

Record CustomObservation : Type := {
  max_depth : nat;
  speed_data : list SpeedData;
  last_nodes : list (Node * Z);
  last_positions : list (option Node);
  agent_handles : list nat;
  other_agents : list (list nat);
  _shortest_paths : list (list Node);
  _shortest_positions : list (list Pos);
  _shortest_cum_weights : list (list Q)
}.

Definition FEATURES : nat := 12.
Definition LOWER : Q := -1.
Definition UPPER : Q := 1.
Definition UNDER : Q := -2.
Definition OVER : Q := 2.

(** [self.agent_handles - {handle}]; the set is gone through in increasing
    order of the handles. *)
Definition handles_but (handles : list nat) (handle : nat) : list nat :=
  filter (fun a => negb (a =? handle)%nat) handles.

(** ** Speed model *)

(** [int(np.reciprocal(agent.speed_data["speed"]))]: the reciprocal is a
    float64, the nearest one to 1/speed. *)
Definition times_per_cell (speed : Q) : Z := py_int (fl (/ speed)).

(** The first statement of [_update_shortest]: the difference
    [1 - np.clip(...)] is a float64, and so is its quotient by the speed. *)
Definition remaining_turns_in_cell (a : Agent) : Z :=
  if Qltb (speed a) 1
  then py_int (fl (fl (1 - np_clip (position_fraction a) 0 1) / speed a))
  else 0.

Definition _init_agents (g : CellOrientationGraph) (depth : nat) (agents : list Agent)
  : CustomObservation :=
  let per_agent (ha : nat * Agent) :=
    let times_per_cell := times_per_cell (speed (snd ha)) in
    let agent_position := get_agent_cell g (fst ha) in
    let '(prev_node, prev_weight) := previous_node g agent_position in
    ({| times := times_per_cell; remaining := 0 |},
     (prev_node, prev_weight * times_per_cell),
     agent_position) in
  let rows := map per_agent (enumerate agents) in
  {| max_depth := depth;
     speed_data := map (fun r => fst (fst r)) rows;
     last_nodes := map (fun r => snd (fst r)) rows;
     last_positions := map snd rows;
     agent_handles := seq 0 (length agents);
     other_agents :=
       map (handles_but (seq 0 (length agents))) (seq 0 (length agents));
     _shortest_paths := [];
     _shortest_positions := [];
     _shortest_cum_weights := [] |}.

(** ** Cumulative weights *)

Definition compute_cumulative_weights (self : CustomObservation) (handle : nat)
  (edges : list edge) (initial_distance : Q) : res (list Q) :=
  weights <- mapM (fun e =>
                     sd <- item (speed_data self) handle ;;
                     Ret (e_weight e * inject_Z (times sd))%Q) edges ;;
  Ret (np_cumsum (initial_distance :: weights)).

(** ** Shortest paths of the tick *)

Definition with_tick (self : CustomObservation)
  (sd : list SpeedData) (ln : list (Node * Z)) (lp : list (option Node))
  (paths : list (list Node)) (positions : list (list Pos)) (cw : list (list Q))
  : CustomObservation :=
  {| max_depth := max_depth self;
     speed_data := sd;
     last_nodes := ln;
     last_positions := lp;
     agent_handles := agent_handles self;
     other_agents := other_agents self;
     _shortest_paths := paths;
     _shortest_positions := positions;
     _shortest_cum_weights := cw |}.

Definition opt_node_eqb (a : option Node) (b : Node) : bool :=
  match a with
  | Some n => node_eqb n b
  | None => false
  end.

Definition _update_shortest (g : CellOrientationGraph) (agents : list Agent)
  (self : CustomObservation) (handle : nat) (prediction : Prediction)
  : res CustomObservation :=
  (* Update speed data *)
  agent <- item agents handle ;;
  let remaining_turns_in_cell := remaining_turns_in_cell agent in
  sd <- item (speed_data self) handle ;;
  let speed_data' :=
    upd_at handle
      (fun _ => {| times := times sd; remaining := remaining_turns_in_cell |})
      (speed_data self) in
  (* Update shortest paths *)
  let shortest_path := path prediction in
  paths_row <- item (_shortest_paths self) handle ;;
  paths_row' <- fill_prefix paths_row shortest_path ;;
  let paths' := upd_at handle (fun _ => paths_row') (_shortest_paths self) in
  (* Update shortest positions *)
  let shortest_positions := map node_pos (path prediction) in
  pos_row <- item (_shortest_positions self) handle ;;
  pos_row' <- fill_prefix pos_row shortest_positions ;;
  let positions' := upd_at handle (fun _ => pos_row') (_shortest_positions self) in
  (* Update shortest cumulative weights *)
  let self1 :=
    with_tick self speed_data' (last_nodes self) (last_positions self)
      paths' positions' (_shortest_cum_weights self) in
  shortest_cum_weights <-
    compute_cumulative_weights self1 handle (edges prediction)
      (inject_Z remaining_turns_in_cell) ;;
  cw_row <- item (_shortest_cum_weights self) handle ;;
  cw_row' <- fill_prefix cw_row shortest_cum_weights ;;
  let cw' := upd_at handle (fun _ => cw_row') (_shortest_cum_weights self) in
  (* Update last visited node and last positions *)
  agent_position <- item shortest_path 0 ;;
  last_position <- item (last_positions self) handle ;;
  if negb (opt_node_eqb last_position agent_position)
  then
    last_nodes' <-
      (if graph_nodes g agent_position
       then
         _ <- item (last_nodes self) handle ;;
         Ret (upd_at handle (fun _ => (agent_position, 0)) (last_nodes self))
       else
         ln <- item (last_nodes self) handle ;;
         Ret (upd_at handle (fun _ => (fst ln, snd ln + 1)) (last_nodes self))) ;;
    Ret (with_tick self speed_data' last_nodes'
           (upd_at handle (fun _ => Some agent_position) (last_positions self))
           paths' positions' cw')
  else
    Ret (with_tick self speed_data' (last_nodes self) (last_positions self)
           paths' positions' cw').

(** The body of the loop of [get_many]. *)
Definition get_many_step (g : CellOrientationGraph) (agents : list Agent)
  (s : CustomObservation)
  (hp : nat * option (Prediction * list Prediction)) : res CustomObservation :=
  match snd hp with
  | Some prediction => _update_shortest g agents s (fst hp) (fst prediction)
  | None => Ret s
  end.

(** The part of [get_many] before the per-agent calls of [get]. *)
Definition get_many (g : CellOrientationGraph) (agents : list Agent)
  (self : CustomObservation)
  (predictions : list (option (Prediction * list Prediction)))
  : res CustomObservation :=
  let n := length (agent_handles self) in
  let self0 :=
    with_tick self (speed_data self) (last_nodes self) (last_positions self)
      (np_full n (np_full (max_depth self) pad_node))
      (np_full n (np_full (max_depth self) pad_pos))
      (np_full n (np_full (max_depth self) 0%Q)) in
  foldM (get_many_step g agents) (enumerate predictions) self0.

(** ** Conflict detector *)

(** The test that guards [distances[index, direction] = distance]. *)
Definition replaces (stored distance : fval) : bool :=
  feq stored PInf
  || (fge distance (Fin 0) && fgt stored distance)
  || (fle distance (Fin 0) && flt stored distance)
  || (fge distance (Fin 0) && flt stored (Fin 0)).

Definition updated_distance (stored distance : fval) : fval :=
  if replaces stored distance then distance else stored.

(** The loop over [nodes] runs its body once, at the first node that
    [get_index] finds in the path, and then breaks. *)
Fixpoint first_match (u : Utils) (path : list Node) (nodes : list Node)
  : option (Node * nat) :=
  match nodes with
  | [] => None
  | other_node :: rest =>
      match get_index u path other_node with
      | Some index => Some (other_node, index)
      | None => first_match u path rest
      end
  end.

(** [direction]: 1 for the other direction, 0 for the same one. *)
Definition direction_of (path : list Node) (node other_node : Node)
  (next_nodes : list Node) (index : nat) : nat :=
  let different_node := negb (node_eqb other_node node) in
  let more_than_one_choice := (1 <? length next_nodes)%nat in
  let last_node_in_path := (length path <=? index + 1)%nat in
  let different_one_choice :=
    negb last_node_in_path
    && (0 <? length next_nodes)%nat
    && negb (node_eqb (hd pad_node next_nodes) (nth (index + 1) path pad_node)) in
  if different_node
     && (more_than_one_choice || last_node_in_path || different_one_choice)
  then 1%nat else 0%nat.

Definition initial_distance_at (me : SpeedData) (cw : Q) : Q :=
  if Qltb cw (inject_Z (times me))
  then inject_Z (remaining me - times me)
  else cw.

Definition turns_to_reach (me other : SpeedData) (next_node_distance : Q) : Q :=
  Qabs ((next_node_distance
         - inject_Z (remaining other) / inject_Z (times other))
        * inject_Z (times me)).

Definition signed_turns (direction : nat) (turns : Q) : Q :=
  if (direction =? 1)%nat then turns else (- turns)%Q.

Definition path_arrays : Type :=
  (list (list Z) * list (list fval) * list (list Z))%type.

(** The body of the loop over the other agents. *)
Definition agents_in_path_step (g : CellOrientationGraph) (u : Utils)
  (agents : list Agent) (self : CustomObservation) (handle : nat)
  (path : list Node) (cum_weights : list Q)
  (st : path_arrays) (agent : nat) : res path_arrays :=
  let '(num_agents, distances, malfunctions) := st in
  match get_agent_cell g agent with
  | None => Ret st
  | Some position =>
      let '(node, next_node_distance) := next_node g position in
      let nodes := get_nodes g (node_pos node) in
      let next_nodes := successors g node in
      match first_match u path nodes with
      | None => Ret st
      | Some (other_node, index) =>
          cw <- item cum_weights index ;;
          me <- item (speed_data self) handle ;;
          let distance := initial_distance_at me cw in
          other <- item (speed_data self) agent ;;
          let turns_to_reach_other_agent := turns_to_reach me other next_node_distance in
          let direction := direction_of path node other_node next_nodes index in
          let turns_to_reach_other_agent :=
            signed_turns direction turns_to_reach_other_agent in
          let num_agents :=
            add_slice_col index (length path) direction num_agents in
          let distance := (distance + turns_to_reach_other_agent)%Q in
          stored <- item2 distances index direction ;;
          let distances :=
            if replaces stored (Fin distance)
            then set2 distances index direction (Fin distance)
            else distances in
          a <- item agents agent ;;
          let malfunction := malfunction a in
          let num_agents :=
            if 0 <? malfunction
            then add_slice_col index (length path) (direction + 2) num_agents
            else num_agents in
          worst <- item2 malfunctions index direction ;;
          let malfunctions :=
            if worst <? malfunction
            then set2 malfunctions index direction malfunction
            else malfunctions in
          Ret (num_agents, distances, malfunctions)
      end
  end.

(** [num_agents[:] = np.array(prev_num_agents)]: the four channels are
    copied into every row ([get] passes a row of four entries; numpy would
    also broadcast a single entry, which [get] never passes). *)
Definition seed_num_agents (depth : nat) (prev_num_agents : option (list Z))
  : res (list (list Z)) :=
  match prev_num_agents with
  | None => Ret (np_full depth (np_full 4 0))
  | Some prev => if (length prev =? 4)%nat then Ret (np_full depth prev) else Raise
  end.

Definition agents_in_path_loop (g : CellOrientationGraph) (u : Utils)
  (agents : list Agent) (self : CustomObservation) (handle : nat)
  (path : list Node) (cum_weights : list Q) (prev_num_agents : option (list Z))
  : res path_arrays :=
  num_agents <- seed_num_agents (max_depth self) prev_num_agents ;;
  let distances := np_full (max_depth self) (np_full 2 PInf) in
  let malfunctions := np_full (max_depth self) (np_full 2 0) in
  others <- item (other_agents self) handle ;;
  foldM (agents_in_path_step g u agents self handle path cum_weights)
        others (num_agents, distances, malfunctions).

Definition agents_in_path (g : CellOrientationGraph) (u : Utils)
  (agents : list Agent) (self : CustomObservation) (handle : nat)
  (path : list Node) (cum_weights : list Q) (prev_num_agents : option (list Z))
  : res path_arrays :=
  '(num_agents, distances, malfunctions) <-
    agents_in_path_loop g u agents self handle path cum_weights prev_num_agents ;;
  Ret (np_transpose 0 4 num_agents,
       np_transpose PInf 2 distances,
       np_transpose 0 2 malfunctions).

(** ** Target distance *)

Fixpoint zipM {A B C : Type} (f : A -> B -> res C) (l : list A) (m : list B)
  : res (list C) :=
  match l, m with
  | [], [] => Ret []
  | x :: l', y :: m' => z <- f x y ;; zs <- zipM f l' m' ;; Ret (z :: zs)
  | _, _ => Raise
  end.

(** The callers pass [max_depth] cumulative weights; any other number is
    refused here, also a single one, which numpy would broadcast. *)
Definition distance_from_target (self : CustomObservation) (handle : nat)
  (lenght : length_t) (path : list Node) (cum_weights : list Q)
  (turns_to_deviation : Q) : res (list fval) :=
  match lenght with
  | Unreachable => Ret (np_full (max_depth self) PInf)
  | Cells lenght =>
      sd <- item (speed_data self) handle ;;
      let max_distance := (lenght * inject_Z (times sd) + turns_to_deviation)%Q in
      distances <-
        fill_prefix (np_full (max_depth self) 0%Q)
                    (np_full (length path) max_distance) ;;
      distances <- zipM (fun d w => Ret (d - w)%Q) distances cum_weights ;;
      Ret (map Fin distances)
  end.

(** ** Route popularity *)

(** One entry of [np.isin(nd_positions, row)]. *)
Definition isin (row : list Pos) (p : Pos) : bool := existsb (pos_eqb p) row.

Definition common_nodes (self : CustomObservation) (handle : nat)
  (positions : list Pos) : res (list Z) :=
  let c_nodes := np_full (max_depth self) 0 in
  if (0 <? length positions)%nat
  then
    let computed := np_full (length positions) 0 in
    others <- item (other_agents self) handle ;;
    computed <-
      foldM (fun computed row =>
               shortest <- item (_shortest_positions self) row ;;
               zipM (fun c p => Ret (c + (if isin shortest p then 1 else 0)))
                    computed positions)
            others computed ;;
    fill_prefix c_nodes computed
  else Ret c_nodes.

(** ** Packed positions *)

(** [np.hstack([column.reshape(n, 1), rows])]. *)
Definition hstack_col {A : Type} (col : list A) (rows : list (list A))
  : res (list (list A)) :=
  zipM (fun x row => Ret (x :: row)) col rows.

Definition prev_weight_of (self : CustomObservation) (prev_nodes : list Node)
  (agent : nat) (path : list Node) : res Q :=
  first <- item path 0 ;;
  prev <- item prev_nodes agent ;;
  if negb (node_eqb first prev)
  then
    ln <- item (last_nodes self) agent ;;
    sd <- item (speed_data self) agent ;;
    Ret (- inject_Z (snd ln + times sd - remaining sd))%Q
  else item2 (_shortest_cum_weights self) agent 0.

Definition _get_shortest_packed_positions (self : CustomObservation)
  : res (list (list Pos) * list (list Q)) :=
  let prev_nodes := map fst (last_nodes self) in
  prev_weights <-
    mapM (fun ap => prev_weight_of self prev_nodes (fst ap) (snd ap))
         (enumerate (_shortest_paths self)) ;;
  packed_positions <-
    hstack_col (map node_pos prev_nodes)
               (map (skipn 1) (_shortest_positions self)) ;;
  packed_weights <-
    hstack_col prev_weights (map (skipn 1) (_shortest_cum_weights self)) ;;
  Ret (packed_positions, packed_weights).

(** ** Deadlock predictor *)

(** A [for] loop whose body either breaks with a result or goes on. *)
Fixpoint for_break {A : Type} (body : nat -> res (option A)) (l : list nat)
  : res (option A) :=
  match l with
  | [] => Ret None
  | i :: t =>
      r <- body i ;;
      match r with
      | Some a => Ret (Some a)
      | None => for_break body t
      end
  end.

Definition range (n : nat) : list nat := seq 0 n.

(** [deadlock_found] for the edge [i -> i+1] of the other agent and the
    edge [j -> j+1] of this one. *)
Definition deadlock_found_at (positions : list Pos) (cum_weights : list Q)
  (agent_path : list Pos) (packed_weights : list (list Q)) (agent i j : nat)
  : res bool :=
  source <- item positions j ;;
  dest <- item positions (j + 1) ;;
  other_dest <- item agent_path (i + 1) ;;
  other_source <- item agent_path i ;;
  let from_dest_to_source := pos_eqb source other_dest && pos_eqb dest other_source in
  mine_in <- item cum_weights j ;;
  other_out <- item2 packed_weights agent (i + 1) ;;
  intersecting_turns <-
    (if Qltb other_out mine_in
     then Ret false
     else
       mine_out <- item cum_weights (j + 1) ;;
       other_in <- item2 packed_weights agent i ;;
       Ret (negb (Qltb mine_out other_in))) ;;
  Ret (from_dest_to_source && intersecting_turns).

(** The two nested loops over the edges, up to their [break]s: the first
    pair of edges, in scanning order, at which [deadlock_found] holds. *)
Definition scan_edges (positions : list Pos) (cum_weights : list Q)
  (agent_path : list Pos) (packed_weights : list (list Q)) (agent : nat)
  : res (option (nat * nat)) :=
  for_break
    (fun i =>
       a0 <- item agent_path i ;;
       a1 <- item agent_path (i + 1) ;;
       if negb (pos_eqb a0 pad_pos) && negb (pos_eqb a1 pad_pos)
       then
         for_break
           (fun j =>
              deadlock_found <-
                deadlock_found_at positions cum_weights agent_path
                                  packed_weights agent i j ;;
              Ret (if deadlock_found then Some (i, j) else None))
           (range (length positions - 1))
       else Ret None)
    (range (length agent_path - 1)).

(** The turn of the crash, in exact rationals: the rounding of its
    quotients to float64 is not modelled. *)
Definition crash_turn_of (u : Utils) (me other : SpeedData)
  (mine_in mine_out other_in : Q) : Q :=
  let space := ((mine_out - mine_in) / inject_Z (times me))%Q in
  let space :=
    if Qltb mine_in 0 && Qltb other_in 0
    then (space + mine_in / inject_Z (times me)
          + other_in / inject_Z (times other))%Q
    else if Qltb other_in mine_in
    then (space - Qabs (mine_in - Qabs other_in) / inject_Z (times other))%Q
    else if Qltb mine_in other_in
    then (space + Qabs (other_in - Qabs mine_in) / inject_Z (times other))%Q
    else space in
  np_ceil (Qmax mine_in 0
           + space / reciprocal_sum u (times other) (times me))%Q.

(** The body of the loop over the other agents; what the inner loop does
    before it breaks is done here once the edges are found. *)
Definition find_deadlocks_step (u : Utils) (self : CustomObservation)
  (handle : nat) (positions : list Pos) (cum_weights : list Q)
  (packed_positions : list (list Pos)) (packed_weights : list (list Q))
  (st : list Z * list fval) (agent : nat) : res (list Z * list fval) :=
  let '(deadlocks, crash_turns) := st in
  agent_path <- item packed_positions agent ;;
  found <- scan_edges positions cum_weights agent_path packed_weights agent ;;
  match found with
  | None => Ret st
  | Some (i, j) =>
      mine_in <- item cum_weights j ;;
      mine_out <- item cum_weights (j + 1) ;;
      other_in <- item2 packed_weights agent i ;;
      me <- item (speed_data self) handle ;;
      other <- item (speed_data self) agent ;;
      let crash_turn := crash_turn_of u me other mine_in mine_out other_in in
      stored <- item crash_turns j ;;
      let crash_turns :=
        if fgt stored (Fin crash_turn)
        then upd_at j (fun _ => Fin crash_turn) crash_turns
        else crash_turns in
      let deadlocks := add_slice j (length positions) deadlocks in
      Ret (deadlocks, crash_turns)
  end.

Definition find_deadlocks (u : Utils) (self : CustomObservation)
  (handle : nat) (positions : list Pos) (cum_weights : list Q)
  (packed_positions : list (list Pos)) (packed_weights : list (list Q))
  (prev_deadlocks : Z) : res (list Z * list fval) :=
  let deadlocks := np_full (max_depth self) prev_deadlocks in
  let crash_turns := np_full (max_depth self) PInf in
  others <- item (other_agents self) handle ;;
  foldM (find_deadlocks_step u self handle positions cum_weights
                             packed_positions packed_weights)
        others (deadlocks, crash_turns).

(** ** Feature matrix of one path *)

(** The arrays stacked by [_fill_path_values], one field per call; the
    counters keep their integer type until [feature_matrix] stacks them
    with the float-valued rows. *)
Record Features : Type := {
  f_num_agents : list (list Z);
  f_agent_distances : list (list fval);
  f_malfunctions : list (list Z);
  f_target_distances : list fval;
  f_c_nodes : list Z;
  f_deadlocks : list Z;
  f_deadlock_distances : list fval
}.

(** [np.vstack([...]).T]. *)
Definition feature_matrix (depth : nat) (f : Features) : res (list (list fval)) :=
  let rows :=
    map (map of_Z) (f_num_agents f)
    ++ f_agent_distances f
    ++ map (map of_Z) (f_malfunctions f)
    ++ [f_target_distances f; map of_Z (f_c_nodes f);
        map of_Z (f_deadlocks f); f_deadlock_distances f] in
  if forallb (fun r => (length r =? depth)%nat) rows
  then Ret (np_transpose NaN depth rows)
  else Raise.

(** The first block of [_fill_path_values], up to [# Compute features]:
    the positions, the weights of the positions and the weights of the
    path that the features are computed from. *)
Definition path_inputs (self : CustomObservation) (handle : nat)
  (prediction : Prediction)
  (packed_positions : list (list Pos)) (packed_weights : list (list Q))
  (turns_to_deviation : Q) : res (list Pos * list Q * list Q) :=
  let path_weights := np_full (max_depth self) 0%Q in
  let path := path prediction in
  let positions := map node_pos path in
  if Qeq_bool turns_to_deviation 0
  then
    weights <- item (_shortest_cum_weights self) handle ;;
    packed <- item packed_positions handle ;;
    let positions := firstn (length path) packed in
    positions_weights <- item packed_weights handle ;;
    path_weights <- fill_prefix path_weights weights ;;
    Ret (positions, positions_weights, path_weights)
  else
    weights <-
      compute_cumulative_weights self handle (edges prediction)
                                 turns_to_deviation ;;
    path_weights <- fill_prefix path_weights weights ;;
    Ret (positions, path_weights, path_weights).

Definition _fill_path_values (g : CellOrientationGraph) (u : Utils)
  (agents : list Agent) (self : CustomObservation) (handle : nat)
  (prediction : Prediction)
  (packed_positions : list (list Pos)) (packed_weights : list (list Q))
  (turns_to_deviation : Q) (prev_deadlocks : Z)
  (prev_num_agents : option (list Z)) : res Features :=
  let path_weights := np_full (max_depth self) 0%Q in
  let path := path prediction in
  let positions := map node_pos path in
  '(positions, positions_weights, path_weights) <-
    (if Qeq_bool turns_to_deviation 0
     then
       weights <- item (_shortest_cum_weights self) handle ;;
       packed <- item packed_positions handle ;;
       let positions := firstn (length path) packed in
       positions_weights <- item packed_weights handle ;;
       path_weights <- fill_prefix path_weights weights ;;
       Ret (positions, positions_weights, path_weights)
     else
       weights <-
         compute_cumulative_weights self handle (edges prediction)
                                    turns_to_deviation ;;
       path_weights <- fill_prefix path_weights weights ;;
       Ret (positions, path_weights, path_weights)) ;;
  '(num_agents, agent_distances, malfunctions) <-
    agents_in_path g u agents self handle path path_weights prev_num_agents ;;
  target_distances <-
    distance_from_target self handle (lenght prediction) path path_weights
                         turns_to_deviation ;;
  c_nodes <- common_nodes self handle positions ;;
  '(deadlocks, deadlock_distances) <-
    find_deadlocks u self handle positions positions_weights
                   packed_positions packed_weights prev_deadlocks ;;
  Ret {| f_num_agents := num_agents;
         f_agent_distances := agent_distances;
         f_malfunctions := malfunctions;
         f_target_distances := target_distances;
         f_c_nodes := c_nodes;
         f_deadlocks := deadlocks;
         f_deadlock_distances := deadlock_distances |}.

(** ** Normalization *)

Definition tensor : Type := list (list (list fval)).

(** [t[:, :, a:b]]; a single feature [t[:, :, a]] is taken as [a:a+1]. *)
Definition slice_feats (a b : nat) (t : tensor) : tensor :=
  map (map (fun row => firstn (b - a) (skipn a row))) t.

(** [t[:, :, a:b] = values], refused when the shapes differ. *)
Definition assign_feats (a b : nat) (t values : tensor) : res tensor :=
  zipM (zipM (fun row v =>
                if (length v =? b - a)%nat && (b <=? length row)%nat
                then Ret (firstn a row ++ v ++ skipn b row)
                else Raise))
       t values.

Definition map3 {A B : Type} (f : A -> B) (t : list (list (list A)))
  : list (list (list B)) :=
  map (map (map f)) t.

Definition forall3 {A : Type} (f : A -> bool) (t : list (list (list A))) : bool :=
  forallb (forallb (forallb f)) t.

(** The two assignments under [# Sanity check]. *)
Definition sanity (v : fval) : fval :=
  let v := if feq v NInf then Fin UNDER else v in
  if feq v PInf then Fin OVER else v.

(** One entry of the array tested by the final [assert]. *)
Definition in_range (v : fval) : bool :=
  fge v (Fin UNDER) && fle v (Fin OVER).

Definition is_done (a : Agent) : bool :=
  match status a with
  | DONE | DONE_REMOVED => true
  | _ => false
  end.

(** [normalize] up to the sanity check: the scaled groups written back. *)
Definition scaled (u : Utils) (agents : list Agent) (max_malfunctions : Q)
  (self : CustomObservation) (observation : tensor) : res tensor :=
  let normalized_observation := observation in
  let num_agents := slice_feats 0 4 normalized_observation in
  let agent_distances := slice_feats 4 6 normalized_observation in
  let malfunctions := slice_feats 6 8 normalized_observation in
  let target_distances := slice_feats 8 9 normalized_observation in
  let c_nodes := slice_feats 9 10 normalized_observation in
  let deadlocks := slice_feats 10 11 normalized_observation in
  let deadlock_distances := slice_feats 11 12 normalized_observation in
  done <- mapM (fun i => a <- item agents i ;; Ret (is_done a))
               (agent_handles self) ;;
  let done_agents := Z.of_nat (length (filter (fun b => b) done)) in
  let remaining_agents :=
    inject_Z (Z.of_nat (length (agent_handles self)) - done_agents) in
  let scale := min_max_scaling u in
  let num_agents :=
    scale num_agents LOWER UPPER UNDER OVER (Some 0%Q) (Some remaining_agents) in
  let malfunctions :=
    scale malfunctions LOWER UPPER UNDER OVER (Some 0%Q) (Some max_malfunctions) in
  let c_nodes :=
    scale c_nodes LOWER UPPER UNDER OVER (Some 0%Q)
          (Some (inject_Z (Z.of_nat (max_depth self)))) in
  let deadlocks :=
    scale deadlocks LOWER UPPER UNDER OVER (Some 0%Q) (Some remaining_agents) in
  let agent_distances := scale agent_distances LOWER UPPER UNDER OVER None None in
  let target_distances := scale target_distances LOWER UPPER UNDER OVER None None in
  let deadlock_distances :=
    scale deadlock_distances LOWER UPPER UNDER OVER None None in
  t <- assign_feats 0 4 normalized_observation num_agents ;;
  t <- assign_feats 4 6 t agent_distances ;;
  t <- assign_feats 6 8 t malfunctions ;;
  t <- assign_feats 8 9 t target_distances ;;
  t <- assign_feats 9 10 t c_nodes ;;
  t <- assign_feats 10 11 t deadlocks ;;
  assign_feats 11 12 t deadlock_distances.

Definition normalize (u : Utils) (agents : list Agent) (max_malfunctions : Q)
  (self : CustomObservation) (observation : tensor) : res tensor :=
  t <- scaled u agents max_malfunctions self observation ;;
  let normalized_observation := map3 sanity t in
  if forall3 in_range normalized_observation
  then Ret normalized_observation
  else Raise.

(** ** The observation of one agent *)

(** [t[i, :, :] = m]. *)
Definition assign_row (t : tensor) (i : nat) (m : list (list fval)) : res tensor :=
  old <- item t i ;;
  if (length m =? length old)%nat
     && forallb (fun r => (length r =? FEATURES)%nat) m
  then Ret (upd_at i (fun _ => m) t)
  else Raise.

(** What the loop of [get] passes on to a deviation path: nothing for the
    first one, the values of the shortest path one node earlier for the
    others. *)
Definition seeds (shortest_feats : Features) (i : nat)
  : res (Z * option (list Z)) :=
  if (1 <=? i)%nat
  then
    prev_deadlocks <- item (f_deadlocks shortest_feats) (i - 1) ;;
    prev_num_agents_values <-
      mapM (fun channel => item channel (i - 1)) (f_num_agents shortest_feats) ;;
    Ret (prev_deadlocks, Some prev_num_agents_values)
  else Ret (0, None).

(** The features of the deviation path number [i]: the body of the loop
    of [get] up to the assignment into the tensor. *)
Definition deviation_feats (g : CellOrientationGraph) (u : Utils)
  (agents : list Agent) (self : CustomObservation) (handle : nat)
  (packed_positions : list (list Pos)) (packed_weights : list (list Q))
  (shortest_feats : Features) (i : nat) (deviation_prediction : Prediction)
  : res Features :=
  '(prev_deadlocks, prev_num_agents_values) <- seeds shortest_feats i ;;
  turns_to_deviation <- item2 (_shortest_cum_weights self) handle i ;;
  _fill_path_values g u agents self handle deviation_prediction
                    packed_positions packed_weights
                    turns_to_deviation prev_deadlocks prev_num_agents_values.

(** [get] up to the call of [normalize]. *)
Definition raw_observation (g : CellOrientationGraph) (u : Utils)
  (agents : list Agent) (self : CustomObservation)
  (predictions : list (option (Prediction * list Prediction)))
  (handle : nat) : res tensor :=
  let observation :=
    np_full (max_depth self) (np_full (max_depth self) (np_full FEATURES NInf)) in
  prediction <- item predictions handle ;;
  match prediction with
  | None => Ret observation
  | Some (shortest_path_prediction, deviation_paths_prediction) =>
      '(packed_positions, packed_weights) <- _get_shortest_packed_positions self ;;
      shortest_feats <-
        _fill_path_values g u agents self handle shortest_path_prediction
                          packed_positions packed_weights 0%Q 0 None ;;
      m <- feature_matrix (max_depth self) shortest_feats ;;
      observation <- assign_row observation 0 m ;;
      foldM (fun observation idp =>
               dev_feats <-
                 deviation_feats g u agents self handle
                                 packed_positions packed_weights
                                 shortest_feats (fst idp) (snd idp) ;;
               m <- feature_matrix (max_depth self) dev_feats ;;
               assign_row observation (fst idp + 1) m)
            (enumerate deviation_paths_prediction) observation
  end.

Definition get (g : CellOrientationGraph) (u : Utils) (agents : list Agent)
  (max_malfunctions : Q) (self : CustomObservation)
  (predictions : list (option (Prediction * list Prediction)))
  (handle : nat) : res tensor :=
  observation <- raw_observation g u agents self predictions handle ;;
  normalize u agents max_malfunctions self observation.

(** ** Masked outputs of the policy

    [masked_max] and [masked_argmax] of [policy_utils], for a
    two-dimensional array of floats and the default [dim = 1]: one
    result per row. *)

Definition is_nan (v : fval) : bool :=
  match v with
  | NaN => true
  | _ => false
  end.

(** One entry of [mask.astype(bool)]. *)
Definition as_bool (m : Z) : bool := negb (m =? 0).

(** [vec.shape == mask.shape]. *)
Definition same_shape (vec : list (list fval)) (mask : list (list Z)) : bool :=
  (length vec =? length mask)%nat
  && forallb (fun rm => (length (fst rm) =? length (snd rm))%nat)
             (combine vec mask).

(** [np.all(mask.astype(bool).any(axis=1))]. *)
Definition all_any (mask : list (list Z)) : bool :=
  forallb (existsb as_bool) mask.

(** One row of [res] after [res[~mask.astype(bool)] = np.nan]. *)
Definition mask_out (row : list fval) (mrow : list Z) : list fval :=
  map (fun xm => if as_bool (snd xm) then fst xm else NaN) (combine row mrow).

(** [np.fmax]: the larger one, a NaN only when both are. *)
Definition fmax (a b : fval) : fval :=
  match a, b with
  | NaN, _ => b
  | _, NaN => a
  | _, _ => if flt a b then b else a
  end.

(** [np.nanmax] of one row: [np.fmax.reduce]. *)
Definition np_nanmax (row : list fval) : res fval :=
  match row with
  | [] => Raise
  | x :: t => Ret (fold_left fmax t x)
  end.

(** [np.argmax] of one row without NaN: the first place of the maximum. *)
Fixpoint argmax_from (best_i : nat) (best : fval) (i : nat) (row : list fval)
  : nat :=
  match row with
  | [] => best_i
  | x :: t =>
      if flt best x
      then argmax_from i x (S i) t
      else argmax_from best_i best (S i) t
  end.

Definition np_argmax (row : list fval) : res nat :=
  match row with
  | [] => Raise
  | x :: t => Ret (argmax_from 0 x 1 t)
  end.

(** [np.nanargmax] of one row: NaN is replaced by [-inf]; a row of NaN
    only is refused. *)
Definition np_nanargmax (row : list fval) : res nat :=
  if forallb is_nan row
  then Raise
  else np_argmax (map (fun v => if is_nan v then NInf else v) row).

Definition masked_max (vec : list (list fval)) (mask : list (list Z))
  : res (list (list fval)) :=
  if same_shape vec mask && all_any mask
  then mapM (fun rm =>
               v <- np_nanmax (mask_out (fst rm) (snd rm)) ;;
               Ret [v])
            (combine vec mask)
  else Raise.

Definition masked_argmax (vec : list (list fval)) (mask : list (list Z))
  : res (list (list nat)) :=
  if same_shape vec mask && all_any mask
  then mapM (fun rm =>
               i <- np_nanargmax (mask_out (fst rm) (snd rm)) ;;
               Ret [i])
            (combine vec mask)
  else Raise.

(** The entry [j] of a row is valid and holds the number [x]. *)
Definition valid_at (row : list fval) (mrow : list Z) (j : nat) (x : fval)
  : Prop :=
  nth_error row j = Some x
  /\ is_nan x = false
  /\ exists m, nth_error mrow j = Some m /\ as_bool m = true.

(** ** Helpers of [utils] *)

Fixpoint index_from (k : nat) (arr : list Node) (elem : Node) : option nat :=
  match arr with
  | [] => None
  | x :: t => if node_eqb x elem then Some k else index_from (S k) t elem
  end.

(** Modelled from the spec: utils.get_index is not part of the sources; the
    conflict detector looks for a node that "also appears in this agent's
    path" and uses its place there, [None] when it does not appear. *)
Definition get_index_model (arr : list Node) (elem : Node) : option nat :=
  index_from 0 arr elem.

(** Modelled from the spec: utils.reciprocal_sum is not part of the sources;
    "the harmonic combination of two per-cell tick counts is
    times1 * times2 / (times1 + times2)". *)
Definition reciprocal_sum_model (times1 times2 : Z) : Q :=
  (inject_Z (times1 * times2) / inject_Z (times1 + times2))%Q.

Definition finite_values (values : tensor) : list Q :=
  flat_map (fun v => match v with Fin q => [q] | _ => [] end)
           (concat (concat values)).

Definition scale_value (lower upper under over lo hi : Q) (v : fval) : fval :=
  match v with
  | Fin q =>
      if Qltb q lo then Fin under
      else if Qltb hi q then Fin over
      else if Qeq_bool hi lo then Fin lower
      else Fin (lower + (q - lo) * (upper - lower) / (hi - lo))%Q
  | _ => v
  end.

(** Modelled from the spec: utils.min_max_scaling is not part of the
    sources; it "applies min-max scaling into range [LOWER, UPPER]", values
    outside the known window "are pushed to the wider sentinel band", and
    without known bounds it uses "the empirical min/max present in the
    current tensor".  Infinite entries are left for the sanity check. *)
Definition min_max_scaling_model (values : tensor) (lower upper under over : Q)
  (known_min known_max : option Q) : tensor :=
  let finite := finite_values values in
  let lo :=
    match known_min with
    | Some m => m
    | None => fold_right Qmin (hd 0%Q finite) finite
    end in
  let hi :=
    match known_max with
    | Some m => m
    | None => fold_right Qmax (hd 0%Q finite) finite
    end in
  map3 (scale_value lower upper under over lo hi) values.

Definition utils_model : Utils :=
  {| get_index := get_index_model;
     reciprocal_sum := reciprocal_sum_model;
     min_max_scaling := min_max_scaling_model |}.

(** ** A tick with two trains on one track

    Train 0 stands on the node (0,0) and heads east to (0,9); train 1 left
    the node (0,9) two ticks ago, is in the cell (0,7) and heads west to
    (0,0).  Both move one cell per tick; train 1 is broken for two ticks. *)

Definition east (c : Z) : Node := (0, c, 1).
Definition west (c : Z) : Node := (0, c, 3).

Definition track : CellOrientationGraph :=
  {| get_agent_cell := fun handle =>
       match handle with
       | O => Some (east 0)
       | S O => Some (west 7)
       | _ => None
       end;
     previous_node := fun position =>
       match position with
       | Some n => if node_eqb n (west 7) then (west 9, 2) else (n, 0)
       | None => (pad_node, 0)
       end;
     next_node := fun position =>
       if node_eqb position (west 7) then (west 6, 1%Q) else (position, 0%Q);
     get_nodes := fun p => [(p, 1); (p, 3)];
     successors := fun n =>
       if snd n =? 1 then
         (if snd (fst n) <? 9 then [east (snd (fst n) + 3)] else [])
       else
         (if 0 <? snd (fst n) then [west (snd (fst n) - 3)] else []);
     graph_nodes := fun n => (snd (fst n) mod 3 =? 0) |}.

Definition trains : list Agent :=
  [ {| speed := 1; position_fraction := 0; malfunction := 0; status := ACTIVE |};
    {| speed := 1; position_fraction := 0; malfunction := 2; status := ACTIVE |} ].

Definition hop (a b : Node) (w : Q) : edge :=
  {| e_from := a; e_to := b; e_weight := w |}.

Definition east_shortest : Prediction :=
  {| path := [east 0; east 3; east 6; east 9];
     edges := [hop (east 0) (east 3) 3; hop (east 3) (east 6) 3;
               hop (east 6) (east 9) 3];
     lenght := Cells 9 |}.

Definition siding (c : Z) : Node := (1, c, 1).

Definition east_deviations : list Prediction :=
  [ {| path := [east 0; siding 3; east 6; east 9];
       edges := [hop (east 0) (siding 3) 4; hop (siding 3) (east 6) 4;
                 hop (east 6) (east 9) 3];
       lenght := Cells 11 |};
    {| path := [east 3; siding 5; east 9];
       edges := [hop (east 3) (siding 5) 3; hop (siding 5) (east 9) 5];
       lenght := Cells 8 |};
    {| path := [east 6; siding 8; east 9];
       edges := [hop (east 6) (siding 8) 3; hop (siding 8) (east 9) 2];
       lenght := Cells 5 |} ].

Definition west_shortest : Prediction :=
  {| path := [west 7; west 6; west 3; west 0];
     edges := [hop (west 7) (west 6) 1; hop (west 6) (west 3) 3;
               hop (west 3) (west 0) 3];
     lenght := Cells 7 |}.

Definition forecasts : list (option (Prediction * list Prediction)) :=
  [Some (east_shortest, east_deviations); Some (west_shortest, [])].

Definition at_reset : CustomObservation := _init_agents track 4 trains.

Definition or_else {A : Type} (d : A) (r : res A) : A :=
  match r with
  | Ret a => a
  | Raise => d
  end.

Definition at_tick : CustomObservation :=
  or_else at_reset (get_many track trains at_reset forecasts).

Definition packed_at_tick : list (list Pos) * list (list Q) :=
  or_else ([], []) (_get_shortest_packed_positions at_tick).

Definition no_features : Features :=
  {| f_num_agents := []; f_agent_distances := []; f_malfunctions := [];
     f_target_distances := []; f_c_nodes := []; f_deadlocks := [];
     f_deadlock_distances := [] |}.

(** The features of the shortest path of train 0. *)
Definition east_feats : Features :=
  or_else no_features
    (_fill_path_values track utils_model trains at_tick 0 east_shortest
       (fst packed_at_tick) (snd packed_at_tick) 0%Q 0 None).

(** The tensor of train 0 before and after [normalize]. *)
Definition east_raw : tensor :=
  or_else [] (raw_observation track utils_model trains at_tick forecasts 0).

Definition east_normalized : tensor :=
  or_else [] (normalize utils_model trains 5 at_tick east_raw).

(** The output of the conflict detector on the shortest path of train 0. *)
Definition east_conflicts : path_arrays :=
  or_else ([], [], [])
    (agents_in_path track utils_model trains at_tick 0 (path east_shortest)
       [0; 3; 6; 9]%Q None).

(** The features of the third deviation path of train 0, which leaves the
    shortest path at its node number 2. *)
Definition east_third_feats : Features :=
  or_else no_features
    (deviation_feats track utils_model trains at_tick 0
       (fst packed_at_tick) (snd packed_at_tick) east_feats 2
       (nth 2 east_deviations east_shortest)).

(** Train 1 one tick later: it moved on to the node west 6. *)
Definition moved_west : Prediction :=
  {| path := [west 6; west 3; west 0];
     edges := [hop (west 6) (west 3) 3; hop (west 3) (west 0) 3];
     lenght := Cells 6 |}.

Definition west_moved : CustomObservation :=
  or_else at_tick (_update_shortest track trains at_tick 1 moved_west).

(** The output of the deadlock predictor on the shortest path of train 0. *)
Definition east_deadlocks : list Z * list fval :=
  or_else ([], [])
    (find_deadlocks utils_model at_tick 0
       (nth 0 (fst packed_at_tick) []) (nth 0 (snd packed_at_tick) [])
       (fst packed_at_tick) (snd packed_at_tick) 0).

(** *** A short shortest path and a long first deviation

    The same two trains, but train 0 now stops at the node (0,3): its
    shortest path has two nodes, and its first deviation path, which
    leaves at the node the train stands on, reaches (0,3) over a siding
    with four nodes. *)

Definition short_east : Prediction :=
  {| path := [east 0; east 3];
     edges := [hop (east 0) (east 3) 3];
     lenght := Cells 3 |}.

Definition long_detour : Prediction :=
  {| path := [east 0; siding 1; siding 2; east 3];
     edges := [hop (east 0) (siding 1) 2; hop (siding 1) (siding 2) 1;
               hop (siding 2) (east 3) 2];
     lenght := Cells 5 |}.

Definition short_forecasts : list (option (Prediction * list Prediction)) :=
  [Some (short_east, [long_detour]); Some (west_shortest, [])].

Definition short_tick : CustomObservation :=
  or_else at_reset (get_many track trains at_reset short_forecasts).

Definition short_packed : list (list Pos) * list (list Q) :=
  or_else ([], []) (_get_shortest_packed_positions short_tick).

(** The features of the shortest path of train 0 and of its deviation. *)
Definition short_feats : Features :=
  or_else no_features
    (_fill_path_values track utils_model trains short_tick 0 short_east
       (fst short_packed) (snd short_packed) 0%Q 0 None).

Definition detour_feats : Features :=
  or_else no_features
    (deviation_feats track utils_model trains short_tick 0
       (fst short_packed) (snd short_packed) short_feats 0 long_detour).

(** The tensor of train 0 before [normalize]. *)
Definition short_raw : tensor :=
  or_else [] (raw_observation track utils_model trains short_tick
                short_forecasts 0).

(** Two rows of action values and the actions allowed in each. *)
Definition q_values : list (list fval) :=
  [[Fin 1; Fin 5; Fin 3]; [NInf; Fin 2; NaN]].

Definition legal_actions : list (list Z) := [[1; 0; 1]; [1; 1; 1]].

(** ** Readings of the specification *)




(** The distance that the conflict detector proposes for a match. *)
Definition candidate_distance (me other : SpeedData) (cw next_node_distance : Q)
  (direction : nat) : Q :=
  (initial_distance_at me cw
   + signed_turns direction (turns_to_reach me other next_node_distance))%Q.

(** [t[i, j, k]], when it exists. *)
Definition entry (t : tensor) (i j k : nat) : option fval :=
  match nth_error t i with
  | Some plane =>
      match nth_error plane j with
      | Some row => nth_error row k
      | None => None
      end
  | None => None
  end.

Definition nondecreasing {A : Type} (le : A -> A -> Prop) (l : list A) : Prop :=
  forall k x y, nth_error l k = Some x -> nth_error l (S k) = Some y -> le x y.

(** [a[k, c]] of an array of counters, 0 outside of it. *)
Definition cell (a : list (list Z)) (k c : nat) : Z := nth c (nth k a []) 0.

(** Whether [a[k, c]] exists. *)
Definition present (a : list (list Z)) (k c : nat) : bool :=
  (c <? length (nth k a []))%nat.

(** The two updates of [num_agents] for one matched agent. *)
Definition count_agent (index len direction : nat) (malfunction : Z)
  (num_agents : list (list Z)) : list (list Z) :=
  let counted := add_slice_col index len direction num_agents in
  if 0 <? malfunction
  then add_slice_col index len (direction + 2) counted
  else counted.

(** Whether [k] lies in the slice [lo:hi]. *)
Definition in_slice (lo hi k : nat) : bool := ((lo <=? k) && (k <? hi))%nat.

(** In each direction the malfunctioning agents are among the counted. *)
Definition counts_consistent (na : list (list Z)) : Prop :=
  forall k,
    0 <= cell na k 2 <= cell na k 0 /\ 0 <= cell na k 3 <= cell na k 1.

(** The number of the agents of [others] whose row of [rows] holds [p]. *)
Definition sharing (rows : list (list Pos)) (others : list nat) (p : Pos) : Z :=
  Z.of_nat (length (filter (fun a => isin (nth a rows []) p) others)).

(** The spec's rule of the deadlock predictor, for the edge [i -> i+1] of
    the other agent and the edge [j -> j+1] of this one: this edge is the
    reverse of the other one, and neither interval of cumulative weights
    strictly precedes the other. *)
Definition reverse_overlap (positions : list Pos) (cum_weights : list Q)
  (agent_path : list Pos) (other_weights : list Q) (i j : nat) : Prop :=
  exists source dest other_source other_dest mine_in mine_out other_in other_out,
    nth_error positions j = Some source
    /\ nth_error positions (S j) = Some dest
    /\ nth_error agent_path i = Some other_source
    /\ nth_error agent_path (S i) = Some other_dest
    /\ nth_error cum_weights j = Some mine_in
    /\ nth_error cum_weights (S j) = Some mine_out
    /\ nth_error other_weights i = Some other_in
    /\ nth_error other_weights (S i) = Some other_out
    /\ source = other_dest /\ dest = other_source
    /\ ~ (other_out < mine_in)%Q /\ ~ (mine_out < other_in)%Q.

(** What the counters of the builder satisfy at every tick. *)
Definition counters_ok (self : CustomObservation) : Prop :=
  Forall (fun ln : Node * Z => 0 <= snd ln) (last_nodes self)
  /\ Forall (fun sd => 0 <= times sd) (speed_data self).

(** The row of cumulative weights of the agent [h] was written this tick
    from a path of [n] nodes. *)
Definition row_ok (self : CustomObservation) (h n : nat) : Prop :=
  exists sd rest,
    nth_error (speed_data self) h = Some sd
    /\ nth_error (_shortest_cum_weights self) h
       = Some (inject_Z (remaining sd) :: rest)
    /\ nondecreasing Qle (firstn n (inject_Z (remaining sd) :: rest)).

Definition nonnegative_weights (edges : list edge) : Prop :=
  Forall (fun e => (0 <= e_weight e)%Q) edges.

(** The value that the agent counts of a path start from. *)
Definition seed_value (prev_num_agents : option (list Z)) (c : nat) : Z :=
  match prev_num_agents with
  | Some prev => nth c prev 0
  | None => 0
  end.

(** An array of [rows] rows of [cols] entries. *)
Definition shaped {A : Type} (rows cols : nat) (a : list (list A)) : Prop :=
  length a = rows /\ Forall (fun row => length row = cols) a.

(** ** Shapes of the builder *)

(** The tables of the builder have one entry for each of [n] agents. *)
Definition tables_sized (self : CustomObservation) (n : nat) : Prop :=
  length (speed_data self) = n
  /\ length (last_nodes self) = n
  /\ length (last_positions self) = n
  /\ length (agent_handles self) = n.

(** The arrays of the tick have one row of [max_depth] entries for each of
    [n] agents. *)
Definition tick_shaped (self : CustomObservation) (n : nat) : Prop :=
  shaped n (max_depth self) (_shortest_paths self)
  /\ shaped n (max_depth self) (_shortest_positions self)
  /\ shaped n (max_depth self) (_shortest_cum_weights self).

(** The entry of the agent [h] in every table and array of the builder. *)
Definition agent_view (self : CustomObservation) (h : nat) :=
  (nth_error (speed_data self) h,
   nth_error (last_nodes self) h,
   nth_error (last_positions self) h,
   nth_error (_shortest_paths self) h,
   nth_error (_shortest_positions self) h,
   nth_error (_shortest_cum_weights self) h).

Fixpoint sumQ (l : list Q) : Q :=
  match l with
  | [] => 0%Q
  | x :: t => (x + sumQ t)%Q
  end.

(** The rows of the agent [h] hold the path of the prediction [p], its
    positions and its cumulative weights, each followed by the filler. *)
Definition row_written (self : CustomObservation) (h : nat) (p : Prediction)
  : Prop :=
  exists sd,
    nth_error (speed_data self) h = Some sd
    /\ nth_error (_shortest_paths self) h
       = Some (path p
               ++ repeat pad_node (max_depth self - length (path p)))
    /\ nth_error (_shortest_positions self) h
       = Some (map node_pos (path p)
               ++ repeat pad_pos (max_depth self - length (path p)))
    /\ nth_error (_shortest_cum_weights self) h
       = Some (np_cumsum
                 (inject_Z (remaining sd)
                  :: map (fun e => (e_weight e * inject_Z (times sd))%Q)
                         (edges p))
               ++ repeat 0%Q (max_depth self - S (length (edges p)))).

(** The rows of the agent [h] hold the filler only. *)
Definition row_blank (self : CustomObservation) (h : nat) : Prop :=
  nth_error (_shortest_paths self) h
  = Some (repeat pad_node (max_depth self))
  /\ nth_error (_shortest_positions self) h
     = Some (repeat pad_pos (max_depth self))
  /\ nth_error (_shortest_cum_weights self) h
     = Some (repeat 0%Q (max_depth self)).

(** ** Links between the arrays of the conflict detector *)

(** [a[k, d]] of an array of distances, [+inf] outside of it. *)
Definition distance_at (a : list (list fval)) (k d : nat) : fval :=
  nth d (nth k a []) PInf.

(** The three arrays of the loop of [agents_in_path], [depth] rows each:
    a distance is [+inf] or the finite distance of a counted agent on the
    path; a waiting time is not negative, and positive only where a
    malfunctioning agent is counted. *)
Definition arrays_linked (depth len : nat) (st : path_arrays) : Prop :=
  let '(na, ds, ms) := st in
  shaped depth 2 ds
  /\ shaped depth 2 ms
  /\ (forall k c, present na k c = ((k <? depth) && (c <? 4))%nat)
  /\ (forall k c, 0 <= cell na k c)
  /\ forall k d,
       (d < 2)%nat ->
       (distance_at ds k d = PInf
        \/ exists q,
             distance_at ds k d = Fin q
             /\ (k < len)%nat /\ 1 <= cell na k d)
       /\ 0 <= cell ms k d
       /\ (0 < cell ms k d -> 1 <= cell na k (d + 2)).

(** ** Links between the arrays of the deadlock predictor *)

(** The two arrays of the loop of [find_deadlocks], [depth] entries each:
    a crash turn is stored only at the first node of an edge of the path,
    where a deadlock is counted; a count never falls below the seed, and
    is above it only from a node with a stored crash turn on. *)
Definition deadlocks_linked (depth len : nat) (prev : Z)
  (st : list Z * list fval) : Prop :=
  let '(dl, ct) := st in
  length dl = depth
  /\ length ct = depth
  /\ forall k,
       (k < depth)%nat ->
       prev <= nth k dl 0
       /\ (nth k ct PInf <> PInf ->
           (S k < len)%nat /\ prev < nth k dl 0)
       /\ (prev < nth k dl 0 ->
           (k < len)%nat /\ exists j, (j <= k)%nat /\ nth j ct PInf <> PInf).

(** ** Shape of the observation *)

(** A tensor of [depth] rows, each a matrix of [depth] nodes by [cols]
    features. *)
Definition tensor_shaped (depth cols : nat) (t : tensor) : Prop :=
  length t = depth /\ Forall (shaped depth cols) t.

(** The row of a path that [get] never writes. *)
Definition blank_row (depth : nat) : list (list fval) :=
  np_full depth (np_full FEATURES NInf).

(** The number of features of every node of every row of a tensor. *)
Definition widths (t : tensor) : list (list nat) :=
  map (map (@length fval)) t.

(** * Proofs *)

(** ** Comparisons *)

Lemma Qltb_lt : forall x y, Qltb x y = true <-> (x < y)%Q.
Proof.
  intros x y. unfold Qltb. rewrite negb_true_iff.
  split; intro H.
  - apply Qnot_le_lt. intro Hle. apply Qle_bool_iff in Hle. congruence.
  - destruct (Qle_bool y x) eqn:E; [|reflexivity].
    apply Qle_bool_iff in E. exfalso. apply (Qlt_not_le _ _ H E).
Qed.

Lemma Qltb_ge : forall x y, Qltb x y = false <-> (y <= x)%Q.
Proof.
  intros x y. unfold Qltb. rewrite negb_false_iff. apply Qle_bool_iff.
Qed.

Lemma Qle_bool_gt : forall x y, Qle_bool x y = false <-> (y < x)%Q.
Proof.
  intros x y. rewrite <- Qltb_lt. unfold Qltb.
  destruct (Qle_bool x y); simpl; intuition congruence.
Qed.

Lemma pos_eqb_eq : forall a b : Pos, pos_eqb a b = true <-> a = b.
Proof.
  intros [a1 a2] [b1 b2]. unfold pos_eqb. simpl.
  rewrite andb_true_iff, !Z.eqb_eq. split.
  - intros [-> ->]. reflexivity.
  - intro H. inversion H. auto.
Qed.

Lemma node_eqb_eq : forall a b : Node, node_eqb a b = true <-> a = b.
Proof.
  intros [a1 a2] [b1 b2]. unfold node_eqb. simpl.
  rewrite andb_true_iff, pos_eqb_eq, Z.eqb_eq. split.
  - intros [-> ->]. reflexivity.
  - intro H. inversion H. auto.
Qed.

Lemma node_eqb_neq : forall a b : Node, node_eqb a b = false <-> a <> b.
Proof.
  intros a b. rewrite <- node_eqb_eq. destruct (node_eqb a b); intuition congruence.
Qed.

Lemma pos_eqb_neq : forall a b : Pos, pos_eqb a b = false <-> a <> b.
Proof.
  intros a b. rewrite <- pos_eqb_eq. destruct (pos_eqb a b); intuition congruence.
Qed.

(** ** The exception monad *)

Lemma bind_ret : forall {A B : Type} (m : res A) (k : A -> res B) (b : B),
  bind m k = Ret b -> exists a, m = Ret a /\ k a = Ret b.
Proof.
  intros A B [a|] k b H; simpl in H; [eauto | discriminate].
Qed.

Lemma item_ret : forall {A : Type} (l : list A) (i : nat) (x : A),
  item l i = Ret x <-> nth_error l i = Some x.
Proof.
  intros A l i x. unfold item.
  destruct (nth_error l i); split; intro H; inversion H; reflexivity.
Qed.

Lemma item_lt : forall {A : Type} (l : list A) (i : nat),
  (i < length l)%nat -> exists x, item l i = Ret x.
Proof.
  intros A l i H. unfold item.
  destruct (nth_error l i) eqn:E; [eauto|].
  apply nth_error_None in E. lia.
Qed.

(** Takes a hypothesis [bind m k = Ret b] apart. *)
Ltac bind_inv H :=
  let a := fresh "a" in
  let E := fresh "E" in
  apply bind_ret in H; destruct H as (a & E & H).

(** ** Speed model *)

Lemma py_int_floor : forall q : Q, (0 <= q)%Q -> py_int q = Qfloor q.
Proof.
  intros [n d] H. unfold py_int, Qfloor. simpl.
  apply Z.quot_div_nonneg; [|reflexivity].
  unfold Qle in H. simpl in H. lia.
Qed.

Lemma fl_comp : forall x y : Q, (x == y)%Q -> fl x = fl y.
Proof.
  intros x y H. unfold fl. rewrite (Qred_complete _ _ H). reflexivity.
Qed.

Lemma scaled_round_lower : forall N D k,
  0 < D -> k * D <= N -> k <= scaled_round N D.
Proof.
  intros N D k HD H. unfold scaled_round.
  assert (Hf : k <= N / D) by (apply Z.div_le_lower_bound; lia).
  destruct (2 * (N mod D) ?= D); [destruct (Z.even (N / D))| |]; lia.
Qed.


Lemma binade_lower : forall n d,
  0 < n -> 0 < d -> pow2_le (binade n d) n d = true.
Proof.
  intros n d Hn Hd. unfold binade.
  destruct (pow2_le (Z.log2 n - Z.log2 d) n d) eqn:E; [exact E|].
  destruct (Z.log2_spec n Hn) as [Hn1 Hn2].
  destruct (Z.log2_spec d Hd) as [Hd1 Hd2].
  pose proof (Z.log2_nonneg n) as Ha. pose proof (Z.log2_nonneg d) as Hb.
  set (a := Z.log2 n) in *. set (b := Z.log2 d) in *.
  unfold pow2_le.
  destruct (0 <=? a - b - 1) eqn:Ee.
  - apply Z.leb_le in Ee. apply Z.leb_le.
    (* 2^(a-b-1) * d <= 2^(a-b-1) * 2^(b+1) = 2^a <= n *)
    assert (Hp : 2 ^ (a - b - 1) * 2 ^ (Z.succ b) = 2 ^ a).
    { rewrite <- Z.pow_add_r by lia. f_equal. lia. }
    assert (0 < 2 ^ (a - b - 1)) by (apply Z.pow_pos_nonneg; lia).
    nia.
  - apply Z.leb_gt in Ee. apply Z.leb_le.
    (* d < 2^(b+1) = 2^a * 2^(b+1-a) <= n * 2^-(a-b-1) *)
    replace (- (a - b - 1)) with (Z.succ b - a) by lia.
    assert (Hp : 2 ^ a * 2 ^ (Z.succ b - a) = 2 ^ Z.succ b).
    { rewrite <- Z.pow_add_r by lia. f_equal. lia. }
    assert (0 < 2 ^ (Z.succ b - a)) by (apply Z.pow_pos_nonneg; lia).
    nia.
Qed.

(** An integer that 53 bits hold lies on the same side of the float as
    of the rational. *)
Lemma fl_pos_lower : forall n d k,
  0 < n -> 0 < d -> k <= 2 ^ 53 ->
  k * d <= n -> (inject_Z k <= fl_pos n d)%Q.
Proof.
  intros n d k Hn Hd Hk H. unfold fl_pos.
  pose proof (binade_lower n d Hn Hd) as Hb. unfold pow2_le in Hb.
  set (e := binade n d) in *.
  destruct (0 <=? e - 52) eqn:Eu.
  - apply Z.leb_le in Eu.
    rewrite (proj2 (Z.leb_le 0 e)) in Hb by lia. apply Z.leb_le in Hb.
    rewrite <- Zle_Qle.
    assert (Hpu : 0 < 2 ^ (e - 52)) by (apply Z.pow_pos_nonneg; lia).
    destruct (Z.eq_dec (e - 52) 0) as [E0 | E0].
    + rewrite E0 in *. simpl Z.pow. rewrite !Z.mul_1_r.
      apply scaled_round_lower; lia.
    + assert (Hm : 2 ^ 52 <= scaled_round n (d * 2 ^ (e - 52))).
      { apply scaled_round_lower; [nia|].
        replace (2 ^ 52 * (d * 2 ^ (e - 52))) with (2 ^ e * d); [exact Hb|].
        replace e with (52 + (e - 52)) at 1 by lia.
        rewrite Z.pow_add_r by lia. ring. }
      assert (H2 : 2 ^ 1 <= 2 ^ (e - 52)) by (apply Z.pow_le_mono_r; lia).
      change (2 ^ 53) with (2 ^ 52 * 2 ^ 1) in Hk. nia.
  - apply Z.leb_gt in Eu.
    assert (Hpu : 0 < 2 ^ (- (e - 52))) by (apply Z.pow_pos_nonneg; lia).
    unfold Qle. simpl. rewrite Z2Pos.id by exact Hpu. rewrite Z.mul_1_r.
    apply scaled_round_lower; [exact Hd | nia].
Qed.


Lemma Qred_pos_parts : forall x : Q,
  (0 < x)%Q -> exists n, Qnum (Qred x) = Zpos n.
Proof.
  intros x Hx. pose proof (Qred_correct x) as Hr.
  assert (H : (0 < Qred x)%Q) by (rewrite Hr; exact Hx).
  unfold Qlt in H. simpl in H.
  destruct (Qnum (Qred x)) as [|n|n]; try lia. exists n. reflexivity.
Qed.

Lemma fl_zero : forall x : Q, (x == 0)%Q -> fl x = 0%Q.
Proof.
  intros x H. rewrite (fl_comp _ _ H). reflexivity.
Qed.

Lemma fl_lower : forall (x : Q) (k : Z),
  k <= 2 ^ 53 -> (0 <= x)%Q -> (inject_Z k <= x)%Q -> (inject_Z k <= fl x)%Q.
Proof.
  intros x k Hk Hx H.
  destruct (Qlt_le_dec 0 x) as [Hpos | Hzero].
  - destruct (Qred_pos_parts x Hpos) as (n & En).
    unfold fl. rewrite En. apply fl_pos_lower; try lia.
    rewrite <- (Qred_correct x) in H. unfold Qle in H. simpl in H.
    rewrite En in H. lia.
  - assert (E : (x == 0)%Q) by lra. rewrite (fl_zero _ E). lra.
Qed.



(** [fl] on known cases: the floats nearest to 1/10 and 1/3, the sum of
    the floats 0.1 and 0.2, two ties (to the even neighbour, below and
    above), and the difference and the quotients of the speed model at the
    floats 0.1, 0.6 and 0.9. *)
Lemma fl_known_values :
  let tenth := 3602879701896397 # 36028797018963968 in
  let fifth := 3602879701896397 # 18014398509481984 in
  let left := 900719925474099 # 9007199254740992 in
  (fl (1 # 10) == tenth)%Q
  /\ (fl (1 # 3) == 6004799503160661 # 18014398509481984)%Q
  /\ (fl (tenth + fifth) == 1351079888211149 # 4503599627370496)%Q
  /\ (fl (inject_Z (2 ^ 53 + 1)) == inject_Z (2 ^ 53))%Q
  /\ (fl (inject_Z (2 ^ 53 + 3)) == inject_Z (2 ^ 53 + 4))%Q
  /\ (fl (/ tenth) == 10)%Q
  /\ (fl (/ (5404319552844595 # 9007199254740992))
      == 7505999378950827 # 4503599627370496)%Q
  /\ (fl (1 - (8106479329266893 # 9007199254740992)) == left)%Q
  /\ (fl (left / tenth) == 4503599627370495 # 4503599627370496)%Q.
Proof.
  simpl. repeat split; vm_compute; reflexivity.
Qed.

Lemma inv_speed_ge_1 : forall s : Q, (0 < s)%Q -> (s <= 1)%Q -> (1 <= / s)%Q.
Proof.
  intros s Hpos Hle. apply Qle_shift_inv_l; [exact Hpos | lra].
Qed.





Lemma times_per_cell_floor : forall s : Q,
  (0 < s)%Q -> (s <= 1)%Q ->
  times_per_cell s = Qfloor (fl (/ s)) /\ 1 <= times_per_cell s.
Proof.
  intros s Hpos Hle. unfold times_per_cell.
  pose proof (inv_speed_ge_1 s Hpos Hle) as H1.
  assert (H0 : (0 <= / s)%Q) by lra.
  assert (Hf : (inject_Z 1 <= fl (/ s))%Q).
  { apply fl_lower; [lia | exact H0 | exact H1]. }
  rewrite py_int_floor by (change (inject_Z 1) with 1%Q in Hf; lra).
  split; [reflexivity|].
  rewrite <- (Qfloor_Z 1). apply Qfloor_resp_le. exact Hf.
Qed.







(** ** Lists and arrays *)

Lemma skipn_repeat : forall {A : Type} (v : A) (k n : nat),
  skipn k (repeat v n) = repeat v (n - k).
Proof.
  intros A v k. induction k as [|k IH]; intro n.
  - rewrite Nat.sub_0_r. reflexivity.
  - destruct n; [reflexivity|]. simpl. apply IH.
Qed.

Lemma length_upd_at : forall {A : Type} (f : A -> A) (l : list A) (i : nat),
  length (upd_at i f l) = length l.
Proof.
  intros A f l. induction l as [|x t IH]; intros [|i]; simpl; auto.
Qed.

Lemma nth_error_upd_at_eq : forall {A : Type} (f : A -> A) (l : list A) (i : nat),
  nth_error (upd_at i f l) i = option_map f (nth_error l i).
Proof.
  intros A f l. induction l as [|x t IH]; intros [|i]; simpl; auto.
Qed.

Lemma nth_error_upd_at_neq : forall {A : Type} (f : A -> A) (l : list A) (i k : nat),
  k <> i -> nth_error (upd_at i f l) k = nth_error l k.
Proof.
  intros A f l. induction l as [|x t IH]; intros [|i] [|k] H; simpl; auto.
  congruence.
Qed.

Lemma length_map_range : forall {A : Type} (f : A -> A) (l : list A) (lo hi : nat),
  length (map_range lo hi f l) = length l.
Proof.
  intros A f l. induction l as [|x t IH]; intros lo hi; simpl; auto.
Qed.

Lemma nth_error_map_range : forall {A : Type} (f : A -> A) (l : list A) (lo hi k : nat),
  nth_error (map_range lo hi f l) k =
    if ((lo <=? k) && (k <? hi))%nat
    then option_map f (nth_error l k)
    else nth_error l k.
Proof.
  intros A f l. induction l as [|x t IH]; intros lo hi k; simpl.
  - destruct k; destruct ((lo <=? _) && _)%nat; reflexivity.
  - destruct k as [|k]; simpl.
    + destruct lo as [|lo], hi as [|hi]; reflexivity.
    + rewrite IH.
      destruct lo as [|lo], hi as [|hi]; simpl; reflexivity.
Qed.

Lemma nth_error_enumerate_from : forall {A : Type} (l : list A) (s i : nat),
  nth_error (combine (seq s (length l)) l) i =
    option_map (fun x => ((s + i)%nat, x)) (nth_error l i).
Proof.
  intros A l. induction l as [|x t IH]; intros s [|i]; simpl; auto.
  - rewrite Nat.add_0_r. reflexivity.
  - rewrite IH. rewrite Nat.add_succ_r. reflexivity.
Qed.

Lemma nth_error_enumerate : forall {A : Type} (l : list A) (i : nat),
  nth_error (enumerate l) i = option_map (fun x => (i, x)) (nth_error l i).
Proof.
  intros A l i. unfold enumerate. apply nth_error_enumerate_from.
Qed.

Lemma nth_error_repeat_lt : forall {A : Type} (v : A) (n k : nat),
  (k < n)%nat -> nth_error (repeat v n) k = Some v.
Proof.
  intros A v n. induction n as [|n IH]; intros [|k] H; simpl; try lia; auto.
  apply IH. lia.
Qed.

(** ** C4: the per-cell tick count *)







(** ** C2: the tie-break of the conflict distances *)

(** Splits on every comparison of rationals in the goal. *)
Ltac q_cases :=
  repeat match goal with
  | |- context [Qltb ?a ?b] =>
      let E := fresh "E" in
      destruct (Qltb a b) eqn:E;
      [apply Qltb_lt in E | apply Qltb_ge in E]
  | |- context [Qle_bool ?a ?b] =>
      let E := fresh "E" in
      destruct (Qle_bool a b) eqn:E;
      [apply Qle_bool_iff in E | apply Qle_bool_gt in E]
  end; simpl.

Lemma replaces_placeholder : forall d : Q, replaces PInf (Fin d) = true.
Proof. intro d. reflexivity. Qed.

Lemma replaces_finite : forall x d : Q,
  replaces (Fin x) (Fin d) = true <->
  ((0 <= d)%Q /\ (d < x)%Q) \/ ((d <= 0)%Q /\ (x < d)%Q) \/ ((0 <= d)%Q /\ (x < 0)%Q).
Proof.
  intros x d. unfold replaces, fge, fgt, fle, flt, feq.
  q_cases; split; intro H; try reflexivity; try discriminate;
    try (exfalso; lra); try lra.
Qed.

(** C2 (amended): a stored +infinity is always replaced; inside one sign
    bucket the value of strictly smaller magnitude is kept; a stored
    negative value is always replaced by a non-negative candidate, and a
    stored finite non-negative value is never replaced by a negative one. *)
Theorem distance_tie_break :
  forall d : Q,
    updated_distance PInf (Fin d) = Fin d
    /\ (forall x, (0 <= x)%Q -> (0 <= d)%Q ->
          updated_distance (Fin x) (Fin d) =
            if Qltb (Qabs d) (Qabs x) then Fin d else Fin x)
    /\ (forall x, (x <= 0)%Q -> (d <= 0)%Q ->
          updated_distance (Fin x) (Fin d) =
            if Qltb (Qabs d) (Qabs x) then Fin d else Fin x)
    /\ (forall x, (x < 0)%Q -> (0 <= d)%Q ->
          updated_distance (Fin x) (Fin d) = Fin d)
    /\ (forall x, (0 <= x)%Q -> (d < 0)%Q ->
          updated_distance (Fin x) (Fin d) = Fin x).
Proof.
  intro d. unfold updated_distance.
  split; [reflexivity | split; [|split; [|split]]].
  - intros x Hx Hd.
    destruct (replaces (Fin x) (Fin d)) eqn:R.
    + apply replaces_finite in R.
      assert (E : Qltb (Qabs d) (Qabs x) = true).
      { apply Qltb_lt. rewrite !Qabs_pos by assumption. lra. }
      rewrite E. reflexivity.
    + assert (E : Qltb (Qabs d) (Qabs x) = false).
      { apply Qltb_ge. rewrite !Qabs_pos by assumption.
        apply Qnot_lt_le. intro Hlt.
        assert (R' : replaces (Fin x) (Fin d) = true)
          by (apply replaces_finite; lra).
        congruence. }
      rewrite E. reflexivity.
  - intros x Hx Hd.
    destruct (replaces (Fin x) (Fin d)) eqn:R.
    + apply replaces_finite in R.
      assert (E : Qltb (Qabs d) (Qabs x) = true).
      { apply Qltb_lt. rewrite !Qabs_neg by assumption. lra. }
      rewrite E. reflexivity.
    + assert (E : Qltb (Qabs d) (Qabs x) = false).
      { apply Qltb_ge. rewrite !Qabs_neg by assumption.
        apply Qnot_lt_le. intro Hlt.
        assert (R' : replaces (Fin x) (Fin d) = true)
          by (apply replaces_finite; lra).
        congruence. }
      rewrite E. reflexivity.
  - intros x Hx Hd.
    assert (R : replaces (Fin x) (Fin d) = true)
      by (apply replaces_finite; lra).
    rewrite R. reflexivity.
  - intros x Hx Hd.
    destruct (replaces (Fin x) (Fin d)) eqn:R; [|reflexivity].
    apply replaces_finite in R. exfalso. lra.
Qed.

Lemma distance_tie_break_witness :
  updated_distance (Fin 5) (Fin 2) = Fin 2
  /\ updated_distance (Fin (-5)) (Fin (-2)) = Fin (-2)
  /\ updated_distance (Fin (-5)) (Fin 2) = Fin 2
  /\ updated_distance (Fin 5) (Fin (-2)) = Fin 5.
Proof.
  destruct (distance_tie_break 2%Q) as (_ & Hpos & _ & Hup & _).
  destruct (distance_tie_break (-2)%Q) as (_ & _ & Hneg & _ & Hkeep).
  refine (conj (Hpos 5%Q _ _)
            (conj (Hneg (-5)%Q _ _) (conj (Hup (-5)%Q _ _) (Hkeep 5%Q _ _))));
    vm_compute; try reflexivity; discriminate.
Defined.

(** C2 (as stated) fails: the stored non-negative 3 is not replaced by the
    negative candidate -1. *)
Lemma stored_positive_kept_against_negative :
  fge (Fin 3) (Fin 0) = true
  /\ flt (Fin (-1)) (Fin 0) = true
  /\ replaces (Fin 3) (Fin (-1)) = false
  /\ updated_distance (Fin 3) (Fin (-1)) = Fin 3.
Proof.
  repeat split.
Qed.

(** ** C7: same direction or other direction *)

Lemma direction_of_cases : forall path node other_node next_nodes index,
  direction_of path node other_node next_nodes index = 1%nat
  \/ direction_of path node other_node next_nodes index = 0%nat.
Proof.
  intros. unfold direction_of.
  destruct (negb (node_eqb other_node node) && _); auto.
Qed.




(** What one iteration of the loop of [agents_in_path] does for another
    agent whose next node is matched in the path. *)
Lemma agents_in_path_step_match :
  forall g u agents self handle path cum_weights agent
         num_agents distances malfunctions
         position node next_node_distance other_node index
         cw me other stored a worst,
    get_agent_cell g agent = Some position ->
    next_node g position = (node, next_node_distance) ->
    first_match u path (get_nodes g (node_pos node)) = Some (other_node, index) ->
    item cum_weights index = Ret cw ->
    item (speed_data self) handle = Ret me ->
    item (speed_data self) agent = Ret other ->
    item agents agent = Ret a ->
    let direction :=
      direction_of path node other_node (successors g node) index in
    item2 distances index direction = Ret stored ->
    item2 malfunctions index direction = Ret worst ->
    agents_in_path_step g u agents self handle path cum_weights
      (num_agents, distances, malfunctions) agent =
    Ret (let counted := add_slice_col index (length path) direction num_agents in
         if 0 <? malfunction a
         then add_slice_col index (length path) (direction + 2) counted
         else counted,
         let candidate :=
           Fin (candidate_distance me other cw next_node_distance direction) in
         if replaces stored candidate
         then set2 distances index direction candidate
         else distances,
         if worst <? malfunction a
         then set2 malfunctions index direction (malfunction a)
         else malfunctions).
Proof.
  intros g u agents self handle path cum_weights agent
         num_agents distances malfunctions
         position node nnd other_node index cw me other stored a worst
         Hcell Hnext Hmatch Hcw Hme Hother Ha direction Hstored Hworst.
  unfold agents_in_path_step.
  rewrite Hcell, Hnext, Hmatch, Hcw. simpl.
  rewrite Hme. simpl. rewrite Hother. simpl.
  fold direction. rewrite Hstored. simpl.
  rewrite Ha. simpl. rewrite Hworst. simpl.
  reflexivity.
Qed.

(** ** C1: the normalized tensor stays in the sentinel band *)

Lemma entry_map3 : forall (f : fval -> fval) (t : tensor) (i j k : nat),
  entry (map3 f t) i j k = option_map f (entry t i j k).
Proof.
  intros f t i j k. unfold entry, map3.
  rewrite nth_error_map. destruct (nth_error t i) as [plane|]; simpl; auto.
  rewrite nth_error_map. destruct (nth_error plane j) as [row|]; simpl; auto.
  apply nth_error_map.
Qed.

Lemma forall3_entry : forall (f : fval -> bool) (t : tensor) (i j k : nat) (v : fval),
  forall3 f t = true -> entry t i j k = Some v -> f v = true.
Proof.
  intros f t i j k v Hall He. unfold entry in He. unfold forall3 in Hall.
  destruct (nth_error t i) as [plane|] eqn:Ei; [|discriminate].
  destruct (nth_error plane j) as [row|] eqn:Ej; [|discriminate].
  rewrite forallb_forall in Hall.
  specialize (Hall plane (nth_error_In _ _ Ei)).
  rewrite forallb_forall in Hall.
  specialize (Hall row (nth_error_In _ _ Ej)).
  rewrite forallb_forall in Hall.
  exact (Hall v (nth_error_In _ _ He)).
Qed.

Lemma in_range_bounds : forall v : fval,
  in_range v = true -> exists q, v = Fin q /\ (UNDER <= q)%Q /\ (q <= OVER)%Q.
Proof.
  intros [|q| |] H; unfold in_range in H; simpl in H; try discriminate.
  apply andb_true_iff in H. destruct H as [Hlo Hhi].
  apply Qle_bool_iff in Hlo. apply Qle_bool_iff in Hhi. eauto.
Qed.

Lemma normalize_ret : forall u agents max_malfunctions self observation t,
  normalize u agents max_malfunctions self observation = Ret t ->
  exists s,
    scaled u agents max_malfunctions self observation = Ret s
    /\ t = map3 sanity s
    /\ forall3 in_range t = true.
Proof.
  intros u agents mm self observation t H. unfold normalize in H.
  bind_inv H. exists a.
  destruct (forall3 in_range (map3 sanity a)) eqn:Hall; [|discriminate].
  inversion H. subst t. auto.
Qed.

Lemma get_normalizes : forall g u agents max_malfunctions self predictions handle t,
  get g u agents max_malfunctions self predictions handle = Ret t ->
  exists observation,
    normalize u agents max_malfunctions self observation = Ret t.
Proof.
  intros g u agents mm self predictions handle t H. unfold get in H.
  bind_inv H. eauto.
Qed.

Lemma normalize_entries : forall u agents max_malfunctions self observation t,
  normalize u agents max_malfunctions self observation = Ret t ->
  forall i j k v,
    entry t i j k = Some v ->
    exists q, v = Fin q /\ (- (2) <= q)%Q /\ (q <= 2)%Q.
Proof.
  intros u agents mm self observation t H i j k v He.
  destruct (normalize_ret _ _ _ _ _ _ H) as (s & Hs & Ht & Hall).
  destruct (in_range_bounds v (forall3_entry _ _ _ _ _ _ Hall He))
    as (q & Hq & Hlo & Hhi).
  exists q. auto.
Qed.

(** [get] ends with [normalize]: the same band holds for what it returns. *)
Lemma get_in_sentinel_band :
  forall g u agents max_malfunctions self predictions handle t,
    get g u agents max_malfunctions self predictions handle = Ret t ->
    forall i j k v,
      entry t i j k = Some v ->
      exists q, v = Fin q /\ (- (2) <= q)%Q /\ (q <= 2)%Q.
Proof.
  intros g u agents mm self predictions handle t H.
  destruct (get_normalizes _ _ _ _ _ _ _ _ H) as (observation & Hn).
  exact (normalize_entries _ _ _ _ _ _ Hn).
Qed.

(** C1: every entry of the tensor returned by [normalize], and so of every
    tensor returned by [get], is a number between UNDER = -2 and OVER = 2;
    an entry that is -infinity (+infinity) after the scaling comes out as
    exactly UNDER (OVER); the final assertion lets nothing else through. *)
Theorem normalized_in_sentinel_band :
  forall u agents max_malfunctions self observation t,
    normalize u agents max_malfunctions self observation = Ret t ->
    (forall i j k v,
       entry t i j k = Some v ->
       exists q, v = Fin q /\ (- (2) <= q)%Q /\ (q <= 2)%Q)
    /\ (exists s,
          scaled u agents max_malfunctions self observation = Ret s
          /\ forall i j k,
               (entry s i j k = Some NInf -> entry t i j k = Some (Fin UNDER))
               /\ (entry s i j k = Some PInf -> entry t i j k = Some (Fin OVER)))
    /\ UNDER = (- (2))%Q /\ OVER = 2%Q
    /\ forall3 in_range t = true.
Proof.
  intros u agents mm self observation t H.
  destruct (normalize_ret _ _ _ _ _ _ H) as (s & Hs & Ht & Hall).
  split; [|split; [|repeat split]].
  - exact (normalize_entries _ _ _ _ _ _ H).
  - exists s. split; [exact Hs|]. intros i j k. subst t.
    rewrite entry_map3. split; intro He; rewrite He; reflexivity.
  - exact Hall.
Qed.

Lemma normalized_in_sentinel_band_witness :
  normalize utils_model trains 5 at_tick east_raw = Ret east_normalized
  /\ forall i j k v,
       entry east_normalized i j k = Some v ->
       exists q, v = Fin q /\ (- (2) <= q)%Q /\ (q <= 2)%Q.
Proof.
  assert (E : normalize utils_model trains 5 at_tick east_raw
              = Ret east_normalized) by (vm_compute; reflexivity).
  split; [exact E|].
  exact (proj1 (normalized_in_sentinel_band _ _ _ _ _ _ E)).
Defined.

(** ** Loops that may raise *)

Lemma mapM_spec : forall {A B : Type} (f : A -> res B) (l : list A),
  (forall i x, nth_error l i = Some x -> exists y, f x = Ret y) ->
  exists r,
    mapM f l = Ret r
    /\ length r = length l
    /\ forall i x, nth_error l i = Some x ->
         exists y, f x = Ret y /\ nth_error r i = Some y.
Proof.
  intros A B f l. induction l as [|x t IH]; intro Hall.
  - exists []. simpl. repeat split; auto. intros [|i] x H; discriminate.
  - destruct (Hall 0%nat x eq_refl) as (y & Hy).
    destruct IH as (r & Hr & Hlen & Hnth).
    { intros i x' H. apply (Hall (S i) x' H). }
    exists (y :: r). simpl. rewrite Hy, Hr. simpl. repeat split; auto.
    intros [|i] x' H; simpl in *.
    + inversion H. subst x'. eauto.
    + apply Hnth. exact H.
Qed.

Lemma mapM_ret : forall {A B : Type} (f : A -> res B) (l : list A) (r : list B),
  mapM f l = Ret r ->
  length r = length l
  /\ forall i x, nth_error l i = Some x ->
       exists y, f x = Ret y /\ nth_error r i = Some y.
Proof.
  intros A B f l. induction l as [|x t IH]; intros r H; simpl in H.
  - inversion H. split; auto. intros [|i] x Hx; discriminate.
  - bind_inv H. bind_inv H. inversion H. subst r.
    destruct (IH _ E0) as [Hlen Hnth]. simpl. split; [congruence|].
    intros [|i] x' Hx; simpl in *.
    + inversion Hx. subst x'. eauto.
    + apply Hnth. exact Hx.
Qed.

Lemma zipM_ret : forall {A B C : Type} (f : A -> B -> res C)
  (l : list A) (m : list B) (r : list C),
  zipM f l m = Ret r ->
  length l = length m /\ length r = length l
  /\ forall i x y, nth_error l i = Some x -> nth_error m i = Some y ->
       exists z, f x y = Ret z /\ nth_error r i = Some z.
Proof.
  intros A B C f l. induction l as [|x t IH]; intros [|y m] r H; simpl in H;
    try discriminate.
  - inversion H. repeat split; auto. intros [|i] x y Hx; discriminate.
  - bind_inv H. bind_inv H. inversion H. subst r.
    destruct (IH _ _ E0) as (Hlm & Hlen & Hnth). simpl.
    repeat split; try congruence.
    intros [|i] x' y' Hx Hy; simpl in *.
    + inversion Hx. inversion Hy. subst. eauto.
    + eapply Hnth; eassumption.
Qed.

Lemma zipM_spec : forall {A B C : Type} (f : A -> B -> res C)
  (l : list A) (m : list B),
  length l = length m ->
  (forall i x y, nth_error l i = Some x -> nth_error m i = Some y ->
     exists z, f x y = Ret z) ->
  exists r, zipM f l m = Ret r.
Proof.
  intros A B C f l. induction l as [|x t IH]; intros [|y m] Hlen Hall;
    simpl in Hlen; try discriminate.
  - exists []. reflexivity.
  - destruct (Hall 0%nat x y eq_refl eq_refl) as (z & Hz).
    destruct (IH m) as (r & Hr); [congruence | |].
    { intros i x' y' Hx Hy. apply (Hall (S i) x' y' Hx Hy). }
    exists (z :: r). simpl. rewrite Hz, Hr. reflexivity.
Qed.

Lemma foldM_invariant : forall {A S : Type} (P : S -> Prop)
  (f : S -> A -> res S) (l : list A) (s s' : S),
  (forall st x st', In x l -> P st -> f st x = Ret st' -> P st') ->
  P s -> foldM f l s = Ret s' -> P s'.
Proof.
  intros A S P f l. induction l as [|x t IH]; intros s s' Hstep Hs H; simpl in H.
  - inversion H. subst. exact Hs.
  - bind_inv H. apply (IH a s'); auto.
    + intros st y st' Hy. apply Hstep. right. exact Hy.
    + apply (Hstep s x a); auto. left. reflexivity.
Qed.

(** ** C5: the packed leading node and weight *)

Lemma prev_weight_of_ret :
  forall self agent first rest_path prev ticks sd w0 ws,
    nth_error (last_nodes self) agent = Some (prev, ticks) ->
    nth_error (speed_data self) agent = Some sd ->
    nth_error (_shortest_cum_weights self) agent = Some (w0 :: ws) ->
    prev_weight_of self (map fst (last_nodes self)) agent (first :: rest_path)
    = Ret (if node_eqb first prev
           then w0
           else (- inject_Z (ticks + times sd - remaining sd))%Q).
Proof.
  intros self agent first rest_path prev ticks sd w0 ws Hln Hsd Hcw.
  unfold prev_weight_of, item2, item. simpl.
  rewrite nth_error_map, Hln. simpl.
  destruct (node_eqb first prev); simpl.
  - rewrite Hcw. reflexivity.
  - rewrite Hsd. reflexivity.
Qed.

(** C5: in the packed arrays the leading position of every agent is the
    position of its last visited node; the leading weight is
    -(ticks since that node + times - remaining) when the path starts at
    another node and the first cumulative weight when it starts at that
    node (the leading position is then the one of the path); nothing else
    changes. *)
Theorem packed_leading_entry :
  forall self,
    length (last_nodes self) = length (_shortest_paths self) ->
    length (speed_data self) = length (_shortest_paths self) ->
    length (_shortest_positions self) = length (_shortest_paths self) ->
    length (_shortest_cum_weights self) = length (_shortest_paths self) ->
    Forall (fun row => row <> []) (_shortest_paths self) ->
    Forall (fun row => row <> []) (_shortest_cum_weights self) ->
    exists packed_positions packed_weights,
      _get_shortest_packed_positions self = Ret (packed_positions, packed_weights)
      /\ forall agent first rest_path prev ticks sd p0 ps w0 ws,
           nth_error (_shortest_paths self) agent = Some (first :: rest_path) ->
           nth_error (last_nodes self) agent = Some (prev, ticks) ->
           nth_error (speed_data self) agent = Some sd ->
           nth_error (_shortest_positions self) agent = Some (p0 :: ps) ->
           nth_error (_shortest_cum_weights self) agent = Some (w0 :: ws) ->
           nth_error packed_positions agent = Some (node_pos prev :: ps)
           /\ exists w,
                nth_error packed_weights agent = Some (w :: ws)
                /\ (first <> prev ->
                    w = (- inject_Z (ticks + times sd - remaining sd))%Q)
                /\ (first = prev -> w = w0 /\ node_pos prev = node_pos first).
Proof.
  intros self Hln Hsd Hpos Hcw Hpaths Hweights.
  unfold _get_shortest_packed_positions.
  (* the leading weights *)
  destruct (mapM_spec
              (fun ap => prev_weight_of self (map fst (last_nodes self))
                                        (fst ap) (snd ap))
              (enumerate (_shortest_paths self)))
    as (prev_weights & Hpw & Hpwlen & Hpwnth).
  { intros i [agent path] Hi. rewrite nth_error_enumerate in Hi.
    destruct (nth_error (_shortest_paths self) i) as [row|] eqn:Erow;
      [|discriminate].
    simpl in Hi. inversion Hi. subst agent path. simpl.
    assert (Hlt : (i < length (_shortest_paths self))%nat)
      by (apply nth_error_Some; congruence).
    destruct row as [|first rest_path].
    { rewrite Forall_forall in Hpaths.
      exfalso. apply (Hpaths [] (nth_error_In _ _ Erow)). reflexivity. }
    destruct (nth_error (last_nodes self) i) as [[prev ticks]|] eqn:Eln;
      [|apply nth_error_None in Eln; lia].
    destruct (nth_error (speed_data self) i) as [sd|] eqn:Esd;
      [|apply nth_error_None in Esd; lia].
    destruct (nth_error (_shortest_cum_weights self) i) as [[|w0 ws]|] eqn:Ecw;
      [| |apply nth_error_None in Ecw; lia].
    { rewrite Forall_forall in Hweights.
      exfalso. apply (Hweights [] (nth_error_In _ _ Ecw)). reflexivity. }
    rewrite (prev_weight_of_ret _ _ _ _ _ _ _ _ _ Eln Esd Ecw). eauto. }
  (* the two stacked arrays *)
  unfold enumerate in Hpwlen. rewrite length_combine, length_seq, Nat.min_id in Hpwlen.
  destruct (zipM_spec (fun (x : Pos) row => Ret (x :: row))
              (map node_pos (map fst (last_nodes self)))
              (map (skipn 1) (_shortest_positions self)))
    as (packed_positions & Hpp).
  { rewrite !length_map. congruence. }
  { intros; eauto. }
  destruct (zipM_spec (fun (x : Q) row => Ret (x :: row))
              prev_weights
              (map (skipn 1) (_shortest_cum_weights self)))
    as (packed_weights & Hpwt).
  { rewrite !length_map. congruence. }
  { intros; eauto. }
  unfold hstack_col. rewrite Hpw. cbn [bind].
  rewrite Hpp. cbn [bind]. rewrite Hpwt. cbn [bind].
  exists packed_positions, packed_weights. split; [reflexivity|].
  intros agent first rest_path prev ticks sd p0 ps w0 ws
         Epath Eln Esd Epos Ecw.
  split.
  - destruct (zipM_ret _ _ _ _ Hpp) as (_ & _ & Hnth).
    destruct (Hnth agent (node_pos prev) ps) as (z & Hz & Hres).
    { rewrite !nth_error_map, Eln. reflexivity. }
    { rewrite nth_error_map, Epos. reflexivity. }
    inversion Hz. subst z. exact Hres.
  - destruct (Hpwnth agent (agent, first :: rest_path)) as (w & Hw & Hwnth).
    { rewrite nth_error_enumerate, Epath. reflexivity. }
    simpl in Hw.
    rewrite (prev_weight_of_ret _ _ _ _ _ _ _ _ _ Eln Esd Ecw) in Hw.
    inversion Hw as [Hweq]. clear Hw.
    destruct (zipM_ret _ _ _ _ Hpwt) as (_ & _ & Hnth).
    destruct (Hnth agent w ws) as (z & Hz & Hres).
    { exact Hwnth. }
    { rewrite nth_error_map, Ecw. reflexivity. }
    inversion Hz. subst z.
    exists w. split; [exact Hres|]. subst w. split.
    + intro Hneq. apply node_eqb_neq in Hneq. rewrite Hneq. reflexivity.
    + intro Heq. subst prev.
      assert (E : node_eqb first first = true) by (apply node_eqb_eq; reflexivity).
      rewrite E. auto.
Qed.

Lemma packed_leading_entry_witness :
  exists packed_positions packed_weights,
    _get_shortest_packed_positions at_tick = Ret (packed_positions, packed_weights)
    /\ nth_error packed_positions 1 = Some [(0, 9); (0, 6); (0, 3); (0, 0)]
    /\ exists w,
         nth_error packed_weights 1 = Some [w; 1; 4; 7]%Q
         /\ (west 7 <> west 9 -> w = (- inject_Z (2 + 1 - 0))%Q).
Proof.
  destruct (packed_leading_entry at_tick)
    as (packed_positions & packed_weights & Hret & Hrows);
    try reflexivity.
  - repeat constructor; discriminate.
  - repeat constructor; discriminate.
  - exists packed_positions, packed_weights. split; [exact Hret|].
    destruct (Hrows 1%nat (west 7) [west 6; west 3; west 0] (west 9) 2
                {| times := 1; remaining := 0 |}
                (0, 7) [(0, 6); (0, 3); (0, 0)] 0%Q [1; 4; 7]%Q)
      as (Hp & w & Hw & Hneq & _); try reflexivity.
    split; [exact Hp|]. exists w. split; [exact Hw | exact Hneq].
Defined.

(** ** Counters *)

Lemma nth_upd_at : forall {A : Type} (f : A -> A) (l : list A) (i k : nat) (d : A),
  nth k (upd_at i f l) d =
    if ((k =? i) && (k <? length l))%nat then f (nth k l d) else nth k l d.
Proof.
  intros A f l. induction l as [|x t IH]; intros [|i] [|k] d; simpl;
    rewrite ?andb_false_r, ?IH; reflexivity.
Qed.

Lemma nth_map_range : forall {A : Type} (f : A -> A) (l : list A) (lo hi k : nat) (d : A),
  nth k (map_range lo hi f l) d =
    if ((lo <=? k) && (k <? hi) && (k <? length l))%nat
    then f (nth k l d)
    else nth k l d.
Proof.
  intros A f l. induction l as [|x t IH]; intros lo hi k d; simpl.
  - destruct k; rewrite andb_false_r; reflexivity.
  - destruct k as [|k].
    + destruct lo as [|lo], hi as [|hi]; reflexivity.
    + rewrite IH. destruct lo as [|lo], hi as [|hi]; reflexivity.
Qed.

Lemma nth_row_add_slice_col : forall lo hi c a k,
  nth k (add_slice_col lo hi c a) [] =
    if in_slice lo hi k
    then upd_at c (fun x => x + 1) (nth k a [])
    else nth k a [].
Proof.
  intros lo hi c a k. unfold add_slice_col, in_slice. rewrite nth_map_range.
  destruct ((lo <=? k) && (k <? hi))%nat; simpl; [|reflexivity].
  destruct (k <? length a)%nat eqn:E; [reflexivity|].
  apply Nat.ltb_ge in E. rewrite (nth_overflow a [] E). destruct c; reflexivity.
Qed.

Lemma present_add_slice_col : forall lo hi c a k c',
  present (add_slice_col lo hi c a) k c' = present a k c'.
Proof.
  intros. unfold present. rewrite nth_row_add_slice_col.
  destruct (in_slice lo hi k); [|reflexivity].
  rewrite length_upd_at. reflexivity.
Qed.

Lemma cell_add_slice_col : forall lo hi c a k c',
  cell (add_slice_col lo hi c a) k c' =
    cell a k c' + (if in_slice lo hi k && (c' =? c)%nat && present a k c'
                   then 1 else 0).
Proof.
  intros. unfold cell, present. rewrite nth_row_add_slice_col.
  destruct (in_slice lo hi k); simpl; [|lia].
  rewrite nth_upd_at.
  destruct ((c' =? c)%nat && (c' <? length (nth k a []))%nat); lia.
Qed.

Lemma present_count_agent : forall index len direction m a k c,
  present (count_agent index len direction m a) k c = present a k c.
Proof.
  intros. unfold count_agent.
  destruct (0 <? m); rewrite ?present_add_slice_col; reflexivity.
Qed.

Lemma cell_count_agent : forall index len direction m a k c,
  cell (count_agent index len direction m a) k c =
    cell a k c
    + (if in_slice index len k && (c =? direction)%nat && present a k c
       then 1 else 0)
    + (if (0 <? m) && in_slice index len k && (c =? direction + 2)%nat
          && present a k c
       then 1 else 0).
Proof.
  intros. unfold count_agent.
  destruct (0 <? m); simpl.
  - rewrite !cell_add_slice_col, present_add_slice_col. lia.
  - rewrite cell_add_slice_col. lia.
Qed.

Lemma present_below : forall a k c c',
  (c <= c')%nat -> present a k c' = true -> present a k c = true.
Proof.
  intros a k c c' Hle H. unfold present in *.
  apply Nat.ltb_lt in H. apply Nat.ltb_lt. lia.
Qed.

Lemma cell_np_full : forall depth row k c,
  cell (np_full depth row) k c = if (k <? depth)%nat then nth c row 0 else 0.
Proof.
  intros depth row k c. unfold cell, np_full.
  destruct (k <? depth)%nat eqn:E.
  - apply Nat.ltb_lt in E.
    rewrite (nth_error_nth _ _ _ (nth_error_repeat_lt row depth k E)). reflexivity.
  - apply Nat.ltb_ge in E.
    rewrite (nth_overflow (repeat row depth) [])
      by (rewrite repeat_length; lia).
    destruct c; reflexivity.
Qed.

Lemma nth_column : forall {A : Type} (d : A) (c : nat) (a : list (list A)) (k : nat),
  nth k (column d c a) d = nth c (nth k a []) d.
Proof.
  intros A d c a k. unfold column.
  destruct c as [|c].
  - exact (map_nth (fun row => nth 0 row d) a [] k).
  - exact (map_nth (fun row => nth (S c) row d) a [] k).
Qed.

Lemma nth_np_transpose : forall {A : Type} (d : A) (w : nat) (a : list (list A)) (c : nat),
  (c < w)%nat -> nth c (np_transpose d w a) [] = column d c a.
Proof.
  intros A d w a c H. unfold np_transpose.
  rewrite (nth_indep _ [] (column d 0 a)) by (rewrite length_map, length_seq; exact H).
  rewrite (map_nth (fun c => column d c a) (seq 0 w) 0%nat c).
  rewrite seq_nth by exact H. reflexivity.
Qed.

Lemma cell_np_transpose : forall (w : nat) (a : list (list Z)) (c k : nat),
  (c < w)%nat -> nth k (nth c (np_transpose 0 w a) []) 0 = cell a k c.
Proof.
  intros w a c k H. rewrite (nth_np_transpose 0 w a c H).
  apply nth_column.
Qed.

(** ** One iteration of the conflict detector *)

(** An iteration leaves the arrays alone or counts one agent; it does not
    read [num_agents]. *)
Lemma agents_in_path_step_inv :
  forall g u agents self handle path cum_weights agent na ds ms na' ds' ms',
    agents_in_path_step g u agents self handle path cum_weights
      (na, ds, ms) agent = Ret (na', ds', ms') ->
    (na' = na /\ ds' = ds /\ ms' = ms
     /\ forall na2,
          agents_in_path_step g u agents self handle path cum_weights
            (na2, ds, ms) agent = Ret (na2, ds, ms))
    \/ (exists index direction m,
          (direction = 0 \/ direction = 1)%nat
          /\ na' = count_agent index (length path) direction m na
          /\ forall na2,
               agents_in_path_step g u agents self handle path cum_weights
                 (na2, ds, ms) agent
               = Ret (count_agent index (length path) direction m na2, ds', ms')).
Proof.
  intros g u agents self handle path cum_weights agent na ds ms na' ds' ms' H.
  unfold agents_in_path_step in H.
  destruct (get_agent_cell g agent) as [position|] eqn:Ecell.
  2:{ inversion H. subst. left. repeat split.
      intro na2. unfold agents_in_path_step. rewrite Ecell. reflexivity. }
  destruct (next_node g position) as [node next_node_distance] eqn:Enext.
  destruct (first_match u path (get_nodes g (node_pos node)))
    as [[other_node index]|] eqn:Ematch.
  2:{ inversion H. subst. left. repeat split.
      intro na2. unfold agents_in_path_step.
      rewrite Ecell, Enext, Ematch. reflexivity. }
  right.
  apply bind_ret in H. destruct H as (cw & Ecw & H).
  apply bind_ret in H. destruct H as (me & Eme & H).
  apply bind_ret in H. destruct H as (other & Eother & H).
  apply bind_ret in H. destruct H as (stored & Estored & H).
  apply bind_ret in H. destruct H as (a & Ea & H).
  apply bind_ret in H. destruct H as (worst & Eworst & H).
  exists index, (direction_of path node other_node (successors g node) index),
         (malfunction a).
  split.
  { destruct (direction_of_cases path node other_node (successors g node) index);
      auto. }
  assert (Hall : forall na2,
            agents_in_path_step g u agents self handle path cum_weights
              (na2, ds, ms) agent
            = Ret (count_agent index (length path)
                     (direction_of path node other_node (successors g node) index)
                     (malfunction a) na2, ds', ms')).
  { intro na2.
    rewrite (agents_in_path_step_match g u agents self handle path cum_weights
               agent na2 ds ms position node next_node_distance other_node index
               cw me other stored a worst
               Ecell Enext Ematch Ecw Eme Eother Ea Estored Eworst).
    inversion H. reflexivity. }
  split; [|exact Hall].
  inversion H. reflexivity.
Qed.

(** ** C10: malfunctioning agents are counted agents *)

Lemma counts_consistent_zero : forall depth,
  counts_consistent (np_full depth (np_full 4 0)).
Proof.
  intros depth k. rewrite !cell_np_full.
  destruct (k <? depth)%nat; simpl; lia.
Qed.

Lemma counts_consistent_count_agent : forall index len direction m na,
  (direction = 0 \/ direction = 1)%nat ->
  counts_consistent na ->
  counts_consistent (count_agent index len direction m na).
Proof.
  intros index len direction m na Hdir Hna k.
  specialize (Hna k). rewrite !cell_count_agent.
  pose proof (present_below na k 0 2 ltac:(lia)) as H02.
  pose proof (present_below na k 1 3 ltac:(lia)) as H13.
  destruct Hdir; subst direction; simpl;
    destruct (0 <? m); destruct (in_slice index len k); simpl;
    destruct (present na k 0) eqn:P0; destruct (present na k 1) eqn:P1;
    destruct (present na k 2) eqn:P2; destruct (present na k 3) eqn:P3;
    try (specialize (H02 eq_refl); discriminate);
    try (specialize (H13 eq_refl); discriminate);
    lia.
Qed.

Lemma agents_in_path_ret :
  forall g u agents self handle path cum_weights prev num_agents distances malfunctions,
    agents_in_path g u agents self handle path cum_weights prev
      = Ret (num_agents, distances, malfunctions) ->
    exists na ds ms,
      agents_in_path_loop g u agents self handle path cum_weights prev
        = Ret (na, ds, ms)
      /\ num_agents = np_transpose 0 4 na
      /\ distances = np_transpose PInf 2 ds
      /\ malfunctions = np_transpose 0 2 ms.
Proof.
  intros g u agents self handle path cum_weights prev num_agents distances
         malfunctions H.
  unfold agents_in_path in H. bind_inv H.
  destruct a as [[na ds] ms]. inversion H. subst.
  exists na, ds, ms. auto.
Qed.

(** C10: without seeding, at every node the malfunctioning agents of a
    direction (channels 3 and 4) are at most the agents counted in that
    direction (channels 1 and 2). *)
Theorem malfunctioning_at_most_counted :
  forall g u agents self handle path cum_weights num_agents distances malfunctions,
    agents_in_path g u agents self handle path cum_weights None
      = Ret (num_agents, distances, malfunctions) ->
    forall k,
      0 <= nth k (nth 2 num_agents []) 0 <= nth k (nth 0 num_agents []) 0
      /\ 0 <= nth k (nth 3 num_agents []) 0 <= nth k (nth 1 num_agents []) 0.
Proof.
  intros g u agents self handle path cum_weights num_agents distances
         malfunctions H k.
  destruct (agents_in_path_ret _ _ _ _ _ _ _ _ _ _ _ H)
    as (na & ds & ms & Hloop & Hna & _ & _).
  subst num_agents. rewrite !cell_np_transpose by lia.
  unfold agents_in_path_loop in Hloop. simpl in Hloop.
  bind_inv Hloop.
  assert (Hinv : (fun st : path_arrays => counts_consistent (fst (fst st)))
                   (na, ds, ms)).
  { eapply (foldM_invariant
              (fun st : path_arrays => counts_consistent (fst (fst st))));
      [| |exact Hloop].
    - intros [[na1 ds1] ms1] agent [[na2 ds2] ms2] _ Hst Hstep. simpl in *.
      destruct (agents_in_path_step_inv _ _ _ _ _ _ _ _ _ _ _ _ _ _ Hstep)
        as [(-> & _) | (index & direction & m & Hdir & -> & _)].
      + exact Hst.
      + apply counts_consistent_count_agent; assumption.
    - simpl. apply counts_consistent_zero. }
  exact (Hinv k).
Qed.

Lemma malfunctioning_at_most_counted_witness :
  agents_in_path track utils_model trains at_tick 0 (path east_shortest)
    [0; 3; 6; 9]%Q None = Ret east_conflicts
  /\ nth 2 (nth 3 (fst (fst east_conflicts)) []) 0 = 1
  /\ forall k,
       0 <= nth k (nth 2 (fst (fst east_conflicts)) []) 0
         <= nth k (nth 0 (fst (fst east_conflicts)) []) 0
       /\ 0 <= nth k (nth 3 (fst (fst east_conflicts)) []) 0
            <= nth k (nth 1 (fst (fst east_conflicts)) []) 0.
Proof.
  assert (E : agents_in_path track utils_model trains at_tick 0
                (path east_shortest) [0; 3; 6; 9]%Q None
              = Ret (fst (fst east_conflicts), snd (fst east_conflicts),
                     snd east_conflicts))
    by (vm_compute; reflexivity).
  split; [vm_compute; reflexivity | split; [vm_compute; reflexivity|]].
  exact (malfunctioning_at_most_counted _ _ _ _ _ _ _ _ _ _ E).
Defined.

(** ** C9: route popularity *)

Lemma isin_In : forall (row : list Pos) (p : Pos), isin row p = true <-> In p row.
Proof.
  intros row p. unfold isin. rewrite existsb_exists. split.
  - intros (x & Hx & E). apply pos_eqb_eq in E. subst. exact Hx.
  - intro H. exists p. split; [exact H | apply pos_eqb_eq; reflexivity].
Qed.

Lemma sharing_cons : forall rows a others p,
  sharing rows (a :: others) p =
    (if isin (nth a rows []) p then 1 else 0) + sharing rows others p.
Proof.
  intros rows a others p. unfold sharing. simpl.
  destruct (isin (nth a rows []) p); simpl length; lia.
Qed.

Lemma common_nodes_fold : forall self positions others computed r,
  foldM (fun computed row =>
           shortest <- item (_shortest_positions self) row ;;
           zipM (fun c p => Ret (c + (if isin shortest p then 1 else 0)))
                computed positions)
        others computed = Ret r ->
  length computed = length positions ->
  length r = length positions
  /\ forall k p,
       nth_error positions k = Some p ->
       exists v,
         nth_error computed k = Some v
         /\ nth_error r k =
              Some (v + sharing (_shortest_positions self) others p).
Proof.
  intros self positions others. induction others as [|row rest IH];
    intros computed r H Hlen; simpl in H.
  - inversion H. subst r. split; [exact Hlen|].
    intros k p Hp.
    destruct (nth_error computed k) as [v|] eqn:Ev.
    + exists v. split; [reflexivity|]. unfold sharing. simpl. f_equal. lia.
    + apply nth_error_None in Ev.
      assert (k < length positions)%nat by (apply nth_error_Some; congruence).
      lia.
  - apply bind_ret in H. destruct H as (computed' & Estep & H).
    apply bind_ret in Estep. destruct Estep as (shortest & Eshort & Ezip).
    destruct (zipM_ret _ _ _ _ Ezip) as (_ & Hlen' & Hnth).
    destruct (IH computed' r H) as (Hr & Hrest); [congruence|].
    split; [exact Hr|].
    intros k p Hp.
    destruct (Hrest k p Hp) as (v' & Hv' & Hrk).
    destruct (nth_error computed k) as [v|] eqn:Ev.
    2:{ apply nth_error_None in Ev.
        assert (k < length positions)%nat by (apply nth_error_Some; congruence).
        lia. }
    destruct (Hnth k v p Ev Hp) as (z & Hz & Hzk).
    inversion Hz. subst z. rewrite Hzk in Hv'. inversion Hv'. subst v'.
    exists v. split; [reflexivity|].
    rewrite Hrk, sharing_cons.
    apply item_ret in Eshort. rewrite (nth_error_nth _ _ [] Eshort).
    f_equal. lia.
Qed.

Lemma common_nodes_fold_returns : forall self positions others computed,
  Forall (fun a => (a < length (_shortest_positions self))%nat) others ->
  length computed = length positions ->
  exists r,
    foldM (fun computed row =>
             shortest <- item (_shortest_positions self) row ;;
             zipM (fun c p => Ret (c + (if isin shortest p then 1 else 0)))
                  computed positions)
          others computed = Ret r.
Proof.
  intros self positions others. induction others as [|row rest IH];
    intros computed Hall Hlen; simpl.
  - eauto.
  - inversion Hall as [|? ? Hrow Hrest]. subst.
    destruct (item_lt _ _ Hrow) as (shortest & Eshort). rewrite Eshort. simpl.
    destruct (zipM_spec
                (fun c p => Ret (c + (if isin shortest p then 1 else 0)))
                computed positions Hlen) as (computed' & Ezip).
    { intros; eauto. }
    rewrite Ezip. simpl. apply IH; [exact Hrest|].
    destruct (zipM_ret _ _ _ _ Ezip) as (_ & Hl & _). congruence.
Qed.

(** C9 (amended): the popularity of each position of the path is the
    number of other agents whose row of [_shortest_positions] (the
    shortest path as predicted, its leading entry not rewritten to the
    last visited node) holds that position; the entries past the path
    stay 0. *)
Theorem popularity_counts_shortest_rows :
  forall self handle positions others,
    nth_error (other_agents self) handle = Some others ->
    Forall (fun a => (a < length (_shortest_positions self))%nat) others ->
    (length positions <= max_depth self)%nat ->
    exists c_nodes,
      common_nodes self handle positions = Ret c_nodes
      /\ length c_nodes = max_depth self
      /\ (forall k p,
            nth_error positions k = Some p ->
            nth_error c_nodes k =
              Some (sharing (_shortest_positions self) others p))
      /\ (forall k,
            (length positions <= k < max_depth self)%nat ->
            nth_error c_nodes k = Some 0)
      /\ (forall row p, isin row p = true <-> In p row).
Proof.
  intros self handle positions others Hothers Hrows Hlen.
  unfold common_nodes.
  destruct (0 <? length positions)%nat eqn:Hne.
  - apply item_ret in Hothers. rewrite Hothers. cbn [bind].
    destruct (common_nodes_fold_returns self positions others
                (np_full (length positions) 0) Hrows)
      as (computed & Hfold).
    { apply repeat_length. }
    rewrite Hfold. cbn [bind].
    destruct (common_nodes_fold _ _ _ _ _ Hfold) as (Hclen & Hcnth).
    { apply repeat_length. }
    unfold fill_prefix, np_full. rewrite repeat_length, Hclen.
    apply Nat.leb_le in Hlen. rewrite Hlen. apply Nat.leb_le in Hlen.
    eexists. split; [reflexivity|]. split; [|split; [|split]].
    + rewrite length_app, length_skipn, repeat_length. lia.
    + intros k p Hp. destruct (Hcnth k p Hp) as (v & Hv & Hk).
      rewrite nth_error_app1
        by (rewrite Hclen; apply nth_error_Some; congruence).
      rewrite Hk. f_equal. unfold np_full in Hv.
      rewrite nth_error_repeat_lt in Hv
        by (apply nth_error_Some; congruence).
      inversion Hv. lia.
    + intros k Hk. rewrite nth_error_app2 by lia.
      rewrite nth_error_skipn. apply nth_error_repeat_lt. lia.
    + apply isin_In.
  - apply Nat.ltb_ge in Hne.
    exists (np_full (max_depth self) 0). split; [reflexivity|].
    split; [apply repeat_length | split; [|split]].
    + intros k p Hp.
      assert (k < length positions)%nat by (apply nth_error_Some; congruence).
      lia.
    + intros k Hk. apply nth_error_repeat_lt. lia.
    + apply isin_In.
Qed.

Lemma popularity_counts_shortest_rows_witness :
  exists c_nodes,
    common_nodes at_tick 0 [(0, 0); (0, 3); (0, 6); (0, 9)] = Ret c_nodes
    /\ nth_error c_nodes 2 =
         Some (sharing (_shortest_positions at_tick) [1%nat] (0, 6)).
Proof.
  destruct (popularity_counts_shortest_rows at_tick 0
              [(0, 0); (0, 3); (0, 6); (0, 9)] [1%nat])
    as (c_nodes & Hret & _ & Hnth & _).
  - reflexivity.
  - repeat constructor.
  - simpl. lia.
  - exists c_nodes. split; [exact Hret|]. apply Hnth. reflexivity.
Defined.

(** C9 (as stated) fails: train 1 left the node at (0,9), the leading
    entry of its packed path, but its shortest path starts in the cell
    (0,7); the position (0,9) of the path of train 0 gets popularity 0,
    while one other agent has it in its packed path. *)
Lemma popularity_ignores_packed_node :
  _get_shortest_packed_positions at_tick = Ret packed_at_tick
  /\ common_nodes at_tick 0 [(0, 0); (0, 3); (0, 6); (0, 9)] = Ret [1; 1; 1; 0]
  /\ nth_error (fst packed_at_tick) 1 = Some [(0, 9); (0, 6); (0, 3); (0, 0)]
  /\ sharing (fst packed_at_tick) [1%nat] (0, 9) = 1
  /\ sharing (_shortest_positions at_tick) [1%nat] (0, 9) = 0.
Proof.
  repeat split; vm_compute; reflexivity.
Qed.

(** ** Loops with a break *)

Lemma for_break_seq : forall {A : Type} (body : nat -> res (option A)) (n s : nat),
  (forall i, (s <= i < s + n)%nat -> exists r, body i = Ret r) ->
  exists r,
    for_break body (seq s n) = Ret r
    /\ match r with
       | Some a =>
           exists i, (s <= i < s + n)%nat
                     /\ body i = Ret (Some a)
                     /\ forall i', (s <= i' < i)%nat -> body i' = Ret None
       | None => forall i, (s <= i < s + n)%nat -> body i = Ret None
       end.
Proof.
  intros A body n. induction n as [|n IH]; intros s Hall; simpl.
  - exists None. split; [reflexivity|]. intros i Hi. lia.
  - destruct (Hall s ltac:(lia)) as ([a|] & Hs); rewrite Hs; simpl.
    + exists (Some a). split; [reflexivity|].
      exists s. split; [lia|]. split; [exact Hs|]. intros i' Hi'. lia.
    + destruct (IH (S s)) as (r & Hr & Hspec).
      { intros i Hi. apply Hall. lia. }
      exists r. split; [exact Hr|].
      destruct r as [a|].
      * destruct Hspec as (i & Hi & Hbody & Hbefore).
        exists i. split; [lia|]. split; [exact Hbody|].
        intros i' Hi'. destruct (Nat.eq_dec i' s) as [->|Hne]; [exact Hs|].
        apply Hbefore. lia.
      * intros i Hi. destruct (Nat.eq_dec i s) as [->|Hne]; [exact Hs|].
        apply Hspec. lia.
Qed.

(** ** C6: which pair of edges is flagged *)

Section Scan.

Variables (positions : list Pos) (cum_weights : list Q).
Variables (agent_path : list Pos) (packed_weights : list (list Q)).
Variables (agent : nat) (other_weights : list Q).

Hypothesis real_cells : Forall (fun p => p <> pad_pos) positions.
Hypothesis weights_cover : (length positions <= length cum_weights)%nat.
Hypothesis other_row : nth_error packed_weights agent = Some other_weights.
Hypothesis other_cover : (length agent_path <= length other_weights)%nat.

Local Notation "'flagged'" :=
  (reverse_overlap positions cum_weights agent_path other_weights).

Lemma deadlock_found_at_spec : forall i j,
  (S j < length positions)%nat ->
  (S i < length agent_path)%nat ->
  exists b,
    deadlock_found_at positions cum_weights agent_path packed_weights agent i j
      = Ret b
    /\ (b = true <-> flagged i j).
Proof.
  intros i j Hj Hi. unfold reverse_overlap.
  unfold deadlock_found_at, item2, item. rewrite !Nat.add_1_r.
  destruct (nth_error positions j) as [source|] eqn:E1;
    [|apply nth_error_None in E1; lia].
  destruct (nth_error positions (S j)) as [dest|] eqn:E2;
    [|apply nth_error_None in E2; lia].
  destruct (nth_error agent_path (S i)) as [other_dest|] eqn:E3;
    [|apply nth_error_None in E3; lia].
  destruct (nth_error agent_path i) as [other_source|] eqn:E4;
    [|apply nth_error_None in E4; lia].
  destruct (nth_error cum_weights j) as [mine_in|] eqn:E5;
    [|apply nth_error_None in E5; lia].
  destruct (nth_error cum_weights (S j)) as [mine_out|] eqn:E6;
    [|apply nth_error_None in E6; lia].
  rewrite other_row. cbn [bind].
  destruct (nth_error other_weights (S i)) as [other_out|] eqn:E7;
    [|apply nth_error_None in E7; lia].
  destruct (nth_error other_weights i) as [other_in|] eqn:E8;
    [|apply nth_error_None in E8; lia].
  cbn [bind].
  destruct (Qltb other_out mine_in) eqn:Eout; cbn [bind].
  - apply Qltb_lt in Eout. eexists. split; [reflexivity|].
    rewrite andb_false_r. split; [discriminate|].
    intros (s & d & os & od & mi & mo & oi & oo
            & H1 & H2 & H3 & H4 & H5 & H6 & H7 & H8 & _ & _ & Hn & _).
    exfalso. apply Hn. congruence.
  - apply Qltb_ge in Eout. eexists. split; [reflexivity|].
    rewrite !andb_true_iff, negb_true_iff, !pos_eqb_eq, Qltb_ge. split.
    + intros [[Hs Hd] Hin].
      exists source, dest, other_source, other_dest,
             mine_in, mine_out, other_in, other_out.
      repeat split; auto; apply Qle_not_lt; assumption.
    + intros (s & d & os & od & mi & mo & oi & oo
              & H1 & H2 & H3 & H4 & H5 & H6 & H7 & H8 & Hs & Hd & _ & Hn).
      inversion H1; inversion H2; inversion H3; inversion H4.
      inversion H5; inversion H6; inversion H7; inversion H8. subst.
      repeat split; auto. apply Qnot_lt_le. exact Hn.
Qed.

Lemma flagged_in_range : forall i j,
  flagged i j -> (S j < length positions)%nat /\ (S i < length agent_path)%nat.
Proof.
  intros i j (s & d & os & od & mi & mo & oi & oo
              & _ & H2 & _ & H4 & _).
  split; apply nth_error_Some; congruence.
Qed.

Lemma flagged_not_padding : forall i j other_source other_dest,
  flagged i j ->
  nth_error agent_path i = Some other_source ->
  nth_error agent_path (S i) = Some other_dest ->
  other_source <> pad_pos /\ other_dest <> pad_pos.
Proof.
  intros i j other_source other_dest
         (s & d & os & od & mi & mo & oi & oo
          & H1 & H2 & H3 & H4 & _ & _ & _ & _ & Hs & Hd & _) Hos Hod.
  rewrite Forall_forall in real_cells.
  pose proof (real_cells _ (nth_error_In _ _ H1)).
  pose proof (real_cells _ (nth_error_In _ _ H2)).
  split; congruence.
Qed.

(** The inner loop, for a fixed edge of the other agent. *)
Lemma scan_this_path : forall i,
  (S i < length agent_path)%nat ->
  exists r,
    for_break
      (fun j =>
         deadlock_found <-
           deadlock_found_at positions cum_weights agent_path
                             packed_weights agent i j ;;
         Ret (if deadlock_found then Some (i, j) else None))
      (range (length positions - 1)) = Ret r
    /\ match r with
       | Some (i', j) =>
           i' = i /\ flagged i j /\ forall j', (j' < j)%nat -> ~ flagged i j'
       | None => forall j, ~ flagged i j
       end.
Proof.
  intros i Hi. unfold range.
  destruct (for_break_seq
              (fun j =>
                 deadlock_found <-
                   deadlock_found_at positions cum_weights agent_path
                                     packed_weights agent i j ;;
                 Ret (if deadlock_found then Some (i, j) else None))
              (length positions - 1) 0) as (r & Hr & Hspec).
  { intros j Hj.
    destruct (deadlock_found_at_spec i j ltac:(lia) Hi) as (b & Hb & _).
    rewrite Hb. cbn [bind]. eauto. }
  exists r. split; [exact Hr|].
  destruct r as [[i' j]|].
  - destruct Hspec as (j0 & Hj0 & Hbody & Hbefore).
    destruct (deadlock_found_at_spec i j0 ltac:(lia) Hi) as (b & Hb & Hiff).
    rewrite Hb in Hbody. cbn [bind] in Hbody.
    destruct b; inversion Hbody. subst i' j0.
    split; [reflexivity|]. split; [apply Hiff; reflexivity|].
    intros j' Hj' Hflag.
    specialize (Hbefore j' ltac:(lia)).
    destruct (deadlock_found_at_spec i j' ltac:(lia) Hi) as (b' & Hb' & Hiff').
    rewrite Hb' in Hbefore. cbn [bind] in Hbefore.
    apply Hiff' in Hflag. subst b'. discriminate.
  - intros j Hflag.
    destruct (flagged_in_range i j Hflag) as [Hj _].
    specialize (Hspec j ltac:(lia)).
    destruct (deadlock_found_at_spec i j Hj Hi) as (b & Hb & Hiff).
    rewrite Hb in Hspec. cbn [bind] in Hspec.
    apply Hiff in Hflag. subst b. discriminate.
Qed.

(** The body of the outer loop. *)
Lemma scan_other_edge : forall i,
  (S i < length agent_path)%nat ->
  exists r,
    (a0 <- item agent_path i ;;
     a1 <- item agent_path (i + 1) ;;
     if negb (pos_eqb a0 pad_pos) && negb (pos_eqb a1 pad_pos)
     then
       for_break
         (fun j =>
            deadlock_found <-
              deadlock_found_at positions cum_weights agent_path
                                packed_weights agent i j ;;
            Ret (if deadlock_found then Some (i, j) else None))
         (range (length positions - 1))
     else Ret None) = Ret r
    /\ match r with
       | Some (i', j) =>
           i' = i /\ flagged i j /\ forall j', (j' < j)%nat -> ~ flagged i j'
       | None => forall j, ~ flagged i j
       end.
Proof.
  intros i Hi. unfold item. rewrite Nat.add_1_r.
  destruct (nth_error agent_path i) as [a0|] eqn:E0;
    [|apply nth_error_None in E0; lia].
  destruct (nth_error agent_path (S i)) as [a1|] eqn:E1;
    [|apply nth_error_None in E1; lia].
  cbn [bind].
  destruct (negb (pos_eqb a0 pad_pos) && negb (pos_eqb a1 pad_pos)) eqn:G.
  - apply scan_this_path. exact Hi.
  - exists None. split; [reflexivity|]. intros j Hflag.
    destruct (flagged_not_padding i j a0 a1 Hflag E0 E1) as [H0 H1].
    apply pos_eqb_neq in H0. apply pos_eqb_neq in H1.
    rewrite H0, H1 in G. discriminate.
Qed.

Lemma scan_edges_spec :
  exists found,
    scan_edges positions cum_weights agent_path packed_weights agent = Ret found
    /\ match found with
       | Some (i, j) =>
           flagged i j
           /\ forall i' j', flagged i' j' ->
                (i < i' \/ (i = i' /\ j <= j'))%nat
       | None => forall i j, ~ flagged i j
       end.
Proof.
  unfold scan_edges.
  change (range (length agent_path - 1)) with (seq 0 (length agent_path - 1)).
  match goal with
  | |- exists found, for_break ?body _ = _ /\ _ =>
      destruct (for_break_seq body (length agent_path - 1) 0)
        as (r & Hr & Hspec)
  end.
  { intros i Hi. destruct (scan_other_edge i ltac:(lia)) as (r & Hr & _).
    eauto. }
  cbv beta in Hspec.
  exists r. split; [exact Hr|].
  destruct r as [[i j]|].
  - destruct Hspec as (i0 & Hi0 & Hbody & Hbefore).
    destruct (scan_other_edge i0 ltac:(lia)) as (r & Hr0 & Hr0spec).
    rewrite Hr0 in Hbody. inversion Hbody. subst r.
    destruct Hr0spec as (-> & Hflag & Hfirst).
    split; [exact Hflag|].
    intros i' j' Hflag'.
    destruct (Nat.lt_trichotomy i' i0) as [Hlt | [-> | Hgt]].
    + exfalso.
      specialize (Hbefore i' ltac:(lia)).
      destruct (scan_other_edge i' ltac:(lia)) as (r' & Hr' & Hr'spec).
      rewrite Hr' in Hbefore. inversion Hbefore. subst r'.
      exact (Hr'spec j' Hflag').
    + right. split; [reflexivity|].
      destruct (Nat.le_gt_cases j j') as [Hle|Hgt]; [exact Hle|].
      exfalso. exact (Hfirst j' Hgt Hflag').
    + left. exact Hgt.
  - intros i j Hflag.
    destruct (flagged_in_range i j Hflag) as [_ Hi].
    specialize (Hspec i ltac:(lia)).
    destruct (scan_other_edge i Hi) as (r & Hr0 & Hr0spec).
    rewrite Hr0 in Hspec. inversion Hspec. subst r.
    exact (Hr0spec j Hflag).
Qed.

End Scan.

(** ** One iteration of the deadlock predictor *)

Lemma nth_add_slice : forall lo hi dl k,
  nth k (add_slice lo hi dl) 0 =
    nth k dl 0 + (if in_slice lo hi k && (k <? length dl)%nat then 1 else 0).
Proof.
  intros lo hi dl k. unfold add_slice, in_slice. rewrite nth_map_range.
  destruct ((lo <=? k) && (k <? hi) && (k <? length dl))%nat; lia.
Qed.

Lemma length_add_slice : forall lo hi dl, length (add_slice lo hi dl) = length dl.
Proof. intros. apply length_map_range. Qed.

(** An iteration scans the edges of one other agent and adds one to the
    deadlocks from the flagged edge on, if an edge is flagged; it does not
    read [deadlocks]. *)
Lemma find_deadlocks_step_inv :
  forall u self handle positions cum_weights packed_positions packed_weights
         agent dl ct dl' ct',
    find_deadlocks_step u self handle positions cum_weights
      packed_positions packed_weights (dl, ct) agent = Ret (dl', ct') ->
    exists agent_path found,
      nth_error packed_positions agent = Some agent_path
      /\ scan_edges positions cum_weights agent_path packed_weights agent
         = Ret found
      /\ dl' = match found with
               | Some (_, j) => add_slice j (length positions) dl
               | None => dl
               end
      /\ forall dl2,
           find_deadlocks_step u self handle positions cum_weights
             packed_positions packed_weights (dl2, ct) agent
           = Ret (match found with
                  | Some (_, j) => add_slice j (length positions) dl2
                  | None => dl2
                  end, ct').
Proof.
  intros u self handle positions cum_weights packed_positions packed_weights
         agent dl ct dl' ct' H.
  unfold find_deadlocks_step in H.
  apply bind_ret in H. destruct H as (agent_path & Epath & H).
  apply bind_ret in H. destruct H as (found & Escan & H).
  exists agent_path, found.
  split; [apply item_ret; exact Epath|]. split; [exact Escan|].
  destruct found as [[i j]|].
  - apply bind_ret in H. destruct H as (mine_in & E1 & H).
    apply bind_ret in H. destruct H as (mine_out & E2 & H).
    apply bind_ret in H. destruct H as (other_in & E3 & H).
    apply bind_ret in H. destruct H as (me & E4 & H).
    apply bind_ret in H. destruct H as (other & E5 & H).
    apply bind_ret in H. destruct H as (stored & E6 & H).
    inversion H. split; [reflexivity|].
    intro dl2. unfold find_deadlocks_step.
    rewrite Epath. cbn [bind]. rewrite Escan. cbn [bind].
    rewrite E1. cbn [bind]. rewrite E2. cbn [bind]. rewrite E3. cbn [bind].
    rewrite E4. cbn [bind]. rewrite E5. cbn [bind]. rewrite E6. cbn [bind].
    reflexivity.
  - inversion H. split; [reflexivity|].
    intro dl2. unfold find_deadlocks_step.
    rewrite Epath. cbn [bind]. rewrite Escan. reflexivity.
Qed.

(** C6: for another agent whose packed path is scanned against a path of
    real cells, the scan stops at the first pair of edges, in scanning
    order, where this edge is the reverse of the other one and the two
    intervals of cumulative weights overlap, and finds none exactly when
    there is no such pair; the iteration adds one to the deadlock counts
    from that edge on and nothing else, so an agent adds at most one. *)
Theorem deadlock_flagged_on_first_reverse_overlap :
  forall u self handle positions cum_weights packed_positions packed_weights
         agent agent_path other_weights,
    Forall (fun p => p <> pad_pos) positions ->
    (length positions <= length cum_weights)%nat ->
    nth_error packed_positions agent = Some agent_path ->
    nth_error packed_weights agent = Some other_weights ->
    (length agent_path <= length other_weights)%nat ->
    exists found,
      scan_edges positions cum_weights agent_path packed_weights agent = Ret found
      /\ match found with
         | Some (i, j) =>
             reverse_overlap positions cum_weights agent_path other_weights i j
             /\ forall i' j',
                  reverse_overlap positions cum_weights agent_path
                                  other_weights i' j' ->
                  (i < i' \/ (i = i' /\ j <= j'))%nat
         | None =>
             forall i j,
               ~ reverse_overlap positions cum_weights agent_path
                                 other_weights i j
         end
      /\ forall deadlocks crash_turns deadlocks' crash_turns',
           find_deadlocks_step u self handle positions cum_weights
             packed_positions packed_weights (deadlocks, crash_turns) agent
           = Ret (deadlocks', crash_turns') ->
           deadlocks' = match found with
                        | Some (_, j) => add_slice j (length positions) deadlocks
                        | None => deadlocks
                        end
           /\ forall k,
                nth k deadlocks 0 <= nth k deadlocks' 0 <= nth k deadlocks 0 + 1.
Proof.
  intros u self handle positions cum_weights packed_positions packed_weights
         agent agent_path other_weights Hreal Hcover Hpath Hrow Hocover.
  destruct (scan_edges_spec positions cum_weights agent_path packed_weights
              agent other_weights Hreal Hcover Hrow Hocover)
    as (found & Hscan & Hspec).
  exists found. split; [exact Hscan|]. split; [exact Hspec|].
  intros deadlocks crash_turns deadlocks' crash_turns' Hstep.
  destruct (find_deadlocks_step_inv _ _ _ _ _ _ _ _ _ _ _ _ Hstep)
    as (agent_path' & found' & Hpath' & Hscan' & Hdl & _).
  rewrite Hpath in Hpath'. inversion Hpath'. subst agent_path'.
  rewrite Hscan in Hscan'. inversion Hscan'. subst found'.
  split; [exact Hdl|].
  intro k. subst deadlocks'. destruct found as [[i j]|]; [|lia].
  rewrite nth_add_slice.
  destruct (in_slice j (length positions) k && (k <? length deadlocks)%nat); lia.
Qed.

Lemma deadlock_flagged_on_first_reverse_overlap_witness :
  let positions := [(0, 0); (0, 3); (0, 6); (0, 9)] in
  let cum_weights := [0; 3; 6; 9]%Q in
  let agent_path := [(0, 9); (0, 6); (0, 3); (0, 0)] in
  let other_weights := [-3; 1; 4; 7]%Q in
  scan_edges positions cum_weights agent_path (snd packed_at_tick) 1
    = Ret (Some (1, 1)%nat)
  /\ reverse_overlap positions cum_weights agent_path other_weights 1 1
  /\ forall i' j',
       reverse_overlap positions cum_weights agent_path other_weights i' j' ->
       (1 < i' \/ (1 = i' /\ 1 <= j'))%nat.
Proof.
  intros positions cum_weights agent_path other_weights.
  assert (Hreal : Forall (fun p => p <> pad_pos) positions)
    by (repeat constructor; discriminate).
  assert (Hcover : (length positions <= length cum_weights)%nat)
    by (simpl; lia).
  assert (Hpath : nth_error (fst packed_at_tick) 1 = Some agent_path)
    by reflexivity.
  assert (Hrow : nth_error (snd packed_at_tick) 1 = Some other_weights)
    by reflexivity.
  assert (Hocover : (length agent_path <= length other_weights)%nat)
    by (simpl; lia).
  destruct (deadlock_flagged_on_first_reverse_overlap
              utils_model at_tick 0%nat positions cum_weights
              (fst packed_at_tick) (snd packed_at_tick) 1%nat
              agent_path other_weights Hreal Hcover Hpath Hrow Hocover)
    as (found & Hscan & Hspec & _).
  assert (E : scan_edges positions cum_weights agent_path
                (snd packed_at_tick) 1 = Ret (Some (1, 1)%nat))
    by (vm_compute; reflexivity).
  rewrite E in Hscan. inversion Hscan. subst found.
  split; [exact E | exact Hspec].
Defined.

(** ** C8: cumulative weights *)

Lemma Forall_nth_error : forall {A : Type} (P : A -> Prop) (l : list A),
  (forall i x, nth_error l i = Some x -> P x) -> Forall P l.
Proof.
  intros A P l H. apply Forall_forall. intros x Hx.
  destruct (In_nth_error _ _ Hx) as (i & Hi). exact (H i x Hi).
Qed.

Lemma Forall_at : forall {A : Type} (P : A -> Prop) (l : list A) (i : nat) (x : A),
  Forall P l -> nth_error l i = Some x -> P x.
Proof.
  intros A P l i x H Hx. rewrite Forall_forall in H.
  exact (H x (nth_error_In _ _ Hx)).
Qed.

Lemma Forall_upd_at : forall {A : Type} (P : A -> Prop) (f : A -> A) (l : list A) (i : nat),
  Forall P l ->
  (forall x, nth_error l i = Some x -> P (f x)) ->
  Forall P (upd_at i f l).
Proof.
  intros A P f l i Hall Hf. apply Forall_nth_error. intros k y Hk.
  destruct (Nat.eq_dec k i) as [->|Hne].
  - rewrite nth_error_upd_at_eq in Hk.
    destruct (nth_error l i) as [x|] eqn:E; [|discriminate].
    inversion Hk. apply Hf. reflexivity.
  - rewrite nth_error_upd_at_neq in Hk by exact Hne.
    exact (Forall_at _ _ _ _ Hall Hk).
Qed.

Lemma cumsum_nondecreasing : forall (l : list Q) (acc : Q),
  Forall (fun x => (0 <= x)%Q) l ->
  nondecreasing Qle (acc :: np_cumsum_from acc l).
Proof.
  induction l as [|x t IH]; intros acc Hall k a b Ha Hb.
  - destruct k as [|k]; simpl in Hb; [discriminate|].
    destruct k; discriminate.
  - inversion Hall as [|? ? Hx Ht]. subst. destruct k as [|k].
    + simpl in Ha, Hb. inversion Ha. inversion Hb. subst. lra.
    + apply (IH (acc + x)%Q Ht k a b); assumption.
Qed.

Lemma length_np_cumsum_from : forall l acc,
  length (np_cumsum_from acc l) = length l.
Proof.
  induction l as [|x t IH]; intro acc; simpl; auto.
Qed.

Lemma compute_cumulative_weights_ret :
  forall self handle edges initial_distance ws,
    compute_cumulative_weights self handle edges initial_distance = Ret ws ->
    exists weights,
      ws = initial_distance :: np_cumsum_from initial_distance weights
      /\ length weights = length edges
      /\ (forall sd,
            nth_error (speed_data self) handle = Some sd ->
            0 <= times sd ->
            nonnegative_weights edges ->
            Forall (fun w => (0 <= w)%Q) weights).
Proof.
  intros self handle edges init ws H. unfold compute_cumulative_weights in H.
  apply bind_ret in H. destruct H as (weights & Hw & H).
  inversion H. exists weights. split; [reflexivity|].
  destruct (mapM_ret _ _ _ Hw) as [Hlen Hnth]. split; [exact Hlen|].
  intros sd Hsd Htimes Hedges. apply Forall_nth_error. intros i w Hi.
  destruct (nth_error edges i) as [e|] eqn:Ee.
  2:{ apply nth_error_None in Ee.
      assert (i < length weights)%nat by (apply nth_error_Some; congruence).
      lia. }
  destruct (Hnth i e Ee) as (y & Hy & Hyi).
  apply item_ret in Hsd. rewrite Hsd in Hy. simpl in Hy. inversion Hy. subst y.
  rewrite Hyi in Hi. inversion Hi.
  apply Qmult_le_0_compat.
  - exact (Forall_at _ _ _ _ Hedges Ee).
  - change 0%Q with (inject_Z 0). rewrite <- Zle_Qle. exact Htimes.
Qed.

Lemma compute_cumulative_weights_ext :
  forall s1 s2 handle edges initial_distance,
    speed_data s1 = speed_data s2 ->
    compute_cumulative_weights s1 handle edges initial_distance
    = compute_cumulative_weights s2 handle edges initial_distance.
Proof.
  intros s1 s2 handle edges init H. unfold compute_cumulative_weights.
  rewrite H. reflexivity.
Qed.

Lemma compute_cumulative_weights_nondecreasing :
  forall self handle edges initial_distance ws sd,
    nth_error (speed_data self) handle = Some sd ->
    0 <= times sd ->
    nonnegative_weights edges ->
    compute_cumulative_weights self handle edges initial_distance = Ret ws ->
    nondecreasing Qle ws /\ length ws = S (length edges).
Proof.
  intros self handle edges init ws sd Hsd Htimes Hedges H.
  destruct (compute_cumulative_weights_ret _ _ _ _ _ H)
    as (weights & -> & Hlen & Hnonneg).
  split.
  - apply cumsum_nondecreasing. exact (Hnonneg sd Hsd Htimes Hedges).
  - simpl. rewrite length_np_cumsum_from, Hlen. reflexivity.
Qed.

Lemma fill_prefix_ret : forall {A : Type} (row xs row' : list A),
  fill_prefix row xs = Ret row' ->
  (length xs <= length row)%nat /\ row' = xs ++ skipn (length xs) row.
Proof.
  intros A row xs row' H. unfold fill_prefix in H.
  destruct (length xs <=? length row)%nat eqn:E; [|discriminate].
  apply Nat.leb_le in E. inversion H. auto.
Qed.

(** The fields that [_update_shortest] writes for its agent. *)
Lemma _update_shortest_fields :
  forall g agents self handle prediction self',
    _update_shortest g agents self handle prediction = Ret self' ->
    exists a sd ws cw_row,
      nth_error agents handle = Some a
      /\ nth_error (speed_data self) handle = Some sd
      /\ speed_data self' =
           upd_at handle
             (fun _ => {| times := times sd;
                          remaining := remaining_turns_in_cell a |})
             (speed_data self)
      /\ compute_cumulative_weights self' handle (edges prediction)
           (inject_Z (remaining_turns_in_cell a)) = Ret ws
      /\ nth_error (_shortest_cum_weights self) handle = Some cw_row
      /\ _shortest_cum_weights self' =
           upd_at handle (fun _ => ws ++ skipn (length ws) cw_row)
                  (_shortest_cum_weights self)
      /\ (last_nodes self' = last_nodes self
          \/ exists ln new,
               nth_error (last_nodes self) handle = Some ln
               /\ last_nodes self' =
                    upd_at handle (fun _ => new) (last_nodes self)
               /\ (snd new = 0 \/ snd new = snd ln + 1)).
Proof.
  intros g agents self handle prediction self' H.
  unfold _update_shortest in H.
  apply bind_ret in H. destruct H as (a & Ea & H).
  apply bind_ret in H. destruct H as (sd & Esd & H).
  apply bind_ret in H. destruct H as (paths_row & _ & H).
  apply bind_ret in H. destruct H as (paths_row' & _ & H).
  apply bind_ret in H. destruct H as (pos_row & _ & H).
  apply bind_ret in H. destruct H as (pos_row' & _ & H).
  apply bind_ret in H. destruct H as (ws & Ews & H).
  apply bind_ret in H. destruct H as (cw_row & Ecw & H).
  apply bind_ret in H. destruct H as (cw_row' & Efill & H).
  apply bind_ret in H. destruct H as (agent_position & _ & H).
  apply bind_ret in H. destruct H as (last_position & _ & H).
  apply fill_prefix_ret in Efill. destruct Efill as [_ ->].
  exists a, sd, ws, cw_row.
  apply item_ret in Ea. apply item_ret in Esd. apply item_ret in Ecw.
  destruct (negb (opt_node_eqb last_position agent_position)).
  - apply bind_ret in H. destruct H as (last_nodes' & Eln & H).
    inversion H. simpl.
    repeat split; try assumption; try reflexivity.
    right. destruct (graph_nodes g agent_position).
    + apply bind_ret in Eln. destruct Eln as (ln & Eln & Hln).
      inversion Hln. apply item_ret in Eln.
      exists ln, (agent_position, 0). auto.
    + apply bind_ret in Eln. destruct Eln as (ln & Eln & Hln).
      inversion Hln. apply item_ret in Eln.
      exists ln, (fst ln, snd ln + 1). auto.
  - inversion H. simpl.
    repeat split; try assumption; try reflexivity.
    left. reflexivity.
Qed.

Lemma update_counters_ok : forall g agents self handle prediction self',
  counters_ok self ->
  _update_shortest g agents self handle prediction = Ret self' ->
  counters_ok self'.
Proof.
  intros g agents self handle prediction self' [Hln Hsd] H.
  destruct (_update_shortest_fields _ _ _ _ _ _ H)
    as (a & sd & ws & cw_row & Ha & Esd & Hspeed & _ & _ & _ & Hlast).
  split.
  - destruct Hlast as [-> | (ln & new & Eln & -> & Hnew)]; [exact Hln|].
    apply Forall_upd_at; [exact Hln|]. intros x Hx.
    pose proof (Forall_at _ _ _ _ Hln Eln) as Hpos. simpl in Hpos.
    destruct Hnew as [-> | ->]; lia.
  - rewrite Hspeed. apply Forall_upd_at; [exact Hsd|]. intros x Hx. simpl.
    exact (Forall_at _ _ _ _ Hsd Esd).
Qed.

Lemma firstn_length_app : forall {A : Type} (l r : list A),
  firstn (length l) (l ++ r) = l.
Proof.
  intros A l r. rewrite firstn_app, firstn_all, Nat.sub_diag. simpl.
  apply app_nil_r.
Qed.

Lemma update_row_ok : forall g agents self handle prediction self',
  counters_ok self ->
  nonnegative_weights (edges prediction) ->
  _update_shortest g agents self handle prediction = Ret self' ->
  row_ok self' handle (S (length (edges prediction))).
Proof.
  intros g agents self handle prediction self' [Hln Hsd] Hedges H.
  destruct (_update_shortest_fields _ _ _ _ _ _ H)
    as (a & sd & ws & cw_row & Ha & Esd & Hspeed & Hws & Ecw & Hcw & _).
  assert (Esd' : nth_error (speed_data self') handle
                 = Some {| times := times sd;
                           remaining := remaining_turns_in_cell a |}).
  { rewrite Hspeed, nth_error_upd_at_eq, Esd. reflexivity. }
  destruct (compute_cumulative_weights_nondecreasing _ _ _ _ _ _ Esd'
              (Forall_at _ _ _ _ Hsd Esd) Hedges Hws) as [Hmono Hlen].
  destruct (compute_cumulative_weights_ret _ _ _ _ _ Hws)
    as (weights & Hshape & _).
  exists {| times := times sd; remaining := remaining_turns_in_cell a |}.
  exists (np_cumsum_from (inject_Z (remaining_turns_in_cell a)) weights
          ++ skipn (length ws) cw_row).
  split; [exact Esd'|]. simpl remaining.
  assert (Erow : (inject_Z (remaining_turns_in_cell a)
                   :: np_cumsum_from (inject_Z (remaining_turns_in_cell a)) weights
                      ++ skipn (length ws) cw_row)
                 = ws ++ skipn (length ws) cw_row).
  { generalize (length ws). intro n0. rewrite Hshape. reflexivity. }
  split.
  - rewrite Hcw, nth_error_upd_at_eq, Ecw. simpl. rewrite Erow. reflexivity.
  - rewrite Erow, <- Hlen, firstn_length_app. exact Hmono.
Qed.

Lemma update_frame_row : forall g agents self handle prediction self' h n,
  h <> handle ->
  row_ok self h n ->
  _update_shortest g agents self handle prediction = Ret self' ->
  row_ok self' h n.
Proof.
  intros g agents self handle prediction self' h n Hne
         (sd & rest & Esd & Ecw & Hmono) H.
  destruct (_update_shortest_fields _ _ _ _ _ _ H)
    as (a & sd0 & ws & cw_row & _ & _ & Hspeed & _ & _ & Hcw & _).
  exists sd, rest. repeat split.
  - rewrite Hspeed, nth_error_upd_at_neq by exact Hne. exact Esd.
  - rewrite Hcw, nth_error_upd_at_neq by exact Hne. exact Ecw.
  - exact Hmono.
Qed.

Lemma get_many_fold :
  forall g agents hps s s',
    NoDup (map fst hps) ->
    (forall h sp devs,
       In (h, Some (sp, devs)) hps -> nonnegative_weights (edges sp)) ->
    counters_ok s ->
    foldM (get_many_step g agents) hps s = Ret s' ->
    counters_ok s'
    /\ (forall h n, ~ In h (map fst hps) -> row_ok s h n -> row_ok s' h n)
    /\ (forall h sp devs,
          In (h, Some (sp, devs)) hps ->
          row_ok s' h (S (length (edges sp)))).
Proof.
  intros g agents hps. induction hps as [|[h0 p0] rest IH];
    intros s s' Hnd Hedges Hok H; simpl in H.
  - inversion H. subst.
    split; [exact Hok | split; [intros; assumption | intros h sp devs []]].
  - apply bind_ret in H. destruct H as (s1 & Hstep & H).
    simpl in Hnd. inversion Hnd as [|? ? Hnotin Hnd']. subst.
    unfold get_many_step in Hstep. simpl in Hstep.
    assert (Hok1 : counters_ok s1).
    { destruct p0 as [[sp devs]|]; [|inversion Hstep; subst; exact Hok].
      exact (update_counters_ok _ _ _ _ _ _ Hok Hstep). }
    destruct (IH s1 s' Hnd') as (Hok' & Hframe & Hrows); auto.
    { intros h sp devs Hin. apply (Hedges h sp devs). right. exact Hin. }
    split; [exact Hok'|]. split.
    + intros h n Hnot Hrow. apply Hframe.
      * intro Hin. apply Hnot. right. exact Hin.
      * destruct p0 as [[sp devs]|]; [|inversion Hstep; subst; exact Hrow].
        assert (Hne : h <> h0)
          by (intro; subst; apply Hnot; left; reflexivity).
        exact (update_frame_row _ _ _ _ _ _ _ _ Hne Hrow Hstep).
    + intros h sp devs [Hhead | Hin].
      * inversion Hhead. subst h0 p0. apply Hframe; [exact Hnotin|].
        simpl in Hstep.
        refine (update_row_ok g agents s h sp s1 Hok _ Hstep).
        apply (Hedges h sp devs). left. reflexivity.
      * exact (Hrows h sp devs Hin).
Qed.

Lemma map_fst_enumerate_from : forall {A : Type} (l : list A) (s : nat),
  map fst (combine (seq s (length l)) l) = seq s (length l).
Proof.
  intros A l. induction l as [|x t IH]; intro s; simpl; [reflexivity|].
  rewrite IH. reflexivity.
Qed.

Lemma get_many_rows :
  forall g agents self predictions self',
    counters_ok self ->
    (forall h sp devs,
       nth_error predictions h = Some (Some (sp, devs)) ->
       nonnegative_weights (edges sp)) ->
    get_many g agents self predictions = Ret self' ->
    counters_ok self'
    /\ forall h sp devs,
         nth_error predictions h = Some (Some (sp, devs)) ->
         row_ok self' h (S (length (edges sp))).
Proof.
  intros g agents self predictions self' Hok Hedges H.
  unfold get_many in H.
  assert (Hin : forall h x, In (h, x) (enumerate predictions) ->
                            nth_error predictions h = Some x).
  { intros h x Hx. destruct (In_nth_error _ _ Hx) as (i & Hi).
    rewrite nth_error_enumerate in Hi.
    destruct (nth_error predictions i) as [y|] eqn:Ey; [|discriminate].
    simpl in Hi. inversion Hi. subst. exact Ey. }
  match type of H with
  | foldM _ _ ?s0 = _ =>
      destruct (get_many_fold g agents (enumerate predictions) s0 self')
        as (Hok' & _ & Hrows)
  end.
  - unfold enumerate. rewrite map_fst_enumerate_from. apply seq_NoDup.
  - intros h sp devs Hx. exact (Hedges h sp devs (Hin _ _ Hx)).
  - exact Hok.
  - exact H.
  - split; [exact Hok'|]. intros h sp devs Hh. apply (Hrows h sp devs).
    apply (nth_error_In _ h). rewrite nth_error_enumerate, Hh. reflexivity.
Qed.

(** The packed row of weights of an agent: the row of cumulative weights
    with its leading entry kept or set to the ticks owed. *)
Lemma packed_weights_row :
  forall self packed_positions packed_weights agent r0 rest,
    _get_shortest_packed_positions self = Ret (packed_positions, packed_weights) ->
    nth_error (_shortest_cum_weights self) agent = Some (r0 :: rest) ->
    exists w,
      nth_error packed_weights agent = Some (w :: rest)
      /\ (w = r0
          \/ exists ln sd,
               nth_error (last_nodes self) agent = Some ln
               /\ nth_error (speed_data self) agent = Some sd
               /\ w = (- inject_Z (snd ln + times sd - remaining sd))%Q).
Proof.
  intros self packed_positions packed_weights agent r0 rest H Erow.
  unfold _get_shortest_packed_positions in H.
  apply bind_ret in H. destruct H as (prev_weights & Hpw & H).
  apply bind_ret in H. destruct H as (pp & _ & H).
  apply bind_ret in H. destruct H as (pw & Hstack & H).
  inversion H. subst pp pw. clear H.
  unfold hstack_col in Hstack.
  destruct (zipM_ret _ _ _ _ Hstack) as (Hlen & _ & Hnth).
  destruct (mapM_ret _ _ _ Hpw) as (Hplen & Hpnth).
  assert (Hlt : (agent < length prev_weights)%nat).
  { rewrite Hlen, length_map. apply nth_error_Some. congruence. }
  destruct (nth_error prev_weights agent) as [w|] eqn:Ew;
    [|apply nth_error_None in Ew; lia].
  destruct (Hnth agent w rest Ew) as (z & Hz & Hrow).
  { rewrite nth_error_map, Erow. reflexivity. }
  inversion Hz. subst z. exists w. split; [exact Hrow|].
  destruct (nth_error (enumerate (_shortest_paths self)) agent)
    as [[agent' path]|] eqn:Eenum;
    [|apply nth_error_None in Eenum; lia].
  destruct (Hpnth agent _ Eenum) as (y & Hy & Hyw).
  rewrite Ew in Hyw. inversion Hyw. subst y.
  rewrite nth_error_enumerate in Eenum.
  destruct (nth_error (_shortest_paths self) agent); [|discriminate].
  simpl in Eenum. inversion Eenum. subst agent' path. simpl in Hy.
  unfold prev_weight_of in Hy.
  apply bind_ret in Hy. destruct Hy as (first & _ & Hy).
  apply bind_ret in Hy. destruct Hy as (prev & _ & Hy).
  destruct (negb (node_eqb first prev)).
  - apply bind_ret in Hy. destruct Hy as (ln & Eln & Hy).
    apply bind_ret in Hy. destruct Hy as (sd & Esd & Hy).
    inversion Hy. right. exists ln, sd.
    apply item_ret in Eln. apply item_ret in Esd. auto.
  - unfold item2 in Hy.
    apply bind_ret in Hy. destruct Hy as (row & Er & Hy).
    apply item_ret in Er. rewrite Erow in Er. inversion Er. subst row.
    inversion Hy. left. reflexivity.
Qed.

Lemma nondecreasing_lower_head : forall (n : nat) (w r0 : Q) (rest : list Q),
  (w <= r0)%Q ->
  nondecreasing Qle (firstn n (r0 :: rest)) ->
  nondecreasing Qle (firstn n (w :: rest)).
Proof.
  intros n w r0 rest Hw Hmono k x y Hx Hy.
  rewrite nth_error_firstn in Hx, Hy.
  destruct (k <? n)%nat eqn:Ek; [|discriminate].
  destruct (S k <? n)%nat eqn:Esk; [|discriminate].
  destruct k as [|k].
  - simpl in Hx, Hy. inversion Hx. subst x.
    apply Qle_trans with r0; [exact Hw|].
    apply (Hmono 0%nat r0 y); rewrite nth_error_firstn.
    + rewrite Ek. reflexivity.
    + rewrite Esk. exact Hy.
  - apply (Hmono (S k) x y); rewrite nth_error_firstn.
    + rewrite Ek. exact Hx.
    + rewrite Esk. exact Hy.
Qed.

Lemma packed_row_nondecreasing :
  forall self packed_positions packed_weights h n,
    counters_ok self ->
    row_ok self h n ->
    _get_shortest_packed_positions self = Ret (packed_positions, packed_weights) ->
    exists row,
      nth_error packed_weights h = Some row
      /\ nondecreasing Qle (firstn n row).
Proof.
  intros self packed_positions packed_weights h n [Hln Hsd]
         (sd & rest & Esd & Erow & Hmono) H.
  destruct (packed_weights_row _ _ _ _ _ _ H Erow) as (w & Hw & Hcases).
  exists (w :: rest). split; [exact Hw|].
  apply (nondecreasing_lower_head n w (inject_Z (remaining sd)) rest);
    [|exact Hmono].
  destruct Hcases as [-> | (ln & sd' & Eln & Esd' & ->)]; [apply Qle_refl|].
  rewrite Esd in Esd'. inversion Esd'. subst sd'.
  pose proof (Forall_at _ _ _ _ Hln Eln) as Hticks. simpl in Hticks.
  pose proof (Forall_at _ _ _ _ Hsd Esd) as Htimes. simpl in Htimes.
  rewrite <- inject_Z_opp, <- Zle_Qle. lia.
Qed.

(** ** C8: deadlock counts *)

Lemma nth_error_repeat_inv : forall {A : Type} (v x : A) (n k : nat),
  nth_error (repeat v n) k = Some x -> x = v.
Proof.
  intros A v x n k H. apply nth_error_In in H.
  exact (repeat_spec _ _ _ H).
Qed.

Lemma nondecreasing_add_slice : forall (j len : nat) (dl : list Z),
  nondecreasing Z.le (firstn len dl) ->
  nondecreasing Z.le (firstn len (add_slice j len dl)).
Proof.
  intros j len dl Hmono k x y Hx Hy.
  rewrite nth_error_firstn in Hx, Hy.
  destruct (k <? len)%nat eqn:Ek; [|discriminate].
  destruct (S k <? len)%nat eqn:Esk; [|discriminate].
  unfold add_slice in Hx, Hy. rewrite nth_error_map_range in Hx, Hy.
  rewrite Ek in Hx. rewrite Esk in Hy. rewrite andb_true_r in Hx, Hy.
  destruct (nth_error dl k) as [x0|] eqn:Ex0;
    [|destruct (j <=? k)%nat; discriminate].
  destruct (nth_error dl (S k)) as [y0|] eqn:Ey0;
    [|destruct (j <=? S k)%nat; discriminate].
  assert (Hle : x0 <= y0).
  { apply (Hmono k x0 y0); rewrite nth_error_firstn.
    - rewrite Ek. exact Ex0.
    - rewrite Esk. exact Ey0. }
  destruct (j <=? k)%nat eqn:Ejk; destruct (j <=? S k)%nat eqn:Ejsk;
    simpl in Hx, Hy; inversion Hx; inversion Hy; subst; try lia.
  apply Nat.leb_le in Ejk. apply Nat.leb_gt in Ejsk. lia.
Qed.

Lemma find_deadlocks_nondecreasing :
  forall u self handle positions cum_weights packed_positions packed_weights
         prev_deadlocks deadlocks crash_turns,
    find_deadlocks u self handle positions cum_weights
      packed_positions packed_weights prev_deadlocks
    = Ret (deadlocks, crash_turns) ->
    nondecreasing Z.le (firstn (length positions) deadlocks)
    /\ length deadlocks = max_depth self.
Proof.
  intros u self handle positions cum_weights packed_positions packed_weights
         prev_deadlocks deadlocks crash_turns H.
  unfold find_deadlocks in H.
  apply bind_ret in H. destruct H as (others & _ & H).
  apply (foldM_invariant
           (fun st : list Z * list fval =>
              nondecreasing Z.le (firstn (length positions) (fst st))
              /\ length (fst st) = max_depth self)
           _ _ _ (deadlocks, crash_turns)) in H; [exact H | |].
  - intros [dl ct] agent [dl' ct'] _ [Hmono Hlen] Hstep. simpl in *.
    destruct (find_deadlocks_step_inv _ _ _ _ _ _ _ _ _ _ _ _ Hstep)
      as (agent_path & found & _ & _ & -> & _).
    destruct found as [[i j]|]; [|auto]. split.
    + apply nondecreasing_add_slice. exact Hmono.
    + rewrite length_add_slice. exact Hlen.
  - simpl. split; [|apply repeat_length].
    intros k x y Hx Hy. rewrite nth_error_firstn in Hx, Hy.
    destruct (k <? length positions)%nat; [|discriminate].
    destruct (S k <? length positions)%nat; [|discriminate].
    apply nth_error_repeat_inv in Hx. apply nth_error_repeat_inv in Hy.
    subst. lia.
Qed.

(** Where the rows are non-decreasing: after the shortest paths of a tick
    are stored, the row of cumulative weights of every agent with a
    prediction is non-decreasing over the nodes of its path, and so is its
    packed row, whose leading entry may be negative; the cumulative
    weights computed for any other path are non-decreasing; the deadlock
    counts of a path are non-decreasing over its positions.  The counters
    that this rests on (ticks since the last node, ticks per cell) stay
    non-negative. *)
Theorem weights_and_deadlocks_nondecreasing :
  forall g agents self predictions self',
    counters_ok self ->
    (forall h sp devs,
       nth_error predictions h = Some (Some (sp, devs)) ->
       nonnegative_weights (edges sp)) ->
    get_many g agents self predictions = Ret self' ->
    counters_ok self'
    /\ (forall handle sp devs,
          nth_error predictions handle = Some (Some (sp, devs)) ->
          (exists row,
             nth_error (_shortest_cum_weights self') handle = Some row
             /\ nondecreasing Qle (firstn (S (length (edges sp))) row))
          /\ forall packed_positions packed_weights,
               _get_shortest_packed_positions self'
               = Ret (packed_positions, packed_weights) ->
               exists row,
                 nth_error packed_weights handle = Some row
                 /\ nondecreasing Qle (firstn (S (length (edges sp))) row))
    /\ (forall handle sd edges initial_distance ws,
          nth_error (speed_data self') handle = Some sd ->
          nonnegative_weights edges ->
          compute_cumulative_weights self' handle edges initial_distance = Ret ws ->
          nondecreasing Qle ws /\ length ws = S (length edges))
    /\ (forall u handle positions cum_weights packed_positions packed_weights
               prev_deadlocks deadlocks crash_turns,
          find_deadlocks u self' handle positions cum_weights
            packed_positions packed_weights prev_deadlocks
          = Ret (deadlocks, crash_turns) ->
          nondecreasing Z.le (firstn (length positions) deadlocks)).
Proof.
  intros g agents self predictions self' Hok Hedges H.
  destruct (get_many_rows _ _ _ _ _ Hok Hedges H) as (Hok' & Hrows).
  split; [exact Hok'|]. split; [|split].
  - intros handle sp devs Hp. specialize (Hrows handle sp devs Hp). split.
    + destruct Hrows as (sd & rest & _ & Erow & Hmono). eauto.
    + intros packed_positions packed_weights Hpacked.
      exact (packed_row_nondecreasing _ _ _ _ _ Hok' Hrows Hpacked).
  - intros handle sd edges init ws Hsd Hnonneg Hws.
    destruct Hok' as [_ Htimes].
    exact (compute_cumulative_weights_nondecreasing _ _ _ _ _ _ Hsd
             (Forall_at _ _ _ _ Htimes Hsd) Hnonneg Hws).
  - intros u handle positions cum_weights packed_positions packed_weights
           prev_deadlocks deadlocks crash_turns Hfd.
    exact (proj1 (find_deadlocks_nondecreasing _ _ _ _ _ _ _ _ _ _ Hfd)).
Qed.

Lemma weights_and_deadlocks_nondecreasing_witness :
  get_many track trains at_reset forecasts = Ret at_tick
  /\ nth_error (snd packed_at_tick) 1 = Some [-3; 1; 4; 7]%Q
  /\ (exists row,
        nth_error (snd packed_at_tick) 1 = Some row
        /\ nondecreasing Qle (firstn 4 row))
  /\ find_deadlocks utils_model at_tick 0 [(0, 0); (0, 3); (0, 6); (0, 9)]
       [0; 3; 6; 9]%Q (fst packed_at_tick) (snd packed_at_tick) 0
     = Ret ([0; 1; 1; 1], [PInf; Fin 5; PInf; PInf])
  /\ nondecreasing Z.le (firstn 4 [0; 1; 1; 1]).
Proof.
  assert (Hok : counters_ok at_reset).
  { split; vm_compute; repeat constructor; discriminate. }
  assert (Hedges : forall h sp devs,
            nth_error forecasts h = Some (Some (sp, devs)) ->
            nonnegative_weights (edges sp)).
  { intros [|[|h]] sp devs Hh; simpl in Hh.
    - inversion Hh. repeat constructor; discriminate.
    - inversion Hh. repeat constructor; discriminate.
    - destruct h; discriminate. }
  assert (E : get_many track trains at_reset forecasts = Ret at_tick)
    by (vm_compute; reflexivity).
  assert (E2 : find_deadlocks utils_model at_tick 0
                 [(0, 0); (0, 3); (0, 6); (0, 9)] [0; 3; 6; 9]%Q
                 (fst packed_at_tick) (snd packed_at_tick) 0
               = Ret ([0; 1; 1; 1], [PInf; Fin 5; PInf; PInf]))
    by (vm_compute; reflexivity).
  destruct (weights_and_deadlocks_nondecreasing
              track trains at_reset forecasts at_tick Hok Hedges E)
    as (_ & Hrows & _ & Hdeadlocks).
  destruct (Hrows 1%nat west_shortest [] eq_refl) as (_ & Hpacked).
  split; [exact E|]. split; [reflexivity|]. split.
  - exact (Hpacked (fst packed_at_tick) (snd packed_at_tick) eq_refl).
  - split; [exact E2|].
    exact (Hdeadlocks _ _ _ _ _ _ _ _ _ E2).
Defined.

(** ** C8: the first deviation path of a train on its node *)

(** C8 fails on the first deviation path of a train that stands on its
    node when that path has more nodes than the shortest one.  The
    cumulative weight of the shortest path at the node 0 is 0, so that
    [_fill_path_values] takes the deviation path for the shortest one: it
    works on the row of the shortest path, 0, 3 and zeros behind its two
    nodes, over the four nodes of the deviation path, and not on the
    cumulative weights of the deviation path, 0, 2, 3, 5.  The row goes
    down from 3 to 0; the distances to the target that [get] writes into
    the row 1 of the tensor, 5, 2, 5, 5, go up again, and [get]
    returns. *)
Theorem first_deviation_weights_decrease :
  get_many track trains at_reset short_forecasts = Ret short_tick
  /\ _get_shortest_packed_positions short_tick = Ret short_packed
  /\ item2 (_shortest_cum_weights short_tick) 0 0 = Ret 0%Q
  /\ path_inputs short_tick 0 long_detour (fst short_packed)
       (snd short_packed) 0
     = Ret ([(0, 0); (0, 3); pad_pos; pad_pos],
            [0; 3; 0; 0]%Q, [0; 3; 0; 0]%Q)
  /\ length (path long_detour) = 4%nat
  /\ ~ nondecreasing Qle (firstn (length (path long_detour)) [0; 3; 0; 0]%Q)
  /\ compute_cumulative_weights short_tick 0 (edges long_detour) 0
     = Ret [0; 2; 3; 5]%Q
  /\ deviation_feats track utils_model trains short_tick 0
       (fst short_packed) (snd short_packed) short_feats 0 long_detour
     = Ret detour_feats
  /\ distance_from_target short_tick 0 (lenght long_detour)
       (path long_detour) [0; 3; 0; 0]%Q 0
     = Ret (f_target_distances detour_feats)
  /\ f_target_distances detour_feats = [Fin 5; Fin 2; Fin 5; Fin 5]
  /\ raw_observation track utils_model trains short_tick short_forecasts 0
     = Ret short_raw
  /\ map (fun features => nth 8 features NaN) (nth 1 short_raw [])
     = [Fin 5; Fin 2; Fin 5; Fin 5]
  /\ exists observation,
       get track utils_model trains 5 short_tick short_forecasts 0
       = Ret observation.
Proof.
  split; [vm_compute; reflexivity|].
  split; [vm_compute; reflexivity|].
  split; [vm_compute; reflexivity|].
  split; [vm_compute; reflexivity|].
  split; [reflexivity|].
  split.
  { intro H. specialize (H 1%nat 3%Q 0%Q eq_refl eq_refl).
    vm_compute in H. apply H. reflexivity. }
  split; [vm_compute; reflexivity|].
  split; [vm_compute; reflexivity|].
  split; [vm_compute; reflexivity|].
  split; [vm_compute; reflexivity|].
  split; [vm_compute; reflexivity|].
  split; [vm_compute; reflexivity|].
  eexists. vm_compute. reflexivity.
Qed.

(** ** C3: what a deviation path starts from *)

(** Seeding [num_agents] shifts every count by the seed and changes
    nothing else. *)
Lemma agents_in_path_fold_shift :
  forall g u agents self handle path cum_weights others
         na ds ms na' ds' ms' na2 (shift : nat -> nat -> Z),
    foldM (agents_in_path_step g u agents self handle path cum_weights)
          others (na, ds, ms) = Ret (na', ds', ms') ->
    (forall k c, cell na k c = shift k c + cell na2 k c) ->
    (forall k c, present na k c = present na2 k c) ->
    exists na2',
      foldM (agents_in_path_step g u agents self handle path cum_weights)
            others (na2, ds, ms) = Ret (na2', ds', ms')
      /\ (forall k c, cell na' k c = shift k c + cell na2' k c)
      /\ (forall k c, present na' k c = present na2' k c).
Proof.
  intros g u agents self handle path cum_weights others.
  induction others as [|agent rest IH];
    intros na ds ms na' ds' ms' na2 shift H Hcell Hpresent; simpl in H.
  - inversion H. subst. exists na2. simpl. auto.
  - apply bind_ret in H. destruct H as ([[na1 ds1] ms1] & Hstep & H).
    destruct (agents_in_path_step_inv _ _ _ _ _ _ _ _ _ _ _ _ _ _ Hstep)
      as [(-> & -> & -> & Hsame)
         | (index & direction & m & _ & -> & Hsame)].
    + destruct (IH _ _ _ _ _ _ na2 shift H Hcell Hpresent)
        as (na2' & Hfold & Hrel).
      exists na2'. split; [|exact Hrel].
      cbn [foldM]. rewrite (Hsame na2). exact Hfold.
    + destruct (IH _ _ _ _ _ _
                  (count_agent index (length path) direction m na2) shift H)
        as (na2' & Hfold & Hrel).
      * intros k c. rewrite !cell_count_agent, Hcell, Hpresent. lia.
      * intros k c. rewrite !present_count_agent. apply Hpresent.
      * exists na2'. split; [|exact Hrel].
        cbn [foldM]. rewrite (Hsame na2). exact Hfold.
Qed.

Lemma present_np_full : forall depth (row : list Z) k c,
  present (np_full depth row) k c = ((k <? depth) && (c <? length row))%nat.
Proof.
  intros depth row k c. unfold present, np_full.
  destruct (k <? depth)%nat eqn:E; simpl.
  - apply Nat.ltb_lt in E.
    rewrite (nth_error_nth _ _ _ (nth_error_repeat_lt row depth k E)).
    reflexivity.
  - apply Nat.ltb_ge in E.
    rewrite (nth_overflow (repeat row depth) [])
      by (rewrite repeat_length; lia).
    reflexivity.
Qed.

Lemma agents_in_path_seeded :
  forall g u agents self handle path cum_weights prev
         num_agents distances malfunctions,
    agents_in_path g u agents self handle path cum_weights prev
      = Ret (num_agents, distances, malfunctions) ->
    exists num_agents0,
      agents_in_path g u agents self handle path cum_weights None
        = Ret (num_agents0, distances, malfunctions)
      /\ forall k c,
           (k < max_depth self)%nat -> (c < 4)%nat ->
           nth k (nth c num_agents []) 0 =
             seed_value prev c + nth k (nth c num_agents0 []) 0.
Proof.
  intros g u agents self handle path cum_weights prev
         num_agents distances malfunctions H.
  destruct prev as [base|].
  2:{ exists num_agents. split; [exact H|]. intros. simpl. lia. }
  destruct (agents_in_path_ret _ _ _ _ _ _ _ _ _ _ _ H)
    as (na & ds & ms & Hloop & -> & -> & ->).
  unfold agents_in_path_loop in Hloop.
  apply bind_ret in Hloop. destruct Hloop as (seeded & Hseed & Hloop).
  apply bind_ret in Hloop. destruct Hloop as (others & Hothers & Hloop).
  simpl in Hseed.
  destruct (length base =? 4)%nat eqn:Hlen; [|discriminate].
  apply Nat.eqb_eq in Hlen. inversion Hseed. subst seeded.
  destruct (agents_in_path_fold_shift _ _ _ _ _ _ _ _ _ _ _ _ _ _
              (np_full (max_depth self) (np_full 4 0))
              (fun k c => if (k <? max_depth self)%nat then nth c base 0 else 0)
              Hloop)
    as (na0 & Hfold & Hcell & _).
  { intros k c. rewrite !cell_np_full.
    destruct (k <? max_depth self)%nat; [|reflexivity].
    assert (Hzero : nth c (np_full 4 0) 0 = 0)
      by (destruct c as [|[|[|[|[|c]]]]]; reflexivity).
    rewrite Hzero. lia. }
  { intros k c. rewrite !present_np_full, Hlen. reflexivity. }
  exists (np_transpose 0 4 na0). split.
  - unfold agents_in_path, agents_in_path_loop, seed_num_agents.
    cbn [bind]. rewrite Hothers. cbn [bind]. rewrite Hfold. reflexivity.
  - intros k c Hk Hc. rewrite !cell_np_transpose by exact Hc.
    rewrite Hcell. apply Nat.ltb_lt in Hk. rewrite Hk. reflexivity.
Qed.

Lemma find_deadlocks_fold_shift :
  forall u self handle positions cum_weights packed_positions packed_weights
         others dl ct dl' ct' dl2 (shift : nat -> Z),
    foldM (find_deadlocks_step u self handle positions cum_weights
                               packed_positions packed_weights)
          others (dl, ct) = Ret (dl', ct') ->
    (forall k, nth k dl 0 = shift k + nth k dl2 0) ->
    length dl = length dl2 ->
    exists dl2',
      foldM (find_deadlocks_step u self handle positions cum_weights
                                 packed_positions packed_weights)
            others (dl2, ct) = Ret (dl2', ct')
      /\ (forall k, nth k dl' 0 = shift k + nth k dl2' 0)
      /\ length dl' = length dl2'.
Proof.
  intros u self handle positions cum_weights packed_positions packed_weights
         others.
  induction others as [|agent rest IH];
    intros dl ct dl' ct' dl2 shift H Hnth Hlen; simpl in H.
  - inversion H. subst. exists dl2. simpl. auto.
  - apply bind_ret in H. destruct H as ([dl1 ct1] & Hstep & H).
    destruct (find_deadlocks_step_inv _ _ _ _ _ _ _ _ _ _ _ _ Hstep)
      as (agent_path & found & _ & _ & -> & Hsame).
    destruct (IH _ _ _ _
                (match found with
                 | Some (_, j) => add_slice j (length positions) dl2
                 | None => dl2
                 end) shift H)
      as (dl2' & Hfold & Hrel).
    + intro k. destruct found as [[i j]|]; [|apply Hnth].
      rewrite !nth_add_slice, Hnth, Hlen. lia.
    + destruct found as [[i j]|]; [|exact Hlen].
      rewrite !length_add_slice. exact Hlen.
    + exists dl2'. split; [|exact Hrel].
      cbn [foldM]. rewrite (Hsame dl2). exact Hfold.
Qed.

Lemma find_deadlocks_seeded :
  forall u self handle positions cum_weights packed_positions packed_weights
         prev_deadlocks deadlocks crash_turns,
    find_deadlocks u self handle positions cum_weights
      packed_positions packed_weights prev_deadlocks
    = Ret (deadlocks, crash_turns) ->
    exists deadlocks0,
      find_deadlocks u self handle positions cum_weights
        packed_positions packed_weights 0
      = Ret (deadlocks0, crash_turns)
      /\ forall k,
           (k < max_depth self)%nat ->
           nth k deadlocks 0 = prev_deadlocks + nth k deadlocks0 0.
Proof.
  intros u self handle positions cum_weights packed_positions packed_weights
         prev_deadlocks deadlocks crash_turns H.
  unfold find_deadlocks in H.
  apply bind_ret in H. destruct H as (others & Hothers & H).
  destruct (find_deadlocks_fold_shift _ _ _ _ _ _ _ _ _ _ _ _
              (np_full (max_depth self) 0)
              (fun k => if (k <? max_depth self)%nat then prev_deadlocks else 0)
              H)
    as (dl0 & Hfold & Hnth & _).
  { intro k. unfold np_full.
    destruct (k <? max_depth self)%nat eqn:E.
    - apply Nat.ltb_lt in E.
      rewrite !(nth_error_nth _ _ _ (nth_error_repeat_lt _ _ k E)). lia.
    - apply Nat.ltb_ge in E.
      rewrite !nth_overflow by (rewrite repeat_length; lia). lia. }
  { unfold np_full. rewrite !repeat_length. reflexivity. }
  exists dl0. split.
  - unfold find_deadlocks. rewrite Hothers. cbn [bind]. exact Hfold.
  - intros k Hk. rewrite Hnth. apply Nat.ltb_lt in Hk. rewrite Hk. reflexivity.
Qed.

(** [_fill_path_values] is its first block followed by the five calls
    under [# Compute features]. *)
Lemma _fill_path_values_inv :
  forall g u agents self handle prediction packed_positions packed_weights
         turns_to_deviation prev_deadlocks prev_num_agents f,
    _fill_path_values g u agents self handle prediction
      packed_positions packed_weights
      turns_to_deviation prev_deadlocks prev_num_agents = Ret f ->
    exists positions positions_weights path_weights,
      path_inputs self handle prediction packed_positions packed_weights
        turns_to_deviation
      = Ret (positions, positions_weights, path_weights)
      /\ agents_in_path g u agents self handle (path prediction) path_weights
           prev_num_agents
         = Ret (f_num_agents f, f_agent_distances f, f_malfunctions f)
      /\ distance_from_target self handle (lenght prediction)
           (path prediction) path_weights turns_to_deviation
         = Ret (f_target_distances f)
      /\ common_nodes self handle positions = Ret (f_c_nodes f)
      /\ find_deadlocks u self handle positions positions_weights
           packed_positions packed_weights prev_deadlocks
         = Ret (f_deadlocks f, f_deadlock_distances f).
Proof.
  intros g u agents self handle prediction packed_positions packed_weights
         turns_to_deviation prev_deadlocks prev_num_agents f H.
  unfold _fill_path_values in H.
  apply bind_ret in H.
  destruct H as ([[positions positions_weights] path_weights] & Esel & H).
  apply bind_ret in H. destruct H as ([[na ds] ms] & Eaip & H).
  apply bind_ret in H. destruct H as (td & Etd & H).
  apply bind_ret in H. destruct H as (cn & Ecn & H).
  apply bind_ret in H. destruct H as ([dl ct] & Efd & H).
  inversion H. subst f. clear H. simpl.
  exists positions, positions_weights, path_weights.
  split; [exact Esel|]. split; [exact Eaip|]. split; [exact Etd|].
  split; [exact Ecn | exact Efd].
Qed.

(** The first block on a path that starts some ticks away: the positions
    are those of the path and the weights are its own cumulative weights,
    followed by zeros. *)
Lemma path_inputs_deviation :
  forall self handle prediction packed_positions packed_weights
         turns_to_deviation positions positions_weights path_weights,
    ~ (turns_to_deviation == 0)%Q ->
    path_inputs self handle prediction packed_positions packed_weights
      turns_to_deviation
    = Ret (positions, positions_weights, path_weights) ->
    exists weights,
      compute_cumulative_weights self handle (edges prediction)
        turns_to_deviation = Ret weights
      /\ (length weights <= max_depth self)%nat
      /\ path_weights = weights ++ repeat 0%Q (max_depth self - length weights)
      /\ positions = map node_pos (path prediction)
      /\ positions_weights = path_weights.
Proof.
  intros self handle prediction packed_positions packed_weights
         turns_to_deviation positions positions_weights path_weights Hne H.
  unfold path_inputs in H.
  destruct (Qeq_bool turns_to_deviation 0) eqn:E.
  - exfalso. apply Hne. apply Qeq_bool_iff. exact E.
  - apply bind_ret in H. destruct H as (weights & Ews & H).
    apply bind_ret in H. destruct H as (filled & Efill & H).
    inversion H. subst. clear H.
    apply fill_prefix_ret in Efill. destruct Efill as [Hlen ->].
    unfold np_full in *. rewrite repeat_length in Hlen.
    rewrite skipn_repeat. exists weights. auto.
Qed.

Lemma _fill_path_values_seeded :
  forall g u agents self handle prediction packed_positions packed_weights
         turns_to_deviation prev_deadlocks prev_num_agents df,
    _fill_path_values g u agents self handle prediction
      packed_positions packed_weights
      turns_to_deviation prev_deadlocks prev_num_agents = Ret df ->
    exists df0,
      _fill_path_values g u agents self handle prediction
        packed_positions packed_weights turns_to_deviation 0 None = Ret df0
      /\ (forall k c,
            (k < max_depth self)%nat -> (c < 4)%nat ->
            nth k (nth c (f_num_agents df) []) 0 =
              seed_value prev_num_agents c
              + nth k (nth c (f_num_agents df0) []) 0)
      /\ (forall k,
            (k < max_depth self)%nat ->
            nth k (f_deadlocks df) 0 =
              prev_deadlocks + nth k (f_deadlocks df0) 0)
      /\ f_agent_distances df = f_agent_distances df0
      /\ f_malfunctions df = f_malfunctions df0
      /\ f_target_distances df = f_target_distances df0
      /\ f_c_nodes df = f_c_nodes df0
      /\ f_deadlock_distances df = f_deadlock_distances df0.
Proof.
  intros g u agents self handle prediction packed_positions packed_weights
         turns_to_deviation prev_deadlocks prev_num_agents df H.
  unfold _fill_path_values in H.
  apply bind_ret in H.
  destruct H as ([[positions positions_weights] path_weights] & Esel & H).
  apply bind_ret in H. destruct H as ([[na ds] ms] & Eaip & H).
  apply bind_ret in H. destruct H as (td & Etd & H).
  apply bind_ret in H. destruct H as (cn & Ecn & H).
  apply bind_ret in H. destruct H as ([dl ct] & Efd & H).
  inversion H. subst df. clear H.
  destruct (agents_in_path_seeded _ _ _ _ _ _ _ _ _ _ _ Eaip)
    as (na0 & Eaip0 & Hna).
  destruct (find_deadlocks_seeded _ _ _ _ _ _ _ _ _ _ Efd)
    as (dl0 & Efd0 & Hdl).
  exists {| f_num_agents := na0;
            f_agent_distances := ds;
            f_malfunctions := ms;
            f_target_distances := td;
            f_c_nodes := cn;
            f_deadlocks := dl0;
            f_deadlock_distances := ct |}.
  split.
  - unfold _fill_path_values. rewrite Esel. cbn [bind].
    rewrite Eaip0. cbn [bind]. rewrite Etd. cbn [bind].
    rewrite Ecn. cbn [bind]. rewrite Efd0. reflexivity.
  - simpl. repeat split; auto.
Qed.

Lemma seeds_ret : forall shortest_feats i prev_deadlocks prev_num_agents,
  seeds shortest_feats i = Ret (prev_deadlocks, prev_num_agents) ->
  (i = 0%nat -> prev_deadlocks = 0 /\ prev_num_agents = None)
  /\ ((1 <= i)%nat ->
      nth_error (f_deadlocks shortest_feats) (i - 1) = Some prev_deadlocks
      /\ exists prev,
           prev_num_agents = Some prev
           /\ length prev = length (f_num_agents shortest_feats)
           /\ forall c channel,
                nth_error (f_num_agents shortest_feats) c = Some channel ->
                nth_error channel (i - 1) = Some (nth c prev 0)).
Proof.
  intros sf i prev_deadlocks prev_num_agents H. unfold seeds in H.
  destruct (1 <=? i)%nat eqn:Ei.
  - apply Nat.leb_le in Ei.
    apply bind_ret in H. destruct H as (pd & Epd & H).
    apply bind_ret in H. destruct H as (pn & Epn & H).
    inversion H. subst. split; [intro; lia|]. intros _.
    split; [apply item_ret; exact Epd|].
    exists pn. split; [reflexivity|].
    destruct (mapM_ret _ _ _ Epn) as [Hlen Hnth]. split; [exact Hlen|].
    intros c channel Hc. destruct (Hnth c channel Hc) as (y & Hy & Hyc).
    apply item_ret in Hy. rewrite Hy. f_equal.
    symmetry. exact (nth_error_nth _ _ 0 Hyc).
  - apply Nat.leb_gt in Ei. inversion H. subst.
    split; [auto | intro; lia].
Qed.

(** C3 (amended): the deviation path number i >= 1 starts its deadlock
    count from the deadlock count of the shortest path at the node i-1,
    the node before the one it branches from, and its four agent counts
    from those of the shortest path at the node i-1; the first deviation
    path starts from 0.  At every index the counts of the deviation path
    are these starting values plus the counts of the same computation
    started from nothing, and the other features do not depend on the
    starting values.  When the path starts some ticks away (the cumulative
    weight of the shortest path at the node i is not 0), that computation
    is the scan of the deviation path itself: the conflict detector over
    its nodes and the deadlock predictor over its positions, both with its
    own cumulative weights, which start at that number of ticks. *)
Theorem deviation_starts_one_node_earlier :
  forall g u agents self handle packed_positions packed_weights
         shortest_feats i deviation_prediction dev_feats,
    deviation_feats g u agents self handle packed_positions packed_weights
      shortest_feats i deviation_prediction = Ret dev_feats ->
    exists prev_deadlocks prev_num_agents turns_to_deviation unseeded,
      seeds shortest_feats i = Ret (prev_deadlocks, prev_num_agents)
      /\ (i = 0%nat -> prev_deadlocks = 0 /\ prev_num_agents = None)
      /\ ((1 <= i)%nat ->
          nth_error (f_deadlocks shortest_feats) (i - 1) = Some prev_deadlocks
          /\ forall c channel,
               nth_error (f_num_agents shortest_feats) c = Some channel ->
               nth_error channel (i - 1)
               = Some (seed_value prev_num_agents c))
      /\ item2 (_shortest_cum_weights self) handle i = Ret turns_to_deviation
      /\ _fill_path_values g u agents self handle deviation_prediction
           packed_positions packed_weights turns_to_deviation 0 None
         = Ret unseeded
      /\ (forall k,
            (k < max_depth self)%nat ->
            nth k (f_deadlocks dev_feats) 0 =
              prev_deadlocks + nth k (f_deadlocks unseeded) 0)
      /\ (forall k c,
            (k < max_depth self)%nat -> (c < 4)%nat ->
            nth k (nth c (f_num_agents dev_feats) []) 0 =
              seed_value prev_num_agents c
              + nth k (nth c (f_num_agents unseeded) []) 0)
      /\ f_agent_distances dev_feats = f_agent_distances unseeded
      /\ f_malfunctions dev_feats = f_malfunctions unseeded
      /\ f_target_distances dev_feats = f_target_distances unseeded
      /\ f_c_nodes dev_feats = f_c_nodes unseeded
      /\ f_deadlock_distances dev_feats = f_deadlock_distances unseeded
      /\ (~ (turns_to_deviation == 0)%Q ->
          exists weights,
            compute_cumulative_weights self handle
              (edges deviation_prediction) turns_to_deviation = Ret weights
            /\ let path_weights :=
                 weights ++ repeat 0%Q (max_depth self - length weights) in
               agents_in_path g u agents self handle
                 (path deviation_prediction) path_weights None
               = Ret (f_num_agents unseeded, f_agent_distances unseeded,
                      f_malfunctions unseeded)
               /\ find_deadlocks u self handle
                    (map node_pos (path deviation_prediction)) path_weights
                    packed_positions packed_weights 0
                  = Ret (f_deadlocks unseeded, f_deadlock_distances unseeded)).
Proof.
  intros g u agents self handle packed_positions packed_weights
         shortest_feats i deviation_prediction dev_feats H.
  unfold deviation_feats in H.
  apply bind_ret in H.
  destruct H as ([prev_deadlocks prev_num_agents] & Eseeds & H).
  apply bind_ret in H. destruct H as (turns_to_deviation & Ettd & H).
  destruct (_fill_path_values_seeded _ _ _ _ _ _ _ _ _ _ _ _ H)
    as (unseeded & Hun & Hna & Hdl & Hrest).
  destruct (seeds_ret _ _ _ _ Eseeds) as [Hzero Hpos].
  exists prev_deadlocks, prev_num_agents, turns_to_deviation, unseeded.
  split; [exact Eseeds|]. split; [exact Hzero|]. split.
  { intro Hi. destruct (Hpos Hi) as (Hpd & prev & -> & _ & Hch).
    split; [exact Hpd | exact Hch]. }
  split; [exact Ettd|]. split; [exact Hun|]. split; [exact Hdl|].
  split; [exact Hna|].
  destruct Hrest as (H1 & H2 & H3 & H4 & H5).
  repeat (split; [assumption|]).
  intro Hne.
  destruct (_fill_path_values_inv _ _ _ _ _ _ _ _ _ _ _ _ Hun)
    as (positions & positions_weights & path_weights
        & Einputs & Eaip & _ & _ & Efd).
  destruct (path_inputs_deviation _ _ _ _ _ _ _ _ _ Hne Einputs)
    as (weights & Ews & _ & Epw & Epos & Eposw).
  exists weights. split; [exact Ews|]. cbv zeta.
  subst positions positions_weights path_weights.
  split; [exact Eaip | exact Efd].
Qed.

Lemma deviation_starts_one_node_earlier_witness :
  deviation_feats track utils_model trains at_tick 0
    (fst packed_at_tick) (snd packed_at_tick) east_feats 2
    (nth 2 east_deviations east_shortest) = Ret east_third_feats
  /\ exists prev_deadlocks unseeded,
       nth_error (f_deadlocks east_feats) 1 = Some prev_deadlocks
       /\ (forall k,
             (k < 4)%nat ->
             nth k (f_deadlocks east_third_feats) 0 =
               prev_deadlocks + nth k (f_deadlocks unseeded) 0)
       /\ exists weights,
            compute_cumulative_weights at_tick 0
              (edges (nth 2 east_deviations east_shortest)) 6 = Ret weights
            /\ find_deadlocks utils_model at_tick 0
                 (map node_pos (path (nth 2 east_deviations east_shortest)))
                 (weights ++ repeat 0%Q (4 - length weights))
                 (fst packed_at_tick) (snd packed_at_tick) 0
               = Ret (f_deadlocks unseeded, f_deadlock_distances unseeded).
Proof.
  assert (E : deviation_feats track utils_model trains at_tick 0
                (fst packed_at_tick) (snd packed_at_tick) east_feats 2
                (nth 2 east_deviations east_shortest) = Ret east_third_feats)
    by (vm_compute; reflexivity).
  split; [exact E|].
  destruct (deviation_starts_one_node_earlier _ _ _ _ _ _ _ _ _ _ _ E)
    as (prev_deadlocks & prev_num_agents & ttd & unseeded
        & _ & _ & Hpos & Ettd & _ & Hdl & _ & _ & _ & _ & _ & _ & Hscan).
  assert (Ettd' : item2 (_shortest_cum_weights at_tick) 0 2 = Ret 6%Q)
    by (vm_compute; reflexivity).
  rewrite Ettd' in Ettd. inversion Ettd. subst ttd.
  destruct (Hscan ltac:(discriminate)) as (weights & Ews & _ & Efd).
  exists prev_deadlocks, unseeded.
  split; [exact (proj1 (Hpos ltac:(lia)))|]. split; [exact Hdl|].
  exists weights. split; [exact Ews | exact Efd].
Defined.

(** C3 (as stated) fails.  The shortest path of train 0 has the deadlock
    counts 0, 1, 1, 1.  The second deviation path branches from node 1,
    where the count is 1, and starts from 0.  The third one branches from
    node 2 and has the count 1 and one agent of the other direction at its
    index 0, which is before the branch point, where the shortest path
    has 0 and 0. *)
Lemma deviation_baseline_is_not_branch_node :
  f_deadlocks east_feats = [0; 1; 1; 1]
  /\ seeds east_feats 1 = Ret (0, Some [0; 0; 0; 0])
  /\ nth_error (f_deadlocks east_feats) 1 = Some 1
  /\ deviation_feats track utils_model trains at_tick 0
       (fst packed_at_tick) (snd packed_at_tick) east_feats 2
       (nth 2 east_deviations east_shortest) = Ret east_third_feats
  /\ nth 0 (f_deadlocks east_third_feats) 0 = 1
  /\ nth 0 (f_deadlocks east_feats) 0 = 0
  /\ nth 0 (nth 1 (f_num_agents east_third_feats) []) 0 = 1
  /\ nth 0 (nth 1 (f_num_agents east_feats) []) 0 = 0.
Proof.
  repeat split; vm_compute; reflexivity.
Qed.

(** The counters are as [counters_ok] wants them right after a reset, when
    the graph reports non-negative distances and the speeds are in (0,1]. *)
Lemma init_counters_ok : forall g depth agents,
  (forall position, 0 <= snd (previous_node g position)) ->
  Forall (fun a => (0 < speed a)%Q /\ (speed a <= 1)%Q) agents ->
  counters_ok (_init_agents g depth agents).
Proof.
  intros g depth agents Hprev Hspeed. unfold counters_ok, _init_agents. simpl.
  split; apply Forall_nth_error; intros i x Hx;
    rewrite !nth_error_map, nth_error_enumerate in Hx;
    destruct (nth_error agents i) as [a|] eqn:Ea; try discriminate;
    simpl in Hx;
    destruct (Forall_at _ _ _ _ Hspeed Ea) as [Hpos Hle];
    destruct (times_per_cell_floor _ Hpos Hle) as [_ Htimes];
    pose proof (Hprev (get_agent_cell g i)) as Hw;
    destruct (previous_node g (get_agent_cell g i)) as [prev_node prev_weight];
    simpl in Hx, Hw; inversion Hx; simpl.
  - apply Z.mul_nonneg_nonneg; lia.
  - lia.
Qed.

(** ** The stored distance after a match *)

Lemma item2_set2 : forall {A : Type} (a : list (list A)) (i c : nat) (x v : A),
  item2 a i c = Ret x -> item2 (set2 a i c v) i c = Ret v.
Proof.
  intros A a i c x v H. unfold item2, set2 in *.
  apply bind_ret in H. destruct H as (row & Hrow & Hx).
  apply item_ret in Hrow. apply item_ret in Hx.
  unfold item. rewrite nth_error_upd_at_eq, Hrow. simpl.
  rewrite nth_error_upd_at_eq, Hx. reflexivity.
Qed.

(** After an iteration that matches another agent, the distance stored at
    the matched index and direction is the one chosen by the tie-break
    between the stored value and the proposed distance. *)
Lemma conflict_distance_stored :
  forall g u agents self handle path cum_weights agent
         num_agents distances malfunctions
         position node next_node_distance other_node index
         cw me other stored a worst num_agents' distances' malfunctions',
    get_agent_cell g agent = Some position ->
    next_node g position = (node, next_node_distance) ->
    first_match u path (get_nodes g (node_pos node)) = Some (other_node, index) ->
    item cum_weights index = Ret cw ->
    item (speed_data self) handle = Ret me ->
    item (speed_data self) agent = Ret other ->
    item agents agent = Ret a ->
    let direction :=
      direction_of path node other_node (successors g node) index in
    item2 distances index direction = Ret stored ->
    item2 malfunctions index direction = Ret worst ->
    agents_in_path_step g u agents self handle path cum_weights
      (num_agents, distances, malfunctions) agent
    = Ret (num_agents', distances', malfunctions') ->
    item2 distances' index direction =
      Ret (updated_distance stored
             (Fin (candidate_distance me other cw next_node_distance direction))).
Proof.
  intros g u agents self handle path cum_weights agent
         num_agents distances malfunctions
         position node nnd other_node index cw me other stored a worst
         num_agents' distances' malfunctions'
         Hcell Hnext Hmatch Hcw Hme Hother Ha direction Hstored Hworst Hstep.
  rewrite (agents_in_path_step_match g u agents self handle path cum_weights
             agent num_agents distances malfunctions position node nnd
             other_node index cw me other stored a worst
             Hcell Hnext Hmatch Hcw Hme Hother Ha Hstored Hworst) in Hstep.
  inversion Hstep. fold direction. unfold updated_distance.
  destruct (replaces stored
              (Fin (candidate_distance me other cw nnd direction))).
  - apply (item2_set2 _ _ _ stored). exact Hstored.
  - exact Hstored.
Qed.

(** ** The conflict detector returns *)

Lemma shaped_np_full : forall {A : Type} (rows cols : nat) (v : A),
  shaped rows cols (np_full rows (np_full cols v)).
Proof.
  intros A rows cols v. unfold shaped, np_full. split.
  - apply repeat_length.
  - apply Forall_forall. intros row Hrow.
    apply repeat_spec in Hrow. subst. apply repeat_length.
Qed.

Lemma shaped_set2 : forall {A : Type} (rows cols : nat) (a : list (list A)) i c (v : A),
  shaped rows cols a -> shaped rows cols (set2 a i c v).
Proof.
  intros A rows cols a i c v [Hlen Hall]. unfold shaped, set2. split.
  - rewrite length_upd_at. exact Hlen.
  - apply Forall_upd_at; [exact Hall|]. intros row Hrow.
    rewrite length_upd_at. exact (Forall_at _ _ _ _ Hall Hrow).
Qed.

Lemma item2_shaped : forall {A : Type} (rows cols : nat) (a : list (list A)) i c,
  shaped rows cols a -> (i < rows)%nat -> (c < cols)%nat ->
  exists x, item2 a i c = Ret x.
Proof.
  intros A rows cols a i c [Hlen Hall] Hi Hc. unfold item2.
  destruct (item_lt a i ltac:(lia)) as (row & Hrow). rewrite Hrow. cbn [bind].
  apply item_lt. apply item_ret in Hrow.
  rewrite (Forall_at _ _ _ _ Hall Hrow). exact Hc.
Qed.

Lemma first_match_index : forall u path nodes other_node index,
  first_match u path nodes = Some (other_node, index) ->
  get_index u path other_node = Some index.
Proof.
  intros u path nodes. induction nodes as [|n rest IH];
    intros other_node index H; simpl in H; [discriminate|].
  destruct (get_index u path n) as [i|] eqn:E.
  - inversion H. subst. exact E.
  - apply IH. exact H.
Qed.

Section Returns.

Variables (g : CellOrientationGraph) (u : Utils) (agents : list Agent).
Variables (self : CustomObservation) (handle : nat).
Variables (path : list Node) (cum_weights : list Q).

Hypothesis index_in_path :
  forall n i, get_index u path n = Some i -> (i < length path)%nat.
Hypothesis path_fits : (length path <= max_depth self)%nat.
Hypothesis weights_fit : (length path <= length cum_weights)%nat.
Hypothesis my_speed : (handle < length (speed_data self))%nat.

Lemma agents_in_path_step_returns : forall na ds ms agent,
  shaped (max_depth self) 2 ds ->
  shaped (max_depth self) 2 ms ->
  (agent < length (speed_data self))%nat ->
  (agent < length agents)%nat ->
  exists na' ds' ms',
    agents_in_path_step g u agents self handle path cum_weights
      (na, ds, ms) agent = Ret (na', ds', ms')
    /\ shaped (max_depth self) 2 ds'
    /\ shaped (max_depth self) 2 ms'.
Proof.
  intros na ds ms agent Hds Hms Hspeed Hagent.
  destruct (get_agent_cell g agent) as [position|] eqn:Ecell.
  2:{ exists na, ds, ms. unfold agents_in_path_step. rewrite Ecell. auto. }
  destruct (next_node g position) as [node next_node_distance] eqn:Enext.
  destruct (first_match u path (get_nodes g (node_pos node)))
    as [[other_node index]|] eqn:Ematch.
  2:{ exists na, ds, ms. unfold agents_in_path_step.
      rewrite Ecell, Enext, Ematch. auto. }
  pose proof (index_in_path _ _ (first_match_index _ _ _ _ _ Ematch)) as Hindex.
  destruct (item_lt cum_weights index ltac:(lia)) as (cw & Ecw).
  destruct (item_lt (speed_data self) handle my_speed) as (me & Eme).
  destruct (item_lt (speed_data self) agent Hspeed) as (other & Eother).
  destruct (item_lt agents agent Hagent) as (a & Ea).
  assert (Hdir : (direction_of path node other_node (successors g node) index
                  < 2)%nat).
  { destruct (direction_of_cases path node other_node (successors g node) index)
      as [-> | ->]; lia. }
  destruct (item2_shaped _ _ ds index _ Hds ltac:(lia) Hdir) as (stored & Est).
  destruct (item2_shaped _ _ ms index _ Hms ltac:(lia) Hdir) as (worst & Ewo).
  rewrite (agents_in_path_step_match g u agents self handle path cum_weights
             agent na ds ms position node next_node_distance other_node index
             cw me other stored a worst
             Ecell Enext Ematch Ecw Eme Eother Ea Est Ewo).
  eexists. eexists. eexists. split; [reflexivity|]. cbv zeta. split.
  - match goal with
    | |- context [if ?b then _ else _] => destruct b
    end; [apply shaped_set2|]; exact Hds.
  - destruct (worst <? malfunction a); [apply shaped_set2|]; exact Hms.
Qed.

Lemma agents_in_path_fold_returns : forall others na ds ms,
  shaped (max_depth self) 2 ds ->
  shaped (max_depth self) 2 ms ->
  Forall (fun agent => (agent < length (speed_data self))%nat
                       /\ (agent < length agents)%nat) others ->
  exists st,
    foldM (agents_in_path_step g u agents self handle path cum_weights)
          others (na, ds, ms) = Ret st.
Proof.
  intros others. induction others as [|agent rest IH];
    intros na ds ms Hds Hms Hall; cbn [foldM].
  - eauto.
  - inversion Hall as [|? ? [Hspeed Hagent] Hrest]. subst.
    destruct (agents_in_path_step_returns na ds ms agent Hds Hms Hspeed Hagent)
      as (na' & ds' & ms' & Hstep & Hds' & Hms').
    rewrite Hstep. cbn [bind]. apply IH; assumption.
Qed.

(** A call without seeding returns when the indices found by [get_index]
    lie in the path, the path fits the arrays, and every agent involved
    has its speed data and its entry in the environment. *)
Lemma agents_in_path_returns : forall others,
  nth_error (other_agents self) handle = Some others ->
  Forall (fun agent => (agent < length (speed_data self))%nat
                       /\ (agent < length agents)%nat) others ->
  exists num_agents distances malfunctions,
    agents_in_path g u agents self handle path cum_weights None
    = Ret (num_agents, distances, malfunctions).
Proof.
  intros others Hothers Hall.
  unfold agents_in_path, agents_in_path_loop, seed_num_agents. cbn [bind].
  apply item_ret in Hothers. rewrite Hothers. cbn [bind].
  destruct (agents_in_path_fold_returns others
              (np_full (max_depth self) (np_full 4 0))
              (np_full (max_depth self) (np_full 2 PInf))
              (np_full (max_depth self) (np_full 2 0)))
    as ([[na ds] ms] & Hfold); try apply shaped_np_full; [exact Hall|].
  rewrite Hfold. cbn [bind]. eauto.
Qed.

End Returns.

(** * Further properties of the code *)

(** ** Reset *)

Lemma In_handles_but : forall handles handle a,
  In a (handles_but handles handle) <-> In a handles /\ a <> handle.
Proof.
  intros handles handle a. unfold handles_but. rewrite filter_In.
  rewrite negb_true_iff, Nat.eqb_neq. tauto.
Qed.

Lemma NoDup_filter : forall {A : Type} (f : A -> bool) (l : list A),
  NoDup l -> NoDup (filter f l).
Proof.
  intros A f l H. induction H as [|x l Hx Hl IH]; simpl.
  - constructor.
  - destruct (f x); [|exact IH]. constructor; [|exact IH].
    intro Hin. apply filter_In in Hin. tauto.
Qed.

(** X1: After a reset every table has one entry per agent, no agent has
    remaining ticks, and the other agents of a handle are all the handles
    but this one, each once. *)
Theorem init_agents_tables :
  forall g depth agents,
    tables_sized (_init_agents g depth agents) (length agents)
    /\ max_depth (_init_agents g depth agents) = depth
    /\ length (other_agents (_init_agents g depth agents)) = length agents
    /\ Forall (fun sd => remaining sd = 0)
              (speed_data (_init_agents g depth agents))
    /\ (forall handle,
          (handle < length agents)%nat ->
          exists others,
            nth_error (other_agents (_init_agents g depth agents)) handle
            = Some others
            /\ NoDup others
            /\ forall a, In a others <-> (a < length agents)%nat /\ a <> handle).
Proof.
  intros g depth agents. unfold tables_sized, _init_agents. simpl.
  assert (Hen : length (enumerate agents) = length agents).
  { unfold enumerate. rewrite length_combine, length_seq. apply Nat.min_id. }
  rewrite !length_map, length_seq, Hen.
  repeat split; try reflexivity.
  - apply Forall_nth_error. intros i sd Hi.
    rewrite !nth_error_map, nth_error_enumerate in Hi.
    destruct (nth_error agents i); [|discriminate]. simpl in Hi.
    destruct (previous_node g (get_agent_cell g i)). inversion Hi. reflexivity.
  - intros handle Hh.
    exists (handles_but (seq 0 (length agents)) handle).
    split.
    + rewrite nth_error_map.
      rewrite (nth_error_nth' (seq 0 (length agents)) 0%nat)
        by (rewrite length_seq; exact Hh).
      rewrite seq_nth by exact Hh. reflexivity.
    + split.
      * apply NoDup_filter. apply seq_NoDup.
      * intro a. rewrite In_handles_but, in_seq. split; intros [H1 H2]; split;
          try assumption; lia.
Qed.

(** ** The update of one agent *)

Lemma compute_cumulative_weights_returns :
  forall self handle edges initial_distance,
    (handle < length (speed_data self))%nat \/ edges = [] ->
    exists ws,
      compute_cumulative_weights self handle edges initial_distance = Ret ws
      /\ length ws = S (length edges).
Proof.
  intros self handle edges init H. unfold compute_cumulative_weights.
  destruct (mapM_spec
              (fun e => sd <- item (speed_data self) handle ;;
                        Ret (e_weight e * inject_Z (times sd))%Q) edges)
    as (weights & Hw & Hlen & _).
  { intros i e Hi. destruct H as [H | H].
    - destruct (item_lt _ _ H) as (sd & Hsd). rewrite Hsd. cbn [bind]. eauto.
    - subst. destruct i; discriminate. }
  rewrite Hw. cbn [bind]. eexists. split; [reflexivity|].
  simpl. rewrite length_np_cumsum_from, Hlen. reflexivity.
Qed.

(** Everything that [_update_shortest] reads and writes. *)
Lemma _update_shortest_inv :
  forall g agents self handle prediction self',
    _update_shortest g agents self handle prediction = Ret self' ->
    exists a sd paths_row pos_row cw_row ws first last_position,
      nth_error agents handle = Some a
      /\ nth_error (speed_data self) handle = Some sd
      /\ nth_error (_shortest_paths self) handle = Some paths_row
      /\ (length (path prediction) <= length paths_row)%nat
      /\ nth_error (_shortest_positions self) handle = Some pos_row
      /\ (length (path prediction) <= length pos_row)%nat
      /\ compute_cumulative_weights self' handle (edges prediction)
           (inject_Z (remaining_turns_in_cell a)) = Ret ws
      /\ nth_error (_shortest_cum_weights self) handle = Some cw_row
      /\ (length ws <= length cw_row)%nat
      /\ nth_error (path prediction) 0 = Some first
      /\ nth_error (last_positions self) handle = Some last_position
      /\ max_depth self' = max_depth self
      /\ agent_handles self' = agent_handles self
      /\ other_agents self' = other_agents self
      /\ speed_data self' =
           upd_at handle
             (fun _ => {| times := times sd;
                          remaining := remaining_turns_in_cell a |})
             (speed_data self)
      /\ _shortest_paths self' =
           upd_at handle
             (fun _ => path prediction
                       ++ skipn (length (path prediction)) paths_row)
             (_shortest_paths self)
      /\ _shortest_positions self' =
           upd_at handle
             (fun _ => map node_pos (path prediction)
                       ++ skipn (length (path prediction)) pos_row)
             (_shortest_positions self)
      /\ _shortest_cum_weights self' =
           upd_at handle (fun _ => ws ++ skipn (length ws) cw_row)
                  (_shortest_cum_weights self)
      /\ ((opt_node_eqb last_position first = true
           /\ last_nodes self' = last_nodes self
           /\ last_positions self' = last_positions self)
          \/ (opt_node_eqb last_position first = false
              /\ last_positions self' =
                   upd_at handle (fun _ => Some first) (last_positions self)
              /\ exists ln,
                   nth_error (last_nodes self) handle = Some ln
                   /\ last_nodes self' =
                        upd_at handle
                          (fun _ => if graph_nodes g first
                                    then (first, 0)
                                    else (fst ln, snd ln + 1))
                          (last_nodes self))).
Proof.
  intros g agents self handle prediction self' H.
  unfold _update_shortest in H.
  apply bind_ret in H. destruct H as (a & Ea & H).
  apply bind_ret in H. destruct H as (sd & Esd & H).
  apply bind_ret in H. destruct H as (paths_row & Epr & H).
  apply bind_ret in H. destruct H as (paths_row' & Epf & H).
  apply bind_ret in H. destruct H as (pos_row & Eor & H).
  apply bind_ret in H. destruct H as (pos_row' & Eof & H).
  apply bind_ret in H. destruct H as (ws & Ews & H).
  apply bind_ret in H. destruct H as (cw_row & Ecw & H).
  apply bind_ret in H. destruct H as (cw_row' & Ecf & H).
  apply bind_ret in H. destruct H as (first & Efirst & H).
  apply bind_ret in H. destruct H as (last_position & Elp & H).
  apply fill_prefix_ret in Epf. destruct Epf as [Hpl ->].
  apply fill_prefix_ret in Eof. destruct Eof as [Hol ->].
  apply fill_prefix_ret in Ecf. destruct Ecf as [Hcl ->].
  rewrite length_map in Hol. rewrite length_map in H.
  apply item_ret in Ea. apply item_ret in Esd. apply item_ret in Epr.
  apply item_ret in Eor. apply item_ret in Ecw. apply item_ret in Efirst.
  apply item_ret in Elp.
  exists a, sd, paths_row, pos_row, cw_row, ws, first, last_position.
  destruct (opt_node_eqb last_position first) eqn:Esame; simpl in H.
  - inversion H. simpl.
    repeat (split; [first [assumption | reflexivity]|]).
    left. auto.
  - apply bind_ret in H. destruct H as (last_nodes' & Eln & H).
    inversion H. simpl.
    repeat (split; [first [assumption | reflexivity]|]).
    right. split; [reflexivity|]. split; [reflexivity|].
    destruct (graph_nodes g first).
    + apply bind_ret in Eln. destruct Eln as (ln & Eln & Hln).
      inversion Hln. apply item_ret in Eln. eauto.
    + apply bind_ret in Eln. destruct Eln as (ln & Eln & Hln).
      inversion Hln. apply item_ret in Eln. eauto.
Qed.

Lemma opt_node_eqb_eq : forall lp first,
  opt_node_eqb lp first = true <-> lp = Some first.
Proof.
  intros [n|] first; simpl.
  - rewrite node_eqb_eq. split; intro H; [subst | inversion H]; reflexivity.
  - split; discriminate.
Qed.

Lemma _update_shortest_frame :
  forall g agents self handle prediction self',
    _update_shortest g agents self handle prediction = Ret self' ->
    max_depth self' = max_depth self
    /\ agent_handles self' = agent_handles self
    /\ other_agents self' = other_agents self
    /\ forall h, h <> handle -> agent_view self' h = agent_view self h.
Proof.
  intros g agents self handle prediction self' H.
  destruct (_update_shortest_inv _ _ _ _ _ _ H)
    as (a & sd & paths_row & pos_row & cw_row & ws & first & lp
        & _ & _ & _ & _ & _ & _ & _ & _ & _ & _ & _
        & Hmd & Hah & Hoa & Hsd & Hp & Ho & Hc & Hlast).
  repeat (split; [assumption|]).
  intros h Hne. unfold agent_view.
  rewrite Hsd, Hp, Ho, Hc, !nth_error_upd_at_neq by exact Hne.
  destruct Hlast as [(_ & -> & ->) | (_ & -> & ln & _ & ->)];
    rewrite ?nth_error_upd_at_neq by exact Hne; reflexivity.
Qed.

(** X2: [_update_shortest] touches the entries of its own agent only. *)
Theorem update_leaves_other_agents :
  forall g agents self handle prediction self',
    _update_shortest g agents self handle prediction = Ret self' ->
    max_depth self' = max_depth self
    /\ agent_handles self' = agent_handles self
    /\ other_agents self' = other_agents self
    /\ forall h, h <> handle -> agent_view self' h = agent_view self h.
Proof.
  exact _update_shortest_frame.
Qed.

Lemma update_leaves_other_agents_witness :
  agent_view
    (or_else at_tick (_update_shortest track trains at_tick 0 east_shortest)) 1
  = agent_view at_tick 1.
Proof.
  refine (proj2 (proj2 (proj2
            (update_leaves_other_agents track trains at_tick 0%nat
               east_shortest _ _))) 1%nat _).
  - vm_compute. reflexivity.
  - discriminate.
Defined.

(** X3: The last visited node follows the agent: nothing changes while the
    path starts in the cell seen last; on a new cell that is a node of the
    graph the node is stored with 0 ticks, on any other new cell the ticks
    since the stored node grow by one. *)
Theorem last_node_tracking :
  forall g agents self handle prediction self',
    _update_shortest g agents self handle prediction = Ret self' ->
    exists first last_position,
      nth_error (path prediction) 0 = Some first
      /\ nth_error (last_positions self) handle = Some last_position
      /\ nth_error (last_positions self') handle = Some (Some first)
      /\ (last_position = Some first ->
          nth_error (last_nodes self') handle
          = nth_error (last_nodes self) handle)
      /\ (last_position <> Some first ->
          exists ln,
            nth_error (last_nodes self) handle = Some ln
            /\ (graph_nodes g first = true ->
                nth_error (last_nodes self') handle = Some (first, 0))
            /\ (graph_nodes g first = false ->
                nth_error (last_nodes self') handle
                = Some (fst ln, snd ln + 1))).
Proof.
  intros g agents self handle prediction self' H.
  destruct (_update_shortest_inv _ _ _ _ _ _ H)
    as (a & sd & paths_row & pos_row & cw_row & ws & first & lp
        & _ & _ & _ & _ & _ & _ & _ & _ & _ & Hfirst & Hlp
        & _ & _ & _ & _ & _ & _ & _ & Hlast).
  exists first, lp. split; [exact Hfirst|]. split; [exact Hlp|].
  destruct Hlast as [(Esame & Hln & Hlps) | (Ediff & Hlps & ln & Eln & Hln)].
  - apply opt_node_eqb_eq in Esame. subst lp.
    rewrite Hlps, Hln. split; [exact Hlp|]. split; [reflexivity|].
    intro Hne. exfalso. apply Hne. reflexivity.
  - rewrite Hlps, Hln, !nth_error_upd_at_eq, Hlp, Eln. simpl.
    split; [reflexivity|]. split.
    + intro Hsame. apply opt_node_eqb_eq in Hsame. congruence.
    + intros _. exists ln. split; [reflexivity|].
      split; intro Hg; rewrite Hg; reflexivity.
Qed.

Lemma last_node_tracking_witness :
  exists first last_position,
    nth_error (path moved_west) 0 = Some first
    /\ nth_error (last_positions at_tick) 1 = Some last_position
    /\ nth_error (last_positions west_moved) 1 = Some (Some first)
    /\ (last_position = Some first ->
        nth_error (last_nodes west_moved) 1 = nth_error (last_nodes at_tick) 1)
    /\ (last_position <> Some first ->
        exists ln,
          nth_error (last_nodes at_tick) 1 = Some ln
          /\ (graph_nodes track first = true ->
              nth_error (last_nodes west_moved) 1 = Some (first, 0))
          /\ (graph_nodes track first = false ->
              nth_error (last_nodes west_moved) 1 = Some (fst ln, snd ln + 1))).
Proof.
  apply (last_node_tracking track trains at_tick 1%nat moved_west west_moved).
  vm_compute. reflexivity.
Defined.

Lemma shaped_upd_at : forall {A : Type} (rows cols : nat) (a : list (list A))
  (i : nat) (row : list A),
  shaped rows cols a ->
  length row = cols ->
  shaped rows cols (upd_at i (fun _ => row) a).
Proof.
  intros A rows cols a i row [Hlen Hall] Hrow. split.
  - rewrite length_upd_at. exact Hlen.
  - apply Forall_upd_at; [exact Hall|]. intros _ _. exact Hrow.
Qed.

Lemma shaped_row : forall {A : Type} (rows cols : nat) (a : list (list A))
  (i : nat) (row : list A),
  shaped rows cols a -> nth_error a i = Some row -> length row = cols.
Proof.
  intros A rows cols a i row [_ Hall] Hrow.
  exact (Forall_at _ _ _ _ Hall Hrow).
Qed.

Lemma length_fill : forall {A : Type} (xs row : list A),
  (length xs <= length row)%nat ->
  length (xs ++ skipn (length xs) row) = length row.
Proof.
  intros A xs row H. rewrite length_app, length_skipn. lia.
Qed.

Lemma update_keeps_tables :
  forall g agents self handle prediction self' n,
    tables_sized self n ->
    _update_shortest g agents self handle prediction = Ret self' ->
    tables_sized self' n.
Proof.
  intros g agents self handle prediction self' n (Hs1 & Hs2 & Hs3 & Hs4) H.
  destruct (_update_shortest_inv _ _ _ _ _ _ H)
    as (a & sd & paths_row & pos_row & cw_row & ws & first & lp
        & _ & _ & _ & _ & _ & _ & _ & _ & _ & _ & _
        & _ & Hah & _ & Hsd & _ & _ & _ & Hlast).
  unfold tables_sized. rewrite Hsd, Hah, length_upd_at.
  destruct Hlast as [(_ & -> & ->) | (_ & -> & ln & _ & ->)];
    rewrite ?length_upd_at; auto.
Qed.

Lemma update_keeps_tick_shape :
  forall g agents self handle prediction self' n,
    tick_shaped self n ->
    _update_shortest g agents self handle prediction = Ret self' ->
    tick_shaped self' n.
Proof.
  intros g agents self handle prediction self' n (Ht1 & Ht2 & Ht3) H.
  destruct (_update_shortest_inv _ _ _ _ _ _ H)
    as (a & sd & paths_row & pos_row & cw_row & ws & first & lp
        & _ & _ & Epr & Hpl & Eor & Hol & _ & Ecw & Hcl & _ & _
        & Hmd & _ & _ & _ & Hp & Ho & Hc & _).
  unfold tick_shaped. rewrite Hmd, Hp, Ho, Hc. split; [|split].
  - apply shaped_upd_at; [exact Ht1|]. rewrite length_fill by exact Hpl.
    exact (shaped_row _ _ _ _ _ Ht1 Epr).
  - apply shaped_upd_at; [exact Ht2|].
    rewrite length_app, length_map, length_skipn.
    pose proof (shaped_row _ _ _ _ _ Ht2 Eor). lia.
  - apply shaped_upd_at; [exact Ht3|]. rewrite length_fill by exact Hcl.
    exact (shaped_row _ _ _ _ _ Ht3 Ecw).
Qed.

(** X4: On a builder of the right shape and of positive depth, the update of
    an agent whose speed is at least 2^-53 (so that the quotient by the
    speed is a finite float, which [int] takes) returns exactly when its
    path is not empty and neither the path nor the cumulative weights (one
    more than the edges) are longer than [max_depth]. *)
Theorem update_returns_iff :
  forall g agents self handle prediction n,
    (0 < max_depth self)%nat ->
    (forall a, nth_error agents handle = Some a -> (min_speed <= speed a)%Q) ->
    tables_sized self n ->
    tick_shaped self n ->
    (handle < n)%nat ->
    (handle < length agents)%nat ->
    (exists self', _update_shortest g agents self handle prediction = Ret self')
    <-> (path prediction <> []
         /\ (length (path prediction) <= max_depth self)%nat
         /\ (S (length (edges prediction)) <= max_depth self)%nat).
Proof.
  intros g agents self handle prediction n _ _
         (Hs1 & Hs2 & Hs3 & Hs4) (Ht1 & Ht2 & Ht3) Hh Ha.
  split.
  - intros (self' & H).
    destruct (_update_shortest_inv _ _ _ _ _ _ H)
      as (a & sd & paths_row & pos_row & cw_row & ws & first & lp
          & _ & Esd & Epr & Hpl & _ & _ & Hws & Ecw & Hcl & Hfirst & _
          & _ & _ & _ & Hsd & _).
    rewrite (shaped_row _ _ _ _ _ Ht1 Epr) in Hpl.
    rewrite (shaped_row _ _ _ _ _ Ht3 Ecw) in Hcl.
    destruct (compute_cumulative_weights_returns self' handle
                (edges prediction) (inject_Z (remaining_turns_in_cell a)))
      as (ws' & Hws' & Hlen).
    { left. rewrite Hsd, length_upd_at. lia. }
    rewrite Hws in Hws'. inversion Hws'. subst ws'.
    split; [|lia]. intro Hnil. rewrite Hnil in Hfirst. discriminate.
  - intros (Hne & Hpath & Hedges).
    unfold _update_shortest.
    destruct (item_lt agents handle Ha) as (a & Ea). rewrite Ea. cbn [bind].
    destruct (item_lt (speed_data self) handle ltac:(lia)) as (sd & Esd).
    rewrite Esd. cbn [bind].
    destruct Ht1 as [Hl1 Hr1]. destruct Ht2 as [Hl2 Hr2].
    destruct Ht3 as [Hl3 Hr3].
    destruct (item_lt (_shortest_paths self) handle ltac:(lia))
      as (paths_row & Epr).
    rewrite Epr. cbn [bind].
    pose proof (Forall_at _ _ _ _ Hr1 (proj1 (item_ret _ _ _) Epr)) as Hprl.
    cbv beta in Hprl.
    unfold fill_prefix at 1.
    rewrite (proj2 (Nat.leb_le _ _)) by lia. cbn [bind].
    destruct (item_lt (_shortest_positions self) handle ltac:(lia))
      as (pos_row & Eor).
    rewrite Eor. cbn [bind].
    pose proof (Forall_at _ _ _ _ Hr2 (proj1 (item_ret _ _ _) Eor)) as Horl.
    cbv beta in Horl.
    unfold fill_prefix at 1.
    rewrite (proj2 (Nat.leb_le _ _)) by (rewrite length_map; lia).
    cbn [bind].
    match goal with
    | |- context [compute_cumulative_weights ?s handle ?e ?i] =>
        destruct (compute_cumulative_weights_returns s handle e i)
          as (ws & Hws & Hlen)
    end.
    { left. simpl. rewrite length_upd_at. lia. }
    rewrite Hws. cbn [bind].
    destruct (item_lt (_shortest_cum_weights self) handle ltac:(lia))
      as (cw_row & Ecw).
    rewrite Ecw. cbn [bind].
    pose proof (Forall_at _ _ _ _ Hr3 (proj1 (item_ret _ _ _) Ecw)) as Hcrl.
    cbv beta in Hcrl.
    unfold fill_prefix at 1.
    rewrite (proj2 (Nat.leb_le _ _)) by lia. cbn [bind].
    destruct (path prediction) as [|first rest] eqn:Epath;
      [exfalso; apply Hne; reflexivity|].
    unfold item at 1. cbn [nth_error bind].
    destruct (item_lt (last_positions self) handle ltac:(lia)) as (lp & Elp).
    rewrite Elp. cbn [bind].
    destruct (negb (opt_node_eqb lp first)); [|eauto].
    destruct (item_lt (last_nodes self) handle ltac:(lia)) as (ln & Eln).
    rewrite Eln. cbn [bind].
    destruct (graph_nodes g first); cbn [bind]; eauto.
Qed.

Lemma update_returns_iff_witness :
  (exists self',
     _update_shortest track trains at_tick 0 east_shortest = Ret self')
  <-> (path east_shortest <> []
       /\ (length (path east_shortest) <= max_depth at_tick)%nat
       /\ (S (length (edges east_shortest)) <= max_depth at_tick)%nat).
Proof.
  apply (update_returns_iff track trains at_tick 0%nat east_shortest 2%nat).
  - vm_compute. lia.
  - intros a Ha. inversion Ha. vm_compute. discriminate.
  - vm_compute. repeat split.
  - vm_compute. repeat constructor.
  - lia.
  - simpl. lia.
Defined.

(** ** The rows written by [get_many] *)

Lemma mapM_pure : forall {A B : Type} (f : A -> res B) (h : A -> B) (l : list A),
  (forall x, In x l -> f x = Ret (h x)) -> mapM f l = Ret (map h l).
Proof.
  intros A B f h l. induction l as [|x t IH]; intro H; simpl.
  - reflexivity.
  - rewrite (H x (or_introl eq_refl)). cbn [bind].
    rewrite IH by (intros y Hy; apply H; right; exact Hy). reflexivity.
Qed.

Lemma compute_cumulative_weights_value :
  forall self handle edges initial_distance sd,
    nth_error (speed_data self) handle = Some sd ->
    compute_cumulative_weights self handle edges initial_distance
    = Ret (np_cumsum
             (initial_distance
              :: map (fun e => (e_weight e * inject_Z (times sd))%Q) edges)).
Proof.
  intros self handle edges init sd Hsd. unfold compute_cumulative_weights.
  rewrite (mapM_pure _ (fun e => (e_weight e * inject_Z (times sd))%Q)).
  - reflexivity.
  - intros e _. apply item_ret in Hsd. rewrite Hsd. reflexivity.
Qed.

Lemma update_writes_row :
  forall g agents self handle prediction self',
    row_blank self handle ->
    _update_shortest g agents self handle prediction = Ret self' ->
    row_written self' handle prediction.
Proof.
  intros g agents self handle prediction self' (Bp & Bo & Bc) H.
  destruct (_update_shortest_inv _ _ _ _ _ _ H)
    as (a & sd & paths_row & pos_row & cw_row & ws & first & lp
        & _ & Esd & Epr & _ & Eor & _ & Hws & Ecw & _ & _ & _
        & Hmd & _ & _ & Hsd & Hp & Ho & Hc & _).
  rewrite Bp in Epr. inversion Epr. subst paths_row.
  rewrite Bo in Eor. inversion Eor. subst pos_row.
  rewrite Bc in Ecw. inversion Ecw. subst cw_row.
  set (sd' := {| times := times sd;
                 remaining := remaining_turns_in_cell a |}) in *.
  assert (Esd' : nth_error (speed_data self') handle = Some sd').
  { rewrite Hsd, nth_error_upd_at_eq, Esd. reflexivity. }
  rewrite (compute_cumulative_weights_value _ _ _ _ sd' Esd') in Hws.
  inversion Hws as [Ews]. clear Hws.
  exists sd'. unfold row_written. rewrite Hmd, Hp, Ho, Hc.
  rewrite !nth_error_upd_at_eq, Bp, Bo, Bc. simpl option_map.
  rewrite !skipn_repeat.
  split; [exact Esd'|]. split; [reflexivity|]. split; [reflexivity|].
  subst ws. simpl. rewrite length_np_cumsum_from, length_map. reflexivity.
Qed.

Lemma agent_view_row_blank : forall s s' h,
  max_depth s' = max_depth s ->
  agent_view s' h = agent_view s h ->
  row_blank s h -> row_blank s' h.
Proof.
  unfold agent_view, row_blank. intros s s' h Hmd Hv (B1 & B2 & B3).
  inversion Hv. rewrite Hmd. repeat split; congruence.
Qed.

Lemma agent_view_row_written : forall s s' h p,
  max_depth s' = max_depth s ->
  agent_view s' h = agent_view s h ->
  row_written s h p -> row_written s' h p.
Proof.
  unfold agent_view, row_written. intros s s' h p Hmd Hv (sd & B0 & B1 & B2 & B3).
  inversion Hv. exists sd. rewrite Hmd. repeat split; congruence.
Qed.

Lemma get_many_fold_rows :
  forall g agents hps s s',
    NoDup (map fst hps) ->
    foldM (get_many_step g agents) hps s = Ret s' ->
    max_depth s' = max_depth s
    /\ agent_handles s' = agent_handles s
    /\ (forall n, tick_shaped s n -> tick_shaped s' n)
    /\ (forall h,
          (forall p, ~ In (h, Some p) hps) ->
          agent_view s' h = agent_view s h)
    /\ (forall h sp devs,
          In (h, Some (sp, devs)) hps ->
          (h < length (_shortest_paths s))%nat
          /\ (row_blank s h -> row_written s' h sp)).
Proof.
  intros g agents hps. induction hps as [|[h0 p0] rest IH];
    intros s s' Hnd H; simpl in H.
  - inversion H. subst.
    split; [reflexivity|]. split; [reflexivity|]. split; [auto|].
    split; [reflexivity|]. intros ? ? ? [].
  - apply bind_ret in H. destruct H as (s1 & Hstep & H).
    simpl in Hnd. inversion Hnd as [|? ? Hnotin Hnd']. subst.
    destruct (IH s1 s' Hnd' H) as (Hmd & Hah & Hshape & Hframe & Hrows).
    unfold get_many_step in Hstep. simpl in Hstep.
    destruct p0 as [[sp0 devs0]|]; simpl in Hstep.
    + destruct (_update_shortest_frame _ _ _ _ _ _ Hstep)
        as (Hmd1 & Hah1 & _ & Hview1).
      split; [congruence|]. split; [congruence|]. split.
      { intros n Hn. apply Hshape.
        exact (update_keeps_tick_shape _ _ _ _ _ _ _ Hn Hstep). }
      split.
      * intros h Hno. rewrite Hframe.
        -- apply Hview1. intro. subst h.
           apply (Hno (sp0, devs0)). left. reflexivity.
        -- intros p Hin. apply (Hno p). right. exact Hin.
      * intros h sp devs [Heq | Hin].
        -- inversion Heq. subst h sp devs. split.
           ++ destruct (_update_shortest_inv _ _ _ _ _ _ Hstep)
                as (a & sd & paths_row & pos_row & cw_row & ws & first & lp
                    & _ & _ & Epr & _).
              apply nth_error_Some. rewrite Epr. discriminate.
           ++ intro Hb. apply (agent_view_row_written s1 s' h0 sp0 Hmd).
              ** apply Hframe. intros p Hin. apply Hnotin.
                 change h0 with (fst (h0, Some p)). apply in_map. exact Hin.
              ** exact (update_writes_row _ _ _ _ _ _ Hb Hstep).
        -- destruct (Hrows h sp devs Hin) as (Hlt & Hw).
           assert (Hne : h <> h0).
           { intro. subst h. apply Hnotin.
             change h0 with (fst (h0, Some (sp, devs))). apply in_map.
             exact Hin. }
           pose proof (Hview1 h Hne) as Hv.
           split.
           ++ destruct (_update_shortest_inv _ _ _ _ _ _ Hstep)
                as (a & sd & paths_row & pos_row & cw_row & ws & first & lp
                    & _ & _ & _ & _ & _ & _ & _ & _ & _ & _ & _
                    & _ & _ & _ & _ & Hp & _).
              rewrite Hp, length_upd_at in Hlt. exact Hlt.
           ++ intro Hb. apply Hw.
              exact (agent_view_row_blank s s1 h Hmd1 Hv Hb).
    + inversion Hstep. subst s1.
      split; [exact Hmd|]. split; [exact Hah|]. split; [exact Hshape|].
      split.
      * intros h Hno. apply Hframe. intros p Hin. apply (Hno p). right.
        exact Hin.
      * intros h sp devs [Heq | Hin]; [discriminate|].
        exact (Hrows h sp devs Hin).
Qed.

(** X5: With a positive depth, [get_many] leaves the depth and the handles
    alone, keeps the size of the agent tables, and returns arrays with one
    row of [max_depth] entries per agent: the row of an agent with a
    prediction holds its shortest path, the positions of that path and its
    cumulative weights, each followed by the filler; the row of any other
    agent holds the filler only. *)
Theorem get_many_writes_rows :
  forall g agents self predictions self',
    (0 < max_depth self)%nat ->
    get_many g agents self predictions = Ret self' ->
    max_depth self' = max_depth self
    /\ agent_handles self' = agent_handles self
    /\ (forall n, tables_sized self n -> tables_sized self' n)
    /\ tick_shaped self' (length (agent_handles self))
    /\ (forall h sp devs,
          nth_error predictions h = Some (Some (sp, devs)) ->
          row_written self' h sp)
    /\ (forall h,
          (h < length (agent_handles self))%nat ->
          (forall p, nth_error predictions h <> Some (Some p)) ->
          row_blank self' h).
Proof.
  intros g agents self predictions self' _ H. unfold get_many in H.
  assert (Hin : forall h x, In (h, x) (enumerate predictions) ->
                            nth_error predictions h = Some x).
  { intros h x Hx. destruct (In_nth_error _ _ Hx) as (i & Hi).
    rewrite nth_error_enumerate in Hi.
    destruct (nth_error predictions i) as [y|] eqn:Ey; [|discriminate].
    simpl in Hi. inversion Hi. subst. exact Ey. }
  assert (Hni : forall h x, nth_error predictions h = Some x ->
                            In (h, x) (enumerate predictions)).
  { intros h x Hx. apply (nth_error_In _ h).
    rewrite nth_error_enumerate, Hx. reflexivity. }
  set (n := length (agent_handles self)) in *.
  match type of H with
  | foldM _ _ ?s0 = _ => set (self0 := s0) in *
  end.
  assert (Hblank : forall h, (h < n)%nat -> row_blank self0 h).
  { intros h Hh. unfold row_blank, self0, np_full. simpl.
    rewrite !nth_error_repeat_lt by exact Hh. auto. }
  assert (Htab : forall st x st' m,
             tables_sized st m ->
             get_many_step g agents st x = Ret st' -> tables_sized st' m).
  { intros st [h [[sp devs]|]] st' m Hm Hst; unfold get_many_step in Hst;
      simpl in Hst.
    - exact (update_keeps_tables _ _ _ _ _ _ _ Hm Hst).
    - inversion Hst. subst. exact Hm. }
  destruct (get_many_fold_rows g agents (enumerate predictions) self0 self')
    as (Hmd & Hah & Hshape & Hframe & Hrows).
  { unfold enumerate. rewrite map_fst_enumerate_from. apply seq_NoDup. }
  { exact H. }
  split; [exact Hmd|]. split; [exact Hah|]. split.
  { intros m Hm.
    apply (foldM_invariant (fun st => tables_sized st m)
             (get_many_step g agents) (enumerate predictions) self0 self').
    - intros st x st' _ Hst Hstep. exact (Htab st x st' m Hst Hstep).
    - exact Hm.
    - exact H. }
  split.
  { apply Hshape. unfold tick_shaped, self0. simpl.
    repeat split; apply shaped_np_full. }
  split.
  - intros h sp devs Hp.
    destruct (Hrows h sp devs (Hni _ _ Hp)) as (Hlt & Hw).
    apply Hw. apply Hblank. unfold self0, np_full in Hlt. simpl in Hlt.
    rewrite repeat_length in Hlt. exact Hlt.
  - intros h Hh Hno.
    apply (agent_view_row_blank self0 self' h Hmd); [|exact (Hblank h Hh)].
    apply Hframe. intros p Hp. exact (Hno p (Hin _ _ Hp)).
Qed.

Lemma get_many_writes_rows_witness :
  row_written at_tick 1 west_shortest
  /\ tick_shaped at_tick (length (agent_handles at_reset)).
Proof.
  destruct (get_many_writes_rows track trains at_reset forecasts at_tick)
    as (_ & _ & _ & Hshape & Hrows & _).
  - vm_compute. lia.
  - vm_compute. reflexivity.
  - split; [|exact Hshape].
    apply (Hrows 1%nat west_shortest []). reflexivity.
Defined.

(** ** Packed positions of a shaped builder *)

(** X6: On a builder whose tables and arrays have one row per agent,
    [_get_shortest_packed_positions] raises when [max_depth] is 0 and there
    is an agent, and with a positive [max_depth] returns two arrays of the
    same shape as the arrays of the tick. *)
Theorem packed_positions_shaped :
  forall self n,
    tables_sized self n ->
    tick_shaped self n ->
    ((0 < max_depth self)%nat ->
     exists packed_positions packed_weights,
       _get_shortest_packed_positions self
       = Ret (packed_positions, packed_weights)
       /\ shaped n (max_depth self) packed_positions
       /\ shaped n (max_depth self) packed_weights)
    /\ (max_depth self = 0%nat -> (0 < n)%nat ->
        _get_shortest_packed_positions self = Raise).
Proof.
  intros self n (Hs1 & Hs2 & Hs3 & Hs4) ([Hl1 Hr1] & [Hl2 Hr2] & [Hl3 Hr3]).
  split.
  - intro Hcase. unfold _get_shortest_packed_positions.
    destruct (mapM_spec
                (fun ap => prev_weight_of self (map fst (last_nodes self))
                             (fst ap) (snd ap))
                (enumerate (_shortest_paths self)))
      as (pw & Epw & Lpw & _).
    { intros i [h row] Hi. rewrite nth_error_enumerate in Hi.
      destruct (nth_error (_shortest_paths self) i) as [row'|] eqn:Erow;
        [|discriminate].
      simpl in Hi. inversion Hi. subst h row'. simpl.
      assert (Hi' : (i < n)%nat).
      { rewrite <- Hl1. apply nth_error_Some. rewrite Erow. discriminate. }
      pose proof (Forall_at _ _ _ _ Hr1 Erow) as Hrow. cbv beta in Hrow.
      unfold prev_weight_of.
      destruct (item_lt row 0%nat ltac:(lia)) as (first & E1).
      rewrite E1. cbn [bind].
      destruct (item_lt (map fst (last_nodes self)) i
                  ltac:(rewrite length_map; lia)) as (prev & E2).
      rewrite E2. cbn [bind].
      destruct (negb (node_eqb first prev)).
      - destruct (item_lt (last_nodes self) i ltac:(lia)) as (ln & E3).
        rewrite E3. cbn [bind].
        destruct (item_lt (speed_data self) i ltac:(lia)) as (sd & E4).
        rewrite E4. cbn [bind]. eauto.
      - apply (item2_shaped n (max_depth self)); [split; assumption|lia|lia]. }
    rewrite Epw. cbn [bind].
    assert (Lpw' : length pw = n).
    { rewrite Lpw. unfold enumerate.
      rewrite length_combine, length_seq, Nat.min_id. exact Hl1. }
    unfold hstack_col.
    destruct (zipM_spec (fun (x : Pos) row => Ret (x :: row))
                (map node_pos (map fst (last_nodes self)))
                (map (skipn 1) (_shortest_positions self)))
      as (pp & Epp).
    { rewrite !length_map. congruence. }
    { intros; eauto. }
    rewrite Epp. cbn [bind].
    destruct (zipM_spec (fun (x : Q) row => Ret (x :: row)) pw
                (map (skipn 1) (_shortest_cum_weights self)))
      as (pws & Epws).
    { rewrite length_map. congruence. }
    { intros; eauto. }
    rewrite Epws. cbn [bind].
    exists pp, pws. split; [reflexivity|].
    destruct (zipM_ret _ _ _ _ Epp) as (_ & Lpp & Hpp).
    destruct (zipM_ret _ _ _ _ Epws) as (_ & Lpws & Hpws).
    rewrite !length_map in Lpp.
    assert (Hcols : forall {A : Type} (rows : list (list A)) (i : nat) r,
               Forall (fun row => length row = max_depth self) rows ->
               nth_error (map (skipn 1) rows) i = Some r ->
               (i < n)%nat ->
               S (length r) = max_depth self).
    { intros A rows i r Hall Hr Hi. rewrite nth_error_map in Hr.
      destruct (nth_error rows i) as [row|] eqn:Erow; [|discriminate].
      simpl in Hr. inversion Hr. subst r.
      pose proof (Forall_at _ _ _ _ Hall Erow) as Hrow. cbv beta in Hrow.
      destruct row; simpl in *; lia. }
    split; split; try congruence.
    + apply Forall_nth_error. intros i r Hr.
      assert (Hi : (i < n)%nat).
      { rewrite <- Hs2, <- Lpp. apply nth_error_Some. rewrite Hr.
        discriminate. }
      destruct (item_lt (map node_pos (map fst (last_nodes self))) i
                  ltac:(rewrite !length_map; lia)) as (x & Ex).
      destruct (item_lt (map (skipn 1) (_shortest_positions self)) i
                  ltac:(rewrite !length_map; lia)) as (y & Ey).
      apply item_ret in Ex, Ey.
      destruct (Hpp i x y Ex Ey) as (z & Ez & Hz).
      inversion Ez. subst z. rewrite Hz in Hr. inversion Hr. subst r.
      simpl. exact (Hcols _ _ _ _ Hr2 Ey Hi).
    + apply Forall_nth_error. intros i r Hr.
      assert (Hi : (i < n)%nat).
      { rewrite <- Lpw', <- Lpws. apply nth_error_Some. rewrite Hr.
        discriminate. }
      destruct (item_lt pw i ltac:(lia)) as (x & Ex).
      destruct (item_lt (map (skipn 1) (_shortest_cum_weights self)) i
                  ltac:(rewrite !length_map; lia)) as (y & Ey).
      apply item_ret in Ex, Ey.
      destruct (Hpws i x y Ex Ey) as (z & Ez & Hz).
      inversion Ez. subst z. rewrite Hz in Hr. inversion Hr. subst r.
      simpl. exact (Hcols _ _ _ _ Hr3 Ey Hi).
  - intros Hmd Hn. unfold _get_shortest_packed_positions, enumerate.
    destruct (_shortest_paths self) as [|row rows]; [simpl in Hl1; lia|].
    inversion Hr1 as [|? ? Hrow _]. subst.
    rewrite Hmd in Hrow. destruct row; [|discriminate].
    reflexivity.
Qed.

Lemma packed_positions_shaped_witness :
  exists packed_positions packed_weights,
    _get_shortest_packed_positions at_tick
    = Ret (packed_positions, packed_weights)
    /\ shaped 2 (max_depth at_tick) packed_positions
    /\ shaped 2 (max_depth at_tick) packed_weights.
Proof.
  apply (proj1 (packed_positions_shaped at_tick 2%nat
                  ltac:(vm_compute; repeat split)
                  ltac:(vm_compute; repeat constructor))).
  vm_compute. lia.
Defined.

(** ** Cumulative weights in closed form *)

Lemma nth_np_cumsum_from : forall l acc k,
  (k < length l)%nat ->
  (nth k (np_cumsum_from acc l) 0 == acc + sumQ (firstn (S k) l))%Q.
Proof.
  induction l as [|x t IH]; intros acc k Hk; [simpl in Hk; lia|].
  destruct k as [|k].
  - simpl. destruct t; simpl; ring.
  - simpl in Hk. change (nth (S k) (np_cumsum_from acc (x :: t)) 0%Q)
      with (nth k (np_cumsum_from (acc + x) t) 0%Q).
    rewrite IH by lia.
    change (firstn (S (S k)) (x :: t)) with (x :: firstn (S k) t).
    simpl sumQ. ring.
Qed.

Lemma sumQ_scaled : forall (t : Q) (edges : list edge),
  (sumQ (map (fun e => e_weight e * t) edges)
   == t * sumQ (map e_weight edges))%Q.
Proof.
  intros t edges. induction edges as [|e rest IH]; simpl.
  - ring.
  - rewrite IH. ring.
Qed.

(** X7: The cumulative weights have one entry more than the edges; entry [k]
    is the initial distance plus the agent's ticks per cell times the
    weights of the first [k] edges. *)
Theorem cumulative_weights_closed_form :
  forall self handle edges initial_distance sd,
    nth_error (speed_data self) handle = Some sd ->
    exists ws,
      compute_cumulative_weights self handle edges initial_distance = Ret ws
      /\ length ws = S (length edges)
      /\ forall k,
           (k <= length edges)%nat ->
           (nth k ws 0
            == initial_distance
               + inject_Z (times sd)
                 * sumQ (map e_weight (firstn k edges)))%Q.
Proof.
  intros self handle edges init sd Hsd.
  rewrite (compute_cumulative_weights_value _ _ _ _ sd Hsd).
  eexists. split; [reflexivity|]. split.
  - simpl. rewrite length_np_cumsum_from, length_map. reflexivity.
  - intros k Hk. destruct k as [|k].
    + simpl. ring.
    + match goal with
      | |- (nth _ (np_cumsum (_ :: ?l)) _ == _)%Q =>
          change (nth k (np_cumsum_from init l) 0 ==
                  init + inject_Z (times sd)
                         * sumQ (map e_weight (firstn (S k) edges)))%Q
      end.
      rewrite nth_np_cumsum_from by (rewrite length_map; lia).
      rewrite firstn_map, sumQ_scaled. reflexivity.
Qed.

Lemma cumulative_weights_closed_form_witness :
  exists ws,
    compute_cumulative_weights at_tick 0 (edges east_shortest) 0 = Ret ws
    /\ length ws = S (length (edges east_shortest))
    /\ forall k,
         (k <= length (edges east_shortest))%nat ->
         (nth k ws 0
          == 0 + inject_Z (times {| times := 1; remaining := 0 |})
                 * sumQ (map e_weight (firstn k (edges east_shortest))))%Q.
Proof.
  apply (cumulative_weights_closed_form at_tick 0%nat (edges east_shortest)
           0%Q {| times := 1; remaining := 0 |}).
  vm_compute. reflexivity.
Defined.

(** X8: [compute_cumulative_weights] looks the agent up once per edge: it
    raises exactly when there is an edge and the agent has no speed data. *)
Theorem cumulative_weights_raise_iff :
  forall self handle edges initial_distance,
    compute_cumulative_weights self handle edges initial_distance = Raise
    <-> (edges <> [] /\ (length (speed_data self) <= handle)%nat).
Proof.
  intros self handle edges init. split.
  - intro H. split.
    + intro Hnil.
      destruct (compute_cumulative_weights_returns self handle edges init
                  (or_intror Hnil)) as (ws & Hws & _).
      congruence.
    + destruct (Nat.lt_ge_cases handle (length (speed_data self)))
        as [Hlt | Hge]; [|exact Hge].
      destruct (compute_cumulative_weights_returns self handle edges init
                  (or_introl Hlt)) as (ws & Hws & _).
      congruence.
  - intros [Hne Hge]. unfold compute_cumulative_weights.
    destruct edges as [|e rest]; [exfalso; apply Hne; reflexivity|].
    simpl. unfold item.
    rewrite (proj2 (nth_error_None _ _) Hge). reflexivity.
Qed.

(** ** Distance from the target *)

Lemma zipM_pure : forall {A B C : Type} (f : A -> B -> C) (l : list A) (m : list B),
  length l = length m ->
  zipM (fun x y => Ret (f x y)) l m = Ret (map (fun xy => f (fst xy) (snd xy)) (combine l m)).
Proof.
  intros A B C f l. induction l as [|x t IH]; intros [|y m'] H;
    try discriminate; simpl.
  - reflexivity.
  - rewrite IH by (simpl in H; lia). reflexivity.
Qed.

Lemma nth_error_fill_zero : forall (v : Q) (len depth k : nat),
  (len <= depth)%nat -> (k < depth)%nat ->
  nth_error (repeat v len ++ repeat 0%Q (depth - len)) k
  = Some (if (k <? len)%nat then v else 0%Q).
Proof.
  intros v len depth k Hlen Hk.
  destruct (k <? len)%nat eqn:E.
  - apply Nat.ltb_lt in E.
    rewrite nth_error_app1 by (rewrite repeat_length; exact E).
    apply nth_error_repeat_lt. exact E.
  - apply Nat.ltb_ge in E.
    rewrite nth_error_app2 by (rewrite repeat_length; exact E).
    rewrite repeat_length. apply nth_error_repeat_lt. lia.
Qed.

Lemma nth_error_combine : forall {A B : Type} (l : list A) (m : list B) k x y,
  nth_error l k = Some x -> nth_error m k = Some y ->
  nth_error (combine l m) k = Some (x, y).
Proof.
  intros A B l. induction l as [|a t IH]; intros [|b m] [|k] x y H1 H2;
    simpl in *; try discriminate.
  - inversion H1. inversion H2. reflexivity.
  - exact (IH m k x y H1 H2).
Qed.

Lemma distance_from_target_cells :
  forall self handle lenght path cum_weights turns_to_deviation,
    length cum_weights = max_depth self ->
    distance_from_target self handle (Cells lenght) path cum_weights
      turns_to_deviation
    = (sd <- item (speed_data self) handle ;;
       if (length path <=? max_depth self)%nat
       then Ret (map (fun dw => Fin (fst dw - snd dw))
                   (combine
                      (repeat (lenght * inject_Z (times sd)
                               + turns_to_deviation)%Q (length path)
                       ++ repeat 0%Q (max_depth self - length path))
                      cum_weights))
       else Raise).
Proof.
  intros self handle lenght path cw ttd Hcw.
  unfold distance_from_target, fill_prefix, np_full.
  destruct (item (speed_data self) handle) as [sd|]; [|reflexivity].
  cbn [bind]. rewrite !repeat_length, skipn_repeat.
  destruct (length path <=? max_depth self)%nat eqn:E; [|reflexivity].
  apply Nat.leb_le in E. cbn [bind].
  rewrite zipM_pure by (rewrite length_app, !repeat_length; lia).
  cbn [bind]. rewrite map_map. reflexivity.
Qed.

(** X9: With one cumulative weight per entry, the distance from the target
    of a reachable path returns exactly when the agent has speed data and
    the path is not longer than [max_depth]; entry [k] is then the length of
    the path in ticks plus the ticks to the deviation minus the cumulative
    weight [k] on the path, and minus the cumulative weight [k] after it. *)
Theorem target_distance_entries :
  forall self handle lenght path cum_weights turns_to_deviation,
    (0 < max_depth self)%nat ->
    length cum_weights = max_depth self ->
    ((exists ds,
        distance_from_target self handle (Cells lenght) path cum_weights
          turns_to_deviation = Ret ds)
     <-> ((handle < length (speed_data self))%nat
          /\ (length path <= max_depth self)%nat))
    /\ (forall ds,
          distance_from_target self handle (Cells lenght) path cum_weights
            turns_to_deviation = Ret ds ->
          length ds = max_depth self
          /\ exists sd,
               nth_error (speed_data self) handle = Some sd
               /\ forall k w,
                    nth_error cum_weights k = Some w ->
                    nth_error ds k
                    = Some (Fin (if (k <? length path)%nat
                                 then lenght * inject_Z (times sd)
                                      + turns_to_deviation - w
                                 else 0 - w))).
Proof.
  intros self handle lenght path cw ttd _ Hcw.
  rewrite (distance_from_target_cells _ _ _ _ _ _ Hcw).
  split.
  - split.
    + intros (ds & H).
      destruct (item (speed_data self) handle) as [sd|] eqn:Esd;
        [|discriminate].
      cbn [bind] in H. split.
      * apply item_ret in Esd. apply nth_error_Some. rewrite Esd.
        discriminate.
      * destruct (length path <=? max_depth self)%nat eqn:E;
          [apply Nat.leb_le; exact E | discriminate].
    + intros (Hh & Hp).
      destruct (item_lt _ _ Hh) as (sd & Esd). rewrite Esd. cbn [bind].
      rewrite (proj2 (Nat.leb_le _ _) Hp). eauto.
  - intros ds H.
    destruct (item (speed_data self) handle) as [sd|] eqn:Esd; [|discriminate].
    cbn [bind] in H.
    destruct (length path <=? max_depth self)%nat eqn:E; [|discriminate].
    apply Nat.leb_le in E. inversion H. subst ds. clear H.
    split.
    + rewrite length_map, length_combine, length_app, !repeat_length. lia.
    + exists sd. split; [apply item_ret; exact Esd|].
      intros k w Hw.
      assert (Hk : (k < max_depth self)%nat).
      { rewrite <- Hcw. apply nth_error_Some. rewrite Hw. discriminate. }
      rewrite nth_error_map.
      rewrite (nth_error_combine _ _ _ _ _
                 (nth_error_fill_zero _ _ _ _ E Hk) Hw).
      simpl. destruct (k <? length path)%nat; reflexivity.
Qed.

Lemma target_distance_entries_witness :
  (exists ds,
     distance_from_target at_tick 0 (Cells 9) (path east_shortest)
       [0; 3; 6; 9]%Q 0 = Ret ds)
  <-> ((0 < length (speed_data at_tick))%nat
       /\ (length (path east_shortest) <= max_depth at_tick)%nat).
Proof.
  apply (proj1 (target_distance_entries at_tick 0%nat 9%Q
                  (path east_shortest) [0; 3; 6; 9]%Q 0%Q
                  ltac:(vm_compute; lia) ltac:(reflexivity))).
Defined.

(** ** Profile of the conflict detector *)

Lemma index_from_bounds : forall arr k elem i,
  index_from k arr elem = Some i -> (k <= i < k + length arr)%nat.
Proof.
  induction arr as [|x t IH]; intros k elem i H; simpl in H; [discriminate|].
  destruct (node_eqb x elem).
  - inversion H. subst. simpl. lia.
  - apply IH in H. simpl. lia.
Qed.

Lemma get_index_model_in_path : forall path n i,
  get_index utils_model path n = Some i -> (i < length path)%nat.
Proof.
  intros path n i H. apply index_from_bounds in H. lia.
Qed.

(** What one matched agent does to the three arrays. *)
Lemma agents_in_path_step_cases :
  forall g u agents self handle path cum_weights agent na ds ms na' ds' ms',
    agents_in_path_step g u agents self handle path cum_weights
      (na, ds, ms) agent = Ret (na', ds', ms') ->
    (na' = na /\ ds' = ds /\ ms' = ms)
    \/ (exists other_node index direction a stored worst distance,
          get_index u path other_node = Some index
          /\ (direction = 0 \/ direction = 1)%nat
          /\ nth_error agents agent = Some a
          /\ item2 ds index direction = Ret stored
          /\ item2 ms index direction = Ret worst
          /\ na' = count_agent index (length path) direction (malfunction a) na
          /\ ds' = (if replaces stored (Fin distance)
                    then set2 ds index direction (Fin distance) else ds)
          /\ ms' = (if worst <? malfunction a
                    then set2 ms index direction (malfunction a) else ms)).
Proof.
  intros g u agents self handle path cum_weights agent na ds ms na' ds' ms' H.
  unfold agents_in_path_step in H.
  destruct (get_agent_cell g agent) as [position|] eqn:Ecell.
  2:{ inversion H. subst. left. auto. }
  destruct (next_node g position) as [node next_node_distance] eqn:Enext.
  destruct (first_match u path (get_nodes g (node_pos node)))
    as [[other_node index]|] eqn:Ematch.
  2:{ inversion H. subst. left. auto. }
  right.
  apply bind_ret in H. destruct H as (cw & Ecw & H).
  apply bind_ret in H. destruct H as (me & Eme & H).
  apply bind_ret in H. destruct H as (other & Eother & H).
  apply bind_ret in H. destruct H as (stored & Estored & H).
  apply bind_ret in H. destruct H as (a & Ea & H).
  apply bind_ret in H. destruct H as (worst & Eworst & H).
  inversion H. clear H.
  exists other_node, index,
         (direction_of path node other_node (successors g node) index),
         a, stored, worst.
  eexists.
  split; [exact (first_match_index _ _ _ _ _ Ematch)|].
  split.
  { destruct (direction_of_cases path node other_node (successors g node) index);
      auto. }
  split; [apply item_ret; exact Ea|].
  split; [exact Estored|]. split; [exact Eworst|].
  split; [reflexivity|]. split; reflexivity.
Qed.

Lemma in_slice_later : forall index len k k',
  (k <= k')%nat -> (k' < len)%nat ->
  in_slice index len k = true -> in_slice index len k' = true.
Proof.
  unfold in_slice. intros index len k k' Hk Hk' H.
  apply andb_true_iff in H. destruct H as [H1 H2].
  apply Nat.leb_le in H1. apply andb_true_iff. split.
  - apply Nat.leb_le. lia.
  - apply Nat.ltb_lt. exact Hk'.
Qed.

Lemma in_slice_beyond : forall index len k,
  (len <= k)%nat -> in_slice index len k = false.
Proof.
  unfold in_slice. intros index len k H.
  rewrite (proj2 (Nat.ltb_ge k len) H). apply andb_false_r.
Qed.

(** One matched agent adds 0 or 1 to a counter, nothing after the path,
    and to a later node of the path no less than to an earlier one. *)
Lemma count_agent_increment :
  forall index len direction m na k c,
    exists inc,
      cell (count_agent index len direction m na) k c = cell na k c + inc
      /\ 0 <= inc <= 1
      /\ ((len <= k)%nat -> inc = 0)
      /\ forall k',
           (k <= k')%nat -> (k' < len)%nat ->
           present na k c = present na k' c ->
           exists inc',
             cell (count_agent index len direction m na) k' c
             = cell na k' c + inc'
             /\ inc <= inc'.
Proof.
  intros index len direction m na k c.
  rewrite cell_count_agent.
  eexists. split; [rewrite <- Z.add_assoc; reflexivity|].
  split; [|split].
  - destruct (c =? direction)%nat eqn:E1;
      destruct (c =? direction + 2)%nat eqn:E2;
      rewrite ?andb_false_r, ?andb_false_l; simpl;
      try (apply Nat.eqb_eq in E1; apply Nat.eqb_eq in E2; lia);
      repeat match goal with
             | |- context [if ?b then _ else _] => destruct b
             end; lia.
  - intro Hk. rewrite (in_slice_beyond _ _ _ Hk).
    rewrite ?andb_false_r. simpl. reflexivity.
  - intros k' Hk Hk' Hp. rewrite cell_count_agent.
    eexists. split; [rewrite <- Z.add_assoc; reflexivity|].
    rewrite <- Hp.
    destruct (in_slice index len k) eqn:Es.
    + rewrite (in_slice_later _ _ _ _ Hk Hk' Es). lia.
    + rewrite ?andb_false_r. simpl.
      repeat match goal with
             | |- context [if ?b then _ else _] => destruct b
             end; lia.
Qed.

Lemma agents_in_path_fold_profile :
  forall g u agents self handle path cum_weights others na ds ms na' ds' ms',
    foldM (agents_in_path_step g u agents self handle path cum_weights)
          others (na, ds, ms) = Ret (na', ds', ms') ->
    (forall k c, present na' k c = present na k c)
    /\ forall k c,
         exists inc,
           cell na' k c = cell na k c + inc
           /\ 0 <= inc <= Z.of_nat (length others)
           /\ ((length path <= k)%nat -> inc = 0)
           /\ forall k',
                (k <= k')%nat -> (k' < length path)%nat ->
                present na k c = present na k' c ->
                exists inc',
                  cell na' k' c = cell na k' c + inc' /\ inc <= inc'.
Proof.
  intros g u agents self handle path cum_weights others.
  induction others as [|agent rest IH];
    intros na ds ms na' ds' ms' H.
  - simpl in H. inversion H. subst. split; [reflexivity|].
    intros k c. exists 0. split; [lia|]. split; [simpl; lia|].
    split; [reflexivity|]. intros k' _ _ _. exists 0. split; lia.
  - cbn [foldM] in H. apply bind_ret in H.
    destruct H as ([[na1 ds1] ms1] & Hstep & H).
    destruct (IH _ _ _ _ _ _ H) as (Hpres & Hcells).
    assert (Hone : exists index direction m,
               na1 = na \/ na1 = count_agent index (length path) direction m na).
    { destruct (agents_in_path_step_cases _ _ _ _ _ _ _ _ _ _ _ _ _ _ Hstep)
        as [(-> & _) | (o & index & direction & a & s & w & d & _ & _ & _
                        & _ & _ & -> & _)].
      - exists 0%nat, 0%nat, 0. left. reflexivity.
      - exists index, direction, (malfunction a). right. reflexivity. }
    destruct Hone as (index & direction & m & Hna1).
    assert (Hp1 : forall k c, present na1 k c = present na k c).
    { intros k c. destruct Hna1 as [-> | ->];
        [reflexivity | apply present_count_agent]. }
    split; [intros k c; rewrite Hpres; apply Hp1|].
    intros k c.
    destruct (Hcells k c) as (inc2 & E2 & B2 & Z2 & M2).
    assert (Hfirst : exists inc1,
               cell na1 k c = cell na k c + inc1
               /\ 0 <= inc1 <= 1
               /\ ((length path <= k)%nat -> inc1 = 0)
               /\ forall k',
                    (k <= k')%nat -> (k' < length path)%nat ->
                    present na k c = present na k' c ->
                    exists inc',
                      cell na1 k' c = cell na k' c + inc' /\ inc1 <= inc').
    { destruct Hna1 as [-> | ->].
      - exists 0. split; [lia|]. split; [lia|]. split; [reflexivity|].
        intros k' _ _ _. exists 0. split; lia.
      - apply count_agent_increment. }
    destruct Hfirst as (inc1 & E1 & B1 & Z1 & M1).
    exists (inc1 + inc2). split; [lia|]. split.
    { change (length (agent :: rest)) with (S (length rest)). lia. }
    split.
    { intro Hk. rewrite (Z1 Hk), (Z2 Hk). reflexivity. }
    intros k' Hk Hk' Hp.
    destruct (M1 k' Hk Hk' Hp) as (i1 & Ei1 & Li1).
    destruct (M2 k' Hk Hk') as (i2 & Ei2 & Li2).
    { rewrite !Hp1. exact Hp. }
    exists (i1 + i2). split; lia.
Qed.

(** X10: Without a seed, every counter of the conflict detector lies between
    0 and the number of the other agents, is 0 after the path, and does not
    decrease along the path. *)
Theorem conflict_counts_profile :
  forall g u agents self handle path cum_weights others
         num_agents distances malfunctions,
    nth_error (other_agents self) handle = Some others ->
    agents_in_path g u agents self handle path cum_weights None
    = Ret (num_agents, distances, malfunctions) ->
    forall c k,
      (c < 4)%nat ->
      0 <= nth k (nth c num_agents []) 0 <= Z.of_nat (length others)
      /\ ((length path <= k)%nat -> nth k (nth c num_agents []) 0 = 0)
      /\ forall k',
           (k <= k')%nat -> (k' < length path)%nat ->
           (k' < max_depth self)%nat ->
           nth k (nth c num_agents []) 0 <= nth k' (nth c num_agents []) 0.
Proof.
  intros g u agents self handle path cum_weights others
         num_agents distances malfunctions Hothers H c k Hc.
  destruct (agents_in_path_ret _ _ _ _ _ _ _ _ _ _ _ H)
    as (na & ds & ms & Hloop & -> & _ & _).
  unfold agents_in_path_loop in Hloop. cbn [seed_num_agents bind] in Hloop.
  apply item_ret in Hothers. rewrite Hothers in Hloop. cbn [bind] in Hloop.
  destruct (agents_in_path_fold_profile _ _ _ _ _ _ _ _ _ _ _ _ _ _ Hloop)
    as (_ & Hcells).
  rewrite !cell_np_transpose by exact Hc.
  destruct (Hcells k c) as (inc & E & B & Z0 & M).
  rewrite cell_np_full in E.
  assert (Hzero : forall j, (if (j <? max_depth self)%nat
                             then nth c (np_full 4 0) 0 else 0) = 0).
  { intro j. destruct (j <? max_depth self)%nat; [|reflexivity].
    do 4 (destruct c as [|c]; [reflexivity|]). lia. }
  rewrite Hzero in E. split; [lia|]. split.
  - intro Hk. rewrite E, (Z0 Hk). reflexivity.
  - intros k' Hk Hk' Hd. rewrite cell_np_transpose by exact Hc.
    destruct (M k' Hk Hk') as (inc' & E' & L).
    { rewrite !present_np_full.
      rewrite (proj2 (Nat.ltb_lt k (max_depth self))) by lia.
      rewrite (proj2 (Nat.ltb_lt k' (max_depth self))) by lia.
      reflexivity. }
    rewrite cell_np_full, Hzero in E'. lia.
Qed.

Lemma nth_set2 : forall {A : Type} (a : list (list A)) (i c k d : nat) (v dflt : A),
  nth d (nth k (set2 a i c v) []) dflt =
    if ((k =? i) && (k <? length a)
        && ((d =? c) && (d <? length (nth k a []))))%nat
    then v else nth d (nth k a []) dflt.
Proof.
  intros A a i c k d v dflt. unfold set2. rewrite nth_upd_at.
  destruct ((k =? i) && (k <? length a))%nat; [|reflexivity].
  rewrite nth_upd_at. rewrite andb_true_l. reflexivity.
Qed.

Lemma item2_nth : forall {A : Type} (a : list (list A)) (i c : nat) (x dflt : A),
  item2 a i c = Ret x ->
  nth c (nth i a []) dflt = x
  /\ (i < length a)%nat /\ (c < length (nth i a []))%nat.
Proof.
  intros A a i c x dflt H. unfold item2 in H.
  apply bind_ret in H. destruct H as (row & Hrow & Hx).
  apply item_ret in Hrow. apply item_ret in Hx.
  rewrite (nth_error_nth _ _ [] Hrow).
  split; [exact (nth_error_nth _ _ dflt Hx)|]. split.
  - apply nth_error_Some. rewrite Hrow. discriminate.
  - apply nth_error_Some. rewrite Hx. discriminate.
Qed.

Lemma arrays_linked_step :
  forall g u agents self handle path cum_weights st agent st',
    (forall n i, get_index u path n = Some i -> (i < length path)%nat) ->
    arrays_linked (max_depth self) (length path) st ->
    agents_in_path_step g u agents self handle path cum_weights st agent
    = Ret st' ->
    arrays_linked (max_depth self) (length path) st'.
Proof.
  intros g u agents self handle path cum_weights [[na ds] ms] agent
         [[na' ds'] ms'] Hindex (Hds & Hms & Hpres & Hnn & Hlink) Hstep.
  destruct (agents_in_path_step_cases _ _ _ _ _ _ _ _ _ _ _ _ _ _ Hstep)
    as [(-> & -> & ->) | (o & index & direction & a & stored & worst & dist
                          & Hidx & Hdir & _ & Est & Ewo & -> & -> & ->)].
  { unfold arrays_linked. auto. }
  apply Hindex in Hidx.
  destruct (item2_nth _ _ _ _ PInf Est) as (Hst & Hi1 & _).
  destruct (item2_nth _ _ _ _ 0 Ewo) as (Hwo & _ & _).
  assert (Hdepth : (index < max_depth self)%nat)
    by (destruct Hds as [<- _]; exact Hi1).
  assert (Hslice : in_slice index (length path) index = true).
  { unfold in_slice. rewrite Nat.leb_refl.
    apply Nat.ltb_lt. exact Hidx. }
  assert (Hworst : 0 <= worst).
  { rewrite <- Hwo.
    assert (Hd : (direction < 2)%nat) by (destruct Hdir; lia).
    exact (proj1 (proj2 (Hlink index direction Hd))). }
  assert (Hgrow : forall k c,
            cell na k c
            <= cell (count_agent index (length path) direction
                       (malfunction a) na) k c).
  { intros k c.
    destruct (count_agent_increment index (length path) direction
                (malfunction a) na k c) as (inc & -> & B & _).
    lia. }
  assert (Hcounted :
            1 <= cell (count_agent index (length path) direction
                         (malfunction a) na) index direction).
  { rewrite cell_count_agent, Hslice, Nat.eqb_refl, Hpres.
    rewrite (proj2 (Nat.ltb_lt _ _) Hdepth).
    replace (direction <? 4)%nat with true
      by (symmetry; apply Nat.ltb_lt; destruct Hdir; lia).
    simpl. pose proof (Hnn index direction).
    match goal with
    | |- context [if ?b then _ else _] => destruct b
    end; lia. }
  assert (Hbroken :
            0 < malfunction a ->
            1 <= cell (count_agent index (length path) direction
                         (malfunction a) na) index (direction + 2)).
  { intro Hm. rewrite cell_count_agent, Hslice, Nat.eqb_refl, Hpres.
    rewrite (proj2 (Nat.ltb_lt _ _) Hdepth).
    rewrite (proj2 (Z.ltb_lt _ _) Hm).
    replace (direction + 2 <? 4)%nat with true
      by (symmetry; apply Nat.ltb_lt; destruct Hdir; lia).
    simpl. pose proof (Hnn index (direction + 2)%nat).
    match goal with
    | |- context [if ?b then _ else _] => destruct b
    end; lia. }
  unfold arrays_linked.
  split; [destruct (replaces stored (Fin dist)); [apply shaped_set2|];
          exact Hds|].
  split; [destruct (worst <? malfunction a); [apply shaped_set2|];
          exact Hms|].
  split; [intros k c; rewrite present_count_agent; apply Hpres|].
  split; [intros k c; pose proof (Hnn k c); pose proof (Hgrow k c); lia|].
  intros k d Hd.
  destruct (Hlink k d Hd) as (Hdist & Hm0 & Hm1).
  split; [|split].
  - assert (Hold : distance_at ds k d = PInf
                   \/ exists q,
                        distance_at ds k d = Fin q
                        /\ (k < length path)%nat
                        /\ 1 <= cell (count_agent index (length path)
                                        direction (malfunction a) na) k d).
    { destruct Hdist as [Hinf | (q & Hq & Hk & Hc)]; [left; exact Hinf|].
      right. exists q. pose proof (Hgrow k d). auto with zarith. }
    destruct (replaces stored (Fin dist)); [|exact Hold].
    unfold distance_at. rewrite nth_set2.
    destruct ((k =? index) && (k <? length ds)
              && ((d =? direction) && (d <? length (nth k ds []))))%nat
      eqn:E; [|exact Hold].
    apply andb_true_iff in E. destruct E as [E1 E2].
    apply andb_true_iff in E1. destruct E1 as [E1 _].
    apply andb_true_iff in E2. destruct E2 as [E2 _].
    apply Nat.eqb_eq in E1. apply Nat.eqb_eq in E2. subst k d.
    right. exists dist. auto.
  - destruct (worst <? malfunction a) eqn:Ew; [|exact Hm0].
    unfold cell. rewrite nth_set2.
    match goal with
    | |- context [if ?b then _ else _] => destruct b
    end; [|exact Hm0].
    apply Z.ltb_lt in Ew. lia.
  - assert (Hold : 0 < cell ms k d ->
                   1 <= cell (count_agent index (length path) direction
                                (malfunction a) na) k (d + 2)).
    { intro Hpos. pose proof (Hm1 Hpos). pose proof (Hgrow k (d + 2)%nat).
      lia. }
    destruct (worst <? malfunction a) eqn:Ew; [|exact Hold].
    unfold cell at 1. rewrite nth_set2.
    destruct ((k =? index) && (k <? length ms)
              && ((d =? direction) && (d <? length (nth k ms []))))%nat
      eqn:E; [|exact Hold].
    apply andb_true_iff in E. destruct E as [E1 E2].
    apply andb_true_iff in E1. destruct E1 as [E1 _].
    apply andb_true_iff in E2. destruct E2 as [E2 _].
    apply Nat.eqb_eq in E1. apply Nat.eqb_eq in E2. subst k d.
    intros _. apply Hbroken. apply Z.ltb_lt in Ew. lia.
Qed.

(** X11: Without a seed, a stored distance is [+inf] or the finite distance
    of an agent counted at a node of the path; a stored waiting time is
    never negative, and positive only where a malfunctioning agent is
    counted. *)
Theorem conflict_distances_counted :
  forall g u agents self handle path cum_weights
         num_agents distances malfunctions,
    (forall n i, get_index u path n = Some i -> (i < length path)%nat) ->
    agents_in_path g u agents self handle path cum_weights None
    = Ret (num_agents, distances, malfunctions) ->
    forall d k,
      (d < 2)%nat ->
      (nth k (nth d distances []) PInf = PInf
       \/ exists q,
            nth k (nth d distances []) PInf = Fin q
            /\ (k < length path)%nat
            /\ 1 <= nth k (nth d num_agents []) 0)
      /\ 0 <= nth k (nth d malfunctions []) 0
      /\ (0 < nth k (nth d malfunctions []) 0 ->
          1 <= nth k (nth (d + 2) num_agents []) 0).
Proof.
  intros g u agents self handle path cum_weights
         num_agents distances malfunctions Hindex H d k Hd.
  destruct (agents_in_path_ret _ _ _ _ _ _ _ _ _ _ _ H)
    as (na & ds & ms & Hloop & -> & -> & ->).
  unfold agents_in_path_loop in Hloop. cbn [seed_num_agents bind] in Hloop.
  apply bind_ret in Hloop. destruct Hloop as (others & _ & Hfold).
  assert (Hinv : arrays_linked (max_depth self) (length path) (na, ds, ms)).
  { match type of Hfold with
    | foldM _ _ ?s0 = _ =>
        apply (foldM_invariant
                 (arrays_linked (max_depth self) (length path))
                 (agents_in_path_step g u agents self handle path cum_weights)
                 others s0 (na, ds, ms)); [| |exact Hfold]
    end.
    - intros st x st' _ Hst Hstep.
      exact (arrays_linked_step _ _ _ _ _ _ _ _ _ _ Hindex Hst Hstep).
    - unfold arrays_linked.
      split; [apply shaped_np_full|]. split; [apply shaped_np_full|].
      split; [intros; apply present_np_full|].
      split.
      + intros k0 c0. rewrite cell_np_full.
        destruct (k0 <? max_depth self)%nat; [|lia].
        do 4 (destruct c0 as [|c0]; [simpl; lia|]). simpl.
        destruct c0; lia.
      + intros k0 d0 Hd0. split; [|split].
        * left. unfold distance_at, np_full.
          destruct (Nat.lt_ge_cases k0 (max_depth self)) as [Hlt | Hge].
          -- rewrite (nth_error_nth _ _ [] (nth_error_repeat_lt _ _ _ Hlt)).
             destruct d0 as [|[|d0]]; [reflexivity|reflexivity|lia].
          -- rewrite (nth_overflow (repeat (repeat PInf 2) (max_depth self)) [])
               by (rewrite repeat_length; exact Hge).
             destruct d0; reflexivity.
        * rewrite cell_np_full.
          destruct (k0 <? max_depth self)%nat; [|lia].
          destruct d0 as [|[|d0]]; simpl; lia.
        * rewrite cell_np_full.
          destruct (k0 <? max_depth self)%nat; [|lia].
          destruct d0 as [|[|d0]]; simpl; lia. }
  destruct Hinv as (_ & _ & _ & _ & Hlink).
  destruct (Hlink k d Hd) as (Hdist & Hm0 & Hm1).
  rewrite !nth_np_transpose by lia.
  rewrite !nth_column.
  exact (conj Hdist (conj Hm0 Hm1)).
Qed.

Lemma conflict_counts_profile_witness :
  0 <= nth 2 (nth 1 (fst (fst east_conflicts)) []) 0
    <= Z.of_nat (length [1%nat]).
Proof.
  refine (proj1 (conflict_counts_profile track utils_model trains at_tick
                   0%nat (path east_shortest) [0; 3; 6; 9]%Q [1%nat]
                   (fst (fst east_conflicts)) (snd (fst east_conflicts))
                   (snd east_conflicts) _ _ 1%nat 2%nat _)).
  - reflexivity.
  - vm_compute. reflexivity.
  - lia.
Defined.

Lemma conflict_distances_counted_witness :
  nth 2 (nth 1 (snd (fst east_conflicts)) []) PInf = PInf
  \/ exists q,
       nth 2 (nth 1 (snd (fst east_conflicts)) []) PInf = Fin q
       /\ (2 < length (path east_shortest))%nat
       /\ 1 <= nth 2 (nth 1 (fst (fst east_conflicts)) []) 0.
Proof.
  refine (proj1 (conflict_distances_counted track utils_model trains
                   at_tick 0%nat (path east_shortest) [0; 3; 6; 9]%Q
                   (fst (fst east_conflicts))
                   (snd (fst east_conflicts)) (snd east_conflicts)
                   _ _ 1%nat 2%nat _)).
  - exact (get_index_model_in_path (path east_shortest)).
  - vm_compute. reflexivity.
  - lia.
Defined.

(** ** When the conflict detector returns *)

Lemma length_count_agent : forall index len direction m na,
  length (count_agent index len direction m na) = length na.
Proof.
  intros. unfold count_agent, add_slice_col.
  destruct (0 <? m); rewrite ?length_map_range; reflexivity.
Qed.

Lemma agents_in_path_fold_lengths :
  forall g u agents self handle path cum_weights others na ds ms na' ds' ms',
    foldM (agents_in_path_step g u agents self handle path cum_weights)
          others (na, ds, ms) = Ret (na', ds', ms') ->
    length na' = length na /\ length ds' = length ds /\ length ms' = length ms.
Proof.
  intros g u agents self handle path cum_weights others.
  induction others as [|agent rest IH]; intros na ds ms na' ds' ms' H.
  - simpl in H. inversion H. auto.
  - cbn [foldM] in H. apply bind_ret in H.
    destruct H as ([[na1 ds1] ms1] & Hstep & H).
    destruct (IH _ _ _ _ _ _ H) as (L1 & L2 & L3).
    destruct (agents_in_path_step_cases _ _ _ _ _ _ _ _ _ _ _ _ _ _ Hstep)
      as [(-> & -> & ->) | (o & index & direction & a & s & w & d & _ & _ & _
                            & _ & _ & -> & -> & ->)]; [auto|].
    rewrite L1, L2, L3, length_count_agent. unfold set2.
    split; [reflexivity|]. split.
    + destruct (replaces s (Fin d)); rewrite ?length_upd_at; reflexivity.
    + destruct (w <? malfunction a); rewrite ?length_upd_at; reflexivity.
Qed.

Lemma shaped_np_transpose : forall {A : Type} (d : A) (w : nat) (a : list (list A)),
  shaped w (length a) (np_transpose d w a).
Proof.
  intros A d w a. unfold np_transpose. split.
  - rewrite length_map. apply length_seq.
  - apply Forall_forall. intros col Hcol. apply in_map_iff in Hcol.
    destruct Hcol as (c & <- & _). unfold column. apply length_map.
Qed.

(** X12: Without a seed the conflict detector returns, with four rows of
    counters, two of distances and two of waiting times, [max_depth] entries
    each, when the path and its cumulative weights fit the depth, every
    index that [get_index] finds lies in the path, and this agent and the
    others have speed data with positive ticks per cell and an entry in the
    environment. *)
Theorem conflict_detector_returns :
  forall g u agents self handle path cum_weights others,
    (forall n i, get_index u path n = Some i -> (i < length path)%nat) ->
    (length path <= max_depth self)%nat ->
    (length path <= length cum_weights)%nat ->
    (handle < length (speed_data self))%nat ->
    Forall (fun sd => 0 < times sd) (speed_data self) ->
    nth_error (other_agents self) handle = Some others ->
    Forall (fun agent => (agent < length (speed_data self))%nat
                         /\ (agent < length agents)%nat) others ->
    exists num_agents distances malfunctions,
      agents_in_path g u agents self handle path cum_weights None
      = Ret (num_agents, distances, malfunctions)
      /\ shaped 4 (max_depth self) num_agents
      /\ shaped 2 (max_depth self) distances
      /\ shaped 2 (max_depth self) malfunctions.
Proof.
  intros g u agents self handle path cum_weights others
         Hindex Hpath Hcw Hme _ Hothers Hall.
  destruct (agents_in_path_returns g u agents self handle path cum_weights
              Hindex Hpath Hcw Hme others Hothers Hall)
    as (num_agents & distances & malfunctions & H).
  exists num_agents, distances, malfunctions. split; [exact H|].
  destruct (agents_in_path_ret _ _ _ _ _ _ _ _ _ _ _ H)
    as (na & ds & ms & Hloop & -> & -> & ->).
  unfold agents_in_path_loop in Hloop. cbn [seed_num_agents bind] in Hloop.
  apply bind_ret in Hloop. destruct Hloop as (others' & _ & Hfold).
  destruct (agents_in_path_fold_lengths _ _ _ _ _ _ _ _ _ _ _ _ _ _ Hfold)
    as (L1 & L2 & L3).
  unfold np_full in L1, L2, L3. rewrite repeat_length in L1, L2, L3.
  split; [|split].
  - rewrite <- L1. apply shaped_np_transpose.
  - rewrite <- L2. apply shaped_np_transpose.
  - rewrite <- L3. apply shaped_np_transpose.
Qed.

Lemma conflict_detector_returns_witness :
  exists num_agents distances malfunctions,
    agents_in_path track utils_model trains at_tick 0 (path east_shortest)
      [0; 3; 6; 9]%Q None
    = Ret (num_agents, distances, malfunctions)
    /\ shaped 4 (max_depth at_tick) num_agents
    /\ shaped 2 (max_depth at_tick) distances
    /\ shaped 2 (max_depth at_tick) malfunctions.
Proof.
  apply (conflict_detector_returns track utils_model trains at_tick 0%nat
           (path east_shortest) [0; 3; 6; 9]%Q [1%nat]).
  - exact (get_index_model_in_path (path east_shortest)).
  - vm_compute. lia.
  - simpl. lia.
  - vm_compute. lia.
  - vm_compute. repeat constructor.
  - reflexivity.
  - vm_compute. repeat constructor.
Defined.

(** ** Profile of the deadlock predictor *)

Lemma for_break_found : forall {A : Type} (body : nat -> res (option A))
  (l : list nat) (a : A),
  for_break body l = Ret (Some a) ->
  exists i, In i l /\ body i = Ret (Some a).
Proof.
  intros A body l a. induction l as [|i t IH]; intro H; simpl in H.
  - discriminate.
  - apply bind_ret in H. destruct H as ([x|] & Ebody & H).
    + inversion H. subst. exists i. split; [left; reflexivity | exact Ebody].
    + destruct (IH H) as (i' & Hin & Hb). exists i'.
      split; [right; exact Hin | exact Hb].
Qed.

Lemma scan_edges_found_bounds :
  forall positions cum_weights agent_path packed_weights agent i j,
    scan_edges positions cum_weights agent_path packed_weights agent
    = Ret (Some (i, j)) ->
    (S j < length positions)%nat /\ (S i < length agent_path)%nat.
Proof.
  intros positions cum_weights agent_path packed_weights agent i j H.
  unfold scan_edges in H.
  apply for_break_found in H. destruct H as (i0 & Hi0 & H).
  apply bind_ret in H. destruct H as (a0 & _ & H).
  apply bind_ret in H. destruct H as (a1 & _ & H).
  destruct (negb (pos_eqb a0 pad_pos) && negb (pos_eqb a1 pad_pos));
    [|discriminate].
  apply for_break_found in H. destruct H as (j0 & Hj0 & H).
  apply bind_ret in H. destruct H as (b & _ & H).
  destruct b; [|discriminate]. inversion H. subst i0 j0.
  unfold range in Hi0, Hj0. apply in_seq in Hi0. apply in_seq in Hj0. lia.
Qed.

Lemma find_deadlocks_step_cases :
  forall u self handle positions cum_weights packed_positions packed_weights
         agent dl ct dl' ct',
    find_deadlocks_step u self handle positions cum_weights
      packed_positions packed_weights (dl, ct) agent = Ret (dl', ct') ->
    (dl' = dl /\ ct' = ct)
    \/ exists j stored crash_turn,
         (S j < length positions)%nat
         /\ nth_error ct j = Some stored
         /\ dl' = add_slice j (length positions) dl
         /\ ct' = (if fgt stored (Fin crash_turn)
                   then upd_at j (fun _ => Fin crash_turn) ct
                   else ct).
Proof.
  intros u self handle positions cum_weights packed_positions packed_weights
         agent dl ct dl' ct' H.
  unfold find_deadlocks_step in H.
  apply bind_ret in H. destruct H as (agent_path & Epath & H).
  apply bind_ret in H. destruct H as (found & Escan & H).
  destruct found as [[i j]|].
  - apply bind_ret in H. destruct H as (mine_in & E1 & H).
    apply bind_ret in H. destruct H as (mine_out & E2 & H).
    apply bind_ret in H. destruct H as (other_in & E3 & H).
    apply bind_ret in H. destruct H as (me & E4 & H).
    apply bind_ret in H. destruct H as (other & E5 & H).
    apply bind_ret in H. destruct H as (stored & E6 & H).
    inversion H. right. exists j, stored. eexists.
    split; [exact (proj1 (scan_edges_found_bounds _ _ _ _ _ _ _ Escan))|].
    split; [apply item_ret; exact E6|]. split; reflexivity.
  - inversion H. left. auto.
Qed.

Lemma crash_turn_kept : forall (ct : list fval) (j k : nat) (stored : fval) (c : Q),
  nth_error ct j = Some stored ->
  nth k ct PInf <> PInf ->
  nth k (if fgt stored (Fin c) then upd_at j (fun _ => Fin c) ct else ct) PInf
  <> PInf.
Proof.
  intros ct j k stored c Hst Hk.
  destruct (fgt stored (Fin c)); [|exact Hk].
  rewrite nth_upd_at.
  destruct ((k =? j) && (k <? length ct))%nat; [discriminate | exact Hk].
Qed.

Lemma crash_turn_stored : forall (ct : list fval) (j : nat) (stored : fval) (c : Q),
  nth_error ct j = Some stored ->
  nth j (if fgt stored (Fin c) then upd_at j (fun _ => Fin c) ct else ct) PInf
  <> PInf.
Proof.
  intros ct j stored c Hst.
  assert (Hj : (j < length ct)%nat)
    by (apply nth_error_Some; rewrite Hst; discriminate).
  destruct (fgt stored (Fin c)) eqn:E.
  - rewrite nth_upd_at, Nat.eqb_refl, (proj2 (Nat.ltb_lt _ _) Hj). discriminate.
  - rewrite (nth_error_nth _ _ PInf Hst). intro Hinf. subst stored.
    discriminate.
Qed.

Lemma deadlocks_linked_step :
  forall u self handle positions cum_weights packed_positions packed_weights
         prev st agent st',
    deadlocks_linked (max_depth self) (length positions) prev st ->
    find_deadlocks_step u self handle positions cum_weights
      packed_positions packed_weights st agent = Ret st' ->
    deadlocks_linked (max_depth self) (length positions) prev st'.
Proof.
  intros u self handle positions cum_weights packed_positions packed_weights
         prev [dl ct] agent [dl' ct'] (Hl1 & Hl2 & Hlink) Hstep.
  destruct (find_deadlocks_step_cases _ _ _ _ _ _ _ _ _ _ _ _ Hstep)
    as [(-> & ->) | (j & stored & crash & Hj & Hst & -> & ->)].
  { unfold deadlocks_linked. auto. }
  assert (Hjd : (j < max_depth self)%nat).
  { rewrite <- Hl2. apply nth_error_Some. rewrite Hst. discriminate. }
  unfold deadlocks_linked.
  split; [rewrite length_add_slice; exact Hl1|].
  split; [destruct (fgt stored (Fin crash)); rewrite ?length_upd_at; exact Hl2|].
  intros k Hk. destruct (Hlink k Hk) as (Hlow & Hct & Hdl).
  rewrite nth_add_slice, Hl1, (proj2 (Nat.ltb_lt _ _) Hk), andb_true_r.
  split; [|split].
  - destruct (in_slice j (length positions) k); lia.
  - intro Hne.
    destruct (Nat.eq_dec k j) as [-> | Hkj].
    + split; [exact Hj|].
      unfold in_slice. rewrite Nat.leb_refl.
      rewrite (proj2 (Nat.ltb_lt j (length positions))) by lia.
      simpl. lia.
    + assert (Hold : nth k ct PInf <> PInf).
      { destruct (fgt stored (Fin crash)); [|exact Hne].
        rewrite nth_upd_at in Hne.
        rewrite (proj2 (Nat.eqb_neq k j) Hkj) in Hne. exact Hne. }
      destruct (Hct Hold) as (Hk1 & Hk2).
      split; [exact Hk1|].
      destruct (in_slice j (length positions) k); lia.
  - intro Hpos.
    destruct (in_slice j (length positions) k) eqn:Es.
    + unfold in_slice in Es. apply andb_true_iff in Es.
      destruct Es as [Es1 Es2].
      apply Nat.leb_le in Es1. apply Nat.ltb_lt in Es2.
      split; [exact Es2|]. exists j. split; [exact Es1|].
      exact (crash_turn_stored ct j stored crash Hst).
    + rewrite Z.add_0_r in Hpos.
      destruct (Hdl Hpos) as (Hk1 & j0 & Hj0 & Hne).
      split; [exact Hk1|]. exists j0. split; [exact Hj0|].
      exact (crash_turn_kept ct j j0 stored crash Hst Hne).
Qed.

Lemma find_deadlocks_fold_bound :
  forall u self handle positions cum_weights packed_positions packed_weights
         others dl ct dl' ct',
    foldM (find_deadlocks_step u self handle positions cum_weights
                               packed_positions packed_weights)
          others (dl, ct) = Ret (dl', ct') ->
    forall k,
      nth k dl' 0 <= nth k dl 0 + Z.of_nat (length others)
      /\ ((length positions <= k)%nat -> nth k dl' 0 = nth k dl 0).
Proof.
  intros u self handle positions cum_weights packed_positions packed_weights
         others.
  induction others as [|agent rest IH]; intros dl ct dl' ct' H k.
  - simpl in H. inversion H. subst. simpl. split; [lia | reflexivity].
  - cbn [foldM] in H. apply bind_ret in H.
    destruct H as ([dl1 ct1] & Hstep & H).
    destruct (IH _ _ _ _ H k) as (Hb & Hz).
    change (length (agent :: rest)) with (S (length rest)).
    destruct (find_deadlocks_step_cases _ _ _ _ _ _ _ _ _ _ _ _ Hstep)
      as [(-> & _) | (j & stored & crash & _ & _ & -> & _)].
    + split; [lia | exact Hz].
    + rewrite nth_add_slice in Hb, Hz. split.
      * destruct (in_slice j (length positions) k && (k <? length dl)%nat);
          lia.
      * intro Hk. rewrite (Hz Hk), (in_slice_beyond _ _ _ Hk). simpl. lia.
Qed.

(** X13: With positive ticks per cell and a positive harmonic combination,
    every deadlock count lies between the seed and the seed plus the number
    of the other agents and keeps the seed after the path; a crash turn is
    stored only at the first node of an edge of the path where a deadlock is
    counted, and a count is above the seed only from a node with a stored
    crash turn on. *)
Theorem deadlock_counts_profile :
  forall u self handle positions cum_weights packed_positions packed_weights
         prev_deadlocks others deadlocks crash_turns,
    Forall (fun sd => 0 < times sd) (speed_data self) ->
    (forall a b, 0 < a -> 0 < b -> (0 < reciprocal_sum u a b)%Q) ->
    nth_error (other_agents self) handle = Some others ->
    find_deadlocks u self handle positions cum_weights
      packed_positions packed_weights prev_deadlocks
    = Ret (deadlocks, crash_turns) ->
    length deadlocks = max_depth self
    /\ length crash_turns = max_depth self
    /\ forall k,
         (k < max_depth self)%nat ->
         prev_deadlocks <= nth k deadlocks 0
                        <= prev_deadlocks + Z.of_nat (length others)
         /\ ((length positions <= k)%nat ->
             nth k deadlocks 0 = prev_deadlocks)
         /\ (nth k crash_turns PInf <> PInf ->
             (S k < length positions)%nat
             /\ prev_deadlocks < nth k deadlocks 0)
         /\ (prev_deadlocks < nth k deadlocks 0 ->
             exists j, (j <= k)%nat /\ nth j crash_turns PInf <> PInf).
Proof.
  intros u self handle positions cum_weights packed_positions packed_weights
         prev others deadlocks crash_turns _ _ Hothers H.
  unfold find_deadlocks in H. apply item_ret in Hothers.
  rewrite Hothers in H. cbn [bind] in H.
  assert (Hseed : forall k, (k < max_depth self)%nat ->
                            nth k (np_full (max_depth self) prev) 0 = prev).
  { intros k Hk. unfold np_full.
    exact (nth_error_nth _ _ 0 (nth_error_repeat_lt prev _ _ Hk)). }
  assert (Hinv : deadlocks_linked (max_depth self) (length positions) prev
                   (deadlocks, crash_turns)).
  { match type of H with
    | foldM ?f _ ?s0 = _ =>
        apply (foldM_invariant
                 (deadlocks_linked (max_depth self) (length positions) prev)
                 f others s0 (deadlocks, crash_turns)); [| |exact H]
    end.
    - intros st x st' _ Hst Hstep.
      exact (deadlocks_linked_step _ _ _ _ _ _ _ _ _ _ _ Hst Hstep).
    - unfold deadlocks_linked, np_full. rewrite !repeat_length.
      split; [reflexivity|]. split; [reflexivity|].
      intros k Hk. fold (np_full (max_depth self) prev). rewrite (Hseed k Hk).
      rewrite (nth_error_nth _ _ PInf (nth_error_repeat_lt PInf _ _ Hk)).
      split; [lia|]. split; [intro Hne; exfalso; apply Hne; reflexivity|].
      intro Hlt. lia. }
  destruct Hinv as (Hl1 & Hl2 & Hlink).
  split; [exact Hl1|]. split; [exact Hl2|].
  intros k Hk. destruct (Hlink k Hk) as (Hlow & Hct & Hdl).
  destruct (find_deadlocks_fold_bound _ _ _ _ _ _ _ _ _ _ _ _ H k)
    as (Hup & Hafter).
  rewrite (Hseed k Hk) in Hup, Hafter.
  split; [lia|]. split; [exact Hafter|]. split; [exact Hct|].
  intro Hpos. exact (proj2 (Hdl Hpos)).
Qed.

Lemma reciprocal_sum_model_positive : forall a b,
  0 < a -> 0 < b -> (0 < reciprocal_sum utils_model a b)%Q.
Proof.
  intros a b Ha Hb. simpl. unfold reciprocal_sum_model.
  apply Qlt_shift_div_l.
  - change 0%Q with (inject_Z 0). rewrite <- Zlt_Qlt. lia.
  - rewrite Qmult_0_l. change 0%Q with (inject_Z 0). rewrite <- Zlt_Qlt. nia.
Qed.

Lemma deadlock_counts_profile_witness :
  0 <= nth 1 (fst east_deadlocks) 0 <= 0 + Z.of_nat (length [1%nat]).
Proof.
  destruct (deadlock_counts_profile utils_model at_tick 0%nat
              (nth 0 (fst packed_at_tick) []) (nth 0 (snd packed_at_tick) [])
              (fst packed_at_tick) (snd packed_at_tick) 0 [1%nat]
              (fst east_deadlocks) (snd east_deadlocks))
    as (_ & _ & Hk).
  - vm_compute. repeat constructor.
  - exact reciprocal_sum_model_positive.
  - reflexivity.
  - vm_compute. reflexivity.
  - exact (proj1 (Hk 1%nat ltac:(vm_compute; lia))).
Defined.

(** ** When the route popularity raises *)

Lemma foldM_raises : forall {A S : Type} (f : S -> A -> res S) (l : list A) (a : A),
  In a l -> (forall s, f s a = Raise) -> forall s, foldM f l s = Raise.
Proof.
  intros A S f l a Hin Hf. induction l as [|x t IH]; intro s; [destruct Hin|].
  simpl. destruct Hin as [-> | Hin].
  - rewrite Hf. reflexivity.
  - destruct (f s x); [apply IH; exact Hin | reflexivity].
Qed.

(** X14: With a positive depth, the route popularity raises exactly when
    there is a position and the agent has no other agents stored, or one of
    them has no row of shortest positions, or there are more positions than
    [max_depth]; without positions it returns, whoever the agent is. *)
Theorem common_nodes_raise_iff :
  forall self handle positions,
    (0 < max_depth self)%nat ->
    common_nodes self handle positions = Raise
    <-> (positions <> []
         /\ (nth_error (other_agents self) handle = None
             \/ (exists others a,
                   nth_error (other_agents self) handle = Some others
                   /\ In a others
                   /\ (length (_shortest_positions self) <= a)%nat)
             \/ (max_depth self < length positions)%nat)).
Proof.
  intros self handle positions _. unfold common_nodes.
  destruct positions as [|p0 rest] eqn:Epos.
  { simpl. split; [discriminate|]. intros [Hne _]. exfalso. apply Hne.
    reflexivity. }
  rewrite <- Epos.
  assert (Hne : positions <> []) by (rewrite Epos; discriminate).
  assert (Hpos : (0 <? length positions)%nat = true)
    by (apply Nat.ltb_lt; rewrite Epos; simpl; lia).
  rewrite Hpos. clear Epos p0 rest.
  destruct (nth_error (other_agents self) handle) as [others|] eqn:Eothers.
  2:{ unfold item. rewrite Eothers. cbn [bind].
      split; [intros _; split; [exact Hne | left; reflexivity] | reflexivity]. }
  unfold item at 1. rewrite Eothers. cbn [bind].
  destruct (Forall_Exists_dec
              (fun a => (a < length (_shortest_positions self))%nat)
              (fun a => lt_dec a (length (_shortest_positions self))) others)
    as [Hall | Hex].
  - destruct (common_nodes_fold_returns self positions others
                (np_full (length positions) 0) Hall)
      as (r & Er); [apply repeat_length|].
    rewrite Er. cbn [bind].
    destruct (common_nodes_fold _ _ _ _ _ Er (repeat_length _ _)) as (Hlr & _).
    unfold fill_prefix, np_full. rewrite repeat_length, Hlr.
    destruct (length positions <=? max_depth self)%nat eqn:E.
    + apply Nat.leb_le in E. split; [discriminate|].
      intros (_ & [Hn | [(o & a & Ho & Hin & Ha) | Hlt]]);
        [discriminate | | lia].
      inversion Ho. subst o. rewrite Forall_forall in Hall.
      specialize (Hall a Hin). lia.
    + apply Nat.leb_gt in E. split; [|reflexivity].
      intros _. split; [exact Hne|]. right. right. exact E.
  - apply Exists_exists in Hex. destruct Hex as (a & Hin & Ha).
    rewrite (foldM_raises _ others a Hin).
    + cbn [bind]. split; [|reflexivity].
      intros _. split; [exact Hne|]. right. left. exists others, a.
      split; [reflexivity|]. split; [exact Hin | lia].
    + intro s. unfold item.
      rewrite (proj2 (nth_error_None _ _)) by lia. reflexivity.
Qed.

Lemma common_nodes_raise_iff_witness :
  common_nodes at_tick 0 (map node_pos (path east_shortest)) = Raise
  <-> (map node_pos (path east_shortest) <> []
       /\ (nth_error (other_agents at_tick) 0 = None
           \/ (exists others a,
                 nth_error (other_agents at_tick) 0 = Some others
                 /\ In a others
                 /\ (length (_shortest_positions at_tick) <= a)%nat)
           \/ (max_depth at_tick
               < length (map node_pos (path east_shortest)))%nat)).
Proof.
  apply (common_nodes_raise_iff at_tick 0%nat
           (map node_pos (path east_shortest))).
  vm_compute. lia.
Defined.

(** ** Layout of the feature matrix *)

Lemma nth_map_of_Z : forall (l : list Z) (k : nat),
  (k < length l)%nat -> nth k (map of_Z l) NaN = of_Z (nth k l 0).
Proof.
  intros l k Hk. rewrite (nth_indep _ NaN (of_Z 0)) by (rewrite length_map; exact Hk).
  apply map_nth.
Qed.

(** X15: The feature matrix has one row per node; with four rows of
    counters, two of distances and two of waiting times, the features of
    node [k] are, in this order, the four counters, the two distances, the
    two waiting times, the distance from the target, the common nodes, the
    deadlocks and the distance to the deadlock. *)
Theorem feature_matrix_layout :
  forall depth f m n0 n1 n2 n3 d0 d1 m0 m1,
    feature_matrix depth f = Ret m ->
    f_num_agents f = [n0; n1; n2; n3] ->
    f_agent_distances f = [d0; d1] ->
    f_malfunctions f = [m0; m1] ->
    length m = depth
    /\ forall k,
         (k < depth)%nat ->
         nth_error m k
         = Some [of_Z (nth k n0 0); of_Z (nth k n1 0); of_Z (nth k n2 0);
                 of_Z (nth k n3 0); nth k d0 NaN; nth k d1 NaN;
                 of_Z (nth k m0 0); of_Z (nth k m1 0);
                 nth k (f_target_distances f) NaN;
                 of_Z (nth k (f_c_nodes f) 0);
                 of_Z (nth k (f_deadlocks f) 0);
                 nth k (f_deadlock_distances f) NaN].
Proof.
  intros depth f m n0 n1 n2 n3 d0 d1 m0 m1 H Hn Hd Hm.
  unfold feature_matrix in H. rewrite Hn, Hd, Hm in H.
  match type of H with
  | (if forallb ?c ?rows then _ else _) = _ =>
      destruct (forallb c rows) eqn:E; [|discriminate]
  end.
  inversion H. clear H. unfold np_transpose. split.
  - rewrite length_map. apply length_seq.
  - intros k Hk. rewrite nth_error_map.
    rewrite (nth_error_nth' (seq 0 depth) 0%nat) by (rewrite length_seq; exact Hk).
    rewrite seq_nth by exact Hk. simpl.
    simpl in E. repeat (apply andb_true_iff in E; destruct E as [?E E]).
    repeat match goal with
           | H : (length _ =? depth)%nat = true |- _ => apply Nat.eqb_eq in H
           end.
    rewrite !nth_map_of_Z by (rewrite length_map in *; lia).
    reflexivity.
Qed.

Lemma feature_matrix_layout_witness :
  length (or_else [] (feature_matrix 4 east_feats)) = 4%nat
  /\ forall k,
       (k < 4)%nat ->
       nth_error (or_else [] (feature_matrix 4 east_feats)) k
       = Some [of_Z (nth k (nth 0 (f_num_agents east_feats) []) 0);
               of_Z (nth k (nth 1 (f_num_agents east_feats) []) 0);
               of_Z (nth k (nth 2 (f_num_agents east_feats) []) 0);
               of_Z (nth k (nth 3 (f_num_agents east_feats) []) 0);
               nth k (nth 0 (f_agent_distances east_feats) []) NaN;
               nth k (nth 1 (f_agent_distances east_feats) []) NaN;
               of_Z (nth k (nth 0 (f_malfunctions east_feats) []) 0);
               of_Z (nth k (nth 1 (f_malfunctions east_feats) []) 0);
               nth k (f_target_distances east_feats) NaN;
               of_Z (nth k (f_c_nodes east_feats) 0);
               of_Z (nth k (f_deadlocks east_feats) 0);
               nth k (f_deadlock_distances east_feats) NaN].
Proof.
  apply (feature_matrix_layout 4 east_feats).
  - vm_compute. reflexivity.
  - vm_compute. reflexivity.
  - vm_compute. reflexivity.
  - vm_compute. reflexivity.
Defined.

(** ** The rows of the observation *)

Lemma assign_row_inv : forall t i m t',
  assign_row t i m = Ret t' ->
  exists old,
    nth_error t i = Some old
    /\ length m = length old
    /\ Forall (fun r => length r = FEATURES) m
    /\ t' = upd_at i (fun _ => m) t.
Proof.
  intros t i m t' H. unfold assign_row in H.
  apply bind_ret in H. destruct H as (old & Eold & H).
  destruct ((length m =? length old)%nat
            && forallb (fun r => (length r =? FEATURES)%nat) m) eqn:E;
    [|discriminate].
  apply andb_true_iff in E. destruct E as [E1 E2].
  inversion H. exists old.
  split; [apply item_ret; exact Eold|].
  split; [apply Nat.eqb_eq; exact E1|].
  split; [|reflexivity].
  apply Forall_forall. intros r Hr.
  rewrite forallb_forall in E2. apply Nat.eqb_eq. exact (E2 r Hr).
Qed.

Lemma assign_row_shaped : forall depth t i m t',
  tensor_shaped depth FEATURES t ->
  assign_row t i m = Ret t' ->
  tensor_shaped depth FEATURES t'.
Proof.
  intros depth t i m t' [Hlen Hall] H.
  destruct (assign_row_inv _ _ _ _ H) as (old & Eold & Hm & Hrows & ->).
  split; [rewrite length_upd_at; exact Hlen|].
  apply Forall_upd_at; [exact Hall|]. intros _ _.
  destruct (Forall_at _ _ _ _ Hall Eold) as [Hold _].
  split; [congruence | exact Hrows].
Qed.

Section Rows.

Variables (g : CellOrientationGraph) (u : Utils) (agents : list Agent).
Variables (self : CustomObservation) (handle : nat).
Variables (packed_positions : list (list Pos)) (packed_weights : list (list Q)).
Variable shortest_feats : Features.

Local Notation "'write_deviation'" :=
  (fun observation (idp : nat * Prediction) =>
     dev_feats <-
       deviation_feats g u agents self handle packed_positions packed_weights
                       shortest_feats (fst idp) (snd idp) ;;
     m <- feature_matrix (max_depth self) dev_feats ;;
     assign_row observation (fst idp + 1) m).

Lemma deviation_rows_fold : forall (idps : list (nat * Prediction)) t t',
  NoDup (map fst idps) ->
  foldM write_deviation idps t = Ret t' ->
  length t' = length t
  /\ (tensor_shaped (max_depth self) FEATURES t ->
      tensor_shaped (max_depth self) FEATURES t')
  /\ (forall k,
        (forall d, ~ In (Nat.pred k, d) idps) \/ k = 0%nat ->
        nth_error t' k = nth_error t k)
  /\ forall i d,
       In (i, d) idps ->
       (S i < length t)%nat
       /\ exists dev_feats m,
            deviation_feats g u agents self handle packed_positions
              packed_weights shortest_feats i d = Ret dev_feats
            /\ feature_matrix (max_depth self) dev_feats = Ret m
            /\ nth_error t' (S i) = Some m.
Proof.
  induction idps as [|[i0 d0] rest IH]; intros t t' Hnd H.
  - simpl in H. inversion H. subst.
    split; [reflexivity|]. split; [auto|]. split; [reflexivity|].
    intros i d [].
  - cbn [foldM] in H. apply bind_ret in H. destruct H as (t1 & Hstep & H).
    simpl in Hnd. inversion Hnd as [|? ? Hnotin Hnd']. subst.
    destruct (IH t1 t' Hnd' H) as (Hlen & Hshape & Hframe & Hrows).
    cbn [fst snd] in Hstep.
    apply bind_ret in Hstep. destruct Hstep as (df & Edf & Hstep).
    apply bind_ret in Hstep. destruct Hstep as (m & Em & Hstep).
    destruct (assign_row_inv _ _ _ _ Hstep) as (old & Eold & _ & _ & Et1).
    assert (Hi0 : (i0 + 1 < length t)%nat)
      by (apply nth_error_Some; rewrite Eold; discriminate).
    assert (Hlen1 : length t1 = length t)
      by (rewrite Et1; apply length_upd_at).
    split; [congruence|]. split.
    { intro Hs. apply Hshape. exact (assign_row_shaped _ _ _ _ _ Hs Hstep). }
    split.
    + intros k Hk. rewrite Hframe.
      * rewrite Et1. apply nth_error_upd_at_neq.
        destruct Hk as [Hk | ->]; [|lia].
        intro Heq. apply (Hk d0). left. subst k.
        replace (Nat.pred (i0 + 1)) with i0 by lia. reflexivity.
      * destruct Hk as [Hk | Hk]; [left | right; exact Hk].
        intros d Hin. apply (Hk d). right. exact Hin.
    + intros i d [Heq | Hin].
      * inversion Heq. subst i0 d0. split; [lia|].
        exists df, m. split; [exact Edf|]. split; [exact Em|].
        rewrite Hframe.
        -- rewrite Et1, Nat.add_1_r in *.
           rewrite nth_error_upd_at_eq, Eold. reflexivity.
        -- left. intros d' Hin. apply Hnotin. simpl.
           change i with (fst (i, d')). apply in_map. exact Hin.
      * destruct (Hrows i d Hin) as (Hlt & Hex). split; [lia | exact Hex].
Qed.

End Rows.

Lemma In_enumerate : forall {A : Type} (l : list A) (i : nat) (x : A),
  In (i, x) (enumerate l) <-> nth_error l i = Some x.
Proof.
  intros A l i x. split.
  - intro Hx. destruct (In_nth_error _ _ Hx) as (k & Hk).
    rewrite nth_error_enumerate in Hk.
    destruct (nth_error l k) as [y|] eqn:Ey; [|discriminate].
    simpl in Hk. inversion Hk. subst. exact Ey.
  - intro Hx. apply (nth_error_In _ i).
    rewrite nth_error_enumerate, Hx. reflexivity.
Qed.

Lemma tensor_shaped_blank : forall depth,
  tensor_shaped depth FEATURES (np_full depth (blank_row depth)).
Proof.
  intro depth. split; [apply repeat_length|].
  apply Forall_forall. intros m Hm. apply repeat_spec in Hm. subst m.
  apply shaped_np_full.
Qed.

Lemma raw_observation_shaped :
  forall g u agents self predictions handle t,
    raw_observation g u agents self predictions handle = Ret t ->
    tensor_shaped (max_depth self) FEATURES t.
Proof.
  intros g u agents self predictions handle t H.
  unfold raw_observation in H.
  apply bind_ret in H. destruct H as (prediction & Epred & H).
  fold (blank_row (max_depth self)) in H.
  destruct prediction as [[shortest deviations]|].
  2:{ inversion H. apply tensor_shaped_blank. }
  apply bind_ret in H. destruct H as ([pp pw] & Epacked & H).
  apply bind_ret in H. destruct H as (sf & Esf & H).
  apply bind_ret in H. destruct H as (m0 & Em0 & H).
  apply bind_ret in H. destruct H as (t0 & Et0 & H).
  destruct (deviation_rows_fold g u agents self handle pp pw sf
              (enumerate deviations) t0 t)
    as (_ & Hshape & _).
  { unfold enumerate. rewrite map_fst_enumerate_from. apply seq_NoDup. }
  { exact H. }
  apply Hshape.
  exact (assign_row_shaped _ _ _ _ _
           (tensor_shaped_blank (max_depth self)) Et0).
Qed.

(** X16: [get] before the normalization: the observation has [max_depth]
    rows of [max_depth] nodes by 12 features. For an agent with a
    prediction, row 0 is the feature matrix of its shortest path, row [i +
    1] the one of its deviation path [i], there are fewer deviation paths
    than rows, and every later row keeps the filler [-inf]. *)
Theorem raw_observation_rows :
  forall g u agents self predictions handle t,
    raw_observation g u agents self predictions handle = Ret t ->
    tensor_shaped (max_depth self) FEATURES t
    /\ (nth_error predictions handle = Some None ->
        t = np_full (max_depth self) (blank_row (max_depth self)))
    /\ forall shortest deviations,
         nth_error predictions handle = Some (Some (shortest, deviations)) ->
         exists packed_positions packed_weights shortest_feats,
           _get_shortest_packed_positions self
           = Ret (packed_positions, packed_weights)
           /\ _fill_path_values g u agents self handle shortest
                packed_positions packed_weights 0%Q 0 None
              = Ret shortest_feats
           /\ (exists m,
                 feature_matrix (max_depth self) shortest_feats = Ret m
                 /\ nth_error t 0 = Some m)
           /\ (length deviations < max_depth self)%nat
           /\ (forall i d,
                 nth_error deviations i = Some d ->
                 exists dev_feats m,
                   deviation_feats g u agents self handle packed_positions
                     packed_weights shortest_feats i d = Ret dev_feats
                   /\ feature_matrix (max_depth self) dev_feats = Ret m
                   /\ nth_error t (S i) = Some m)
           /\ forall k,
                (length deviations < k < max_depth self)%nat ->
                nth_error t k = Some (blank_row (max_depth self)).
Proof.
  intros g u agents self predictions handle t H.
  unfold raw_observation in H.
  apply bind_ret in H. destruct H as (prediction & Epred & H).
  apply item_ret in Epred.
  fold (blank_row (max_depth self)) in H.
  destruct prediction as [[shortest deviations]|].
  2:{ inversion H. subst t.
      split; [apply tensor_shaped_blank|]. split; [reflexivity|].
      intros s d Hs. congruence. }
  apply bind_ret in H. destruct H as ([pp pw] & Epacked & H).
  apply bind_ret in H. destruct H as (sf & Esf & H).
  apply bind_ret in H. destruct H as (m0 & Em0 & H).
  apply bind_ret in H. destruct H as (t0 & Et0 & H).
  destruct (deviation_rows_fold g u agents self handle pp pw sf
              (enumerate deviations) t0 t)
    as (Hlen & Hshape & Hframe & Hrows).
  { unfold enumerate. rewrite map_fst_enumerate_from. apply seq_NoDup. }
  { exact H. }
  pose proof (assign_row_shaped _ _ _ _ _
                (tensor_shaped_blank (max_depth self)) Et0) as Hs0.
  destruct (assign_row_inv _ _ _ _ Et0) as (old & Eold & _ & _ & Eq0).
  assert (Hl0 : length t0 = max_depth self) by (exact (proj1 Hs0)).
  split; [exact (Hshape Hs0)|]. split; [intro Hn; congruence|].
  intros s d Hs. rewrite Epred in Hs. inversion Hs. subst s d.
  exists pp, pw, sf.
  split; [exact Epacked|]. split; [exact Esf|]. split.
  { exists m0. split; [exact Em0|].
    rewrite (Hframe 0%nat (or_intror eq_refl)), Eq0.
    rewrite nth_error_upd_at_eq, Eold. reflexivity. }
  split.
  { destruct deviations as [|d0 rest] eqn:Ed.
    - assert (Hpos : (0 < length (np_full (max_depth self)
                                    (blank_row (max_depth self))))%nat)
        by (apply nth_error_Some; rewrite Eold; discriminate).
      unfold np_full in Hpos. rewrite repeat_length in Hpos. exact Hpos.
    - rewrite <- Ed in *.
      assert (Hlast : exists d, nth_error deviations (length deviations - 1)
                                = Some d).
      { destruct (nth_error deviations (length deviations - 1)) eqn:E;
          [eauto|].
        apply nth_error_None in E. rewrite Ed in E. simpl in E. lia. }
      destruct Hlast as (d & Hd).
      destruct (Hrows _ _ (proj2 (In_enumerate _ _ _) Hd)) as (Hlt & _).
      rewrite Ed in Hlt. simpl in Hlt. rewrite Ed. simpl. lia. }
  split.
  { intros i d Hd.
    exact (proj2 (Hrows i d (proj2 (In_enumerate _ _ _) Hd))). }
  intros k [Hk1 Hk2].
  rewrite Hframe.
  - rewrite Eq0, nth_error_upd_at_neq by lia.
    unfold np_full. apply nth_error_repeat_lt. exact Hk2.
  - left. intros d Hin. apply In_enumerate in Hin.
    assert (Nat.pred k < length deviations)%nat
      by (apply nth_error_Some; rewrite Hin; discriminate).
    lia.
Qed.

Lemma raw_observation_rows_witness :
  tensor_shaped (max_depth at_tick) FEATURES east_raw.
Proof.
  apply (proj1 (raw_observation_rows track utils_model trains at_tick
                  forecasts 0%nat east_raw ltac:(vm_compute; reflexivity))).
Defined.

(** ** Shape of the normalized observation *)

Lemma zipM_map : forall {A B C D : Type} (f : A -> B -> res A) (sig : A -> D)
  (l : list A) (m : list B) (r : list A),
  (forall x y z, f x y = Ret z -> sig z = sig x) ->
  zipM f l m = Ret r -> map sig r = map sig l.
Proof.
  intros A B C D f sig l. induction l as [|x t IH]; intros [|y m'] r Hf H;
    simpl in H; try discriminate.
  - inversion H. reflexivity.
  - apply bind_ret in H. destruct H as (z & Ez & H).
    apply bind_ret in H. destruct H as (zs & Ezs & H).
    inversion H. simpl. rewrite (Hf _ _ _ Ez), (IH _ _ Hf Ezs). reflexivity.
Qed.

Lemma assign_feats_widths : forall a b t values t',
  (a <= b)%nat ->
  assign_feats a b t values = Ret t' ->
  widths t' = widths t
  /\ Forall (Forall (fun row => (b <= length row)%nat)) t.
Proof.
  intros a b t values t' Hab H. unfold assign_feats in H. split.
  - unfold widths.
    refine (zipM_map (C := unit) _ (map (@length fval)) t values t' _ H).
    intros x y z Hz.
    refine (zipM_map (C := unit) _ (@length fval) x y z _ Hz).
    intros row v row' Hrow.
    destruct ((length v =? b - a)%nat && (b <=? length row)%nat) eqn:E;
      [|discriminate].
    apply andb_true_iff in E. destruct E as [E1 E2].
    apply Nat.eqb_eq in E1. apply Nat.leb_le in E2.
    inversion Hrow. rewrite !length_app, length_firstn, length_skipn.
    rewrite Nat.min_l by lia. lia.
  - apply Forall_nth_error. intros i x Hx.
    apply Forall_nth_error. intros j row Hrow.
    destruct (zipM_ret _ _ _ _ H) as (Hlen & _ & Hall).
    destruct (nth_error values i) as [y|] eqn:Ey.
    2:{ apply nth_error_None in Ey.
        assert (i < length t)%nat
          by (apply nth_error_Some; rewrite Hx; discriminate).
        lia. }
    destruct (Hall i x y Hx Ey) as (z & Hz & _).
    destruct (zipM_ret _ _ _ _ Hz) as (Hlen2 & _ & Hall2).
    destruct (nth_error y j) as [v|] eqn:Ev.
    2:{ apply nth_error_None in Ev.
        assert (j < length x)%nat
          by (apply nth_error_Some; rewrite Hrow; discriminate).
        lia. }
    destruct (Hall2 j row v Hrow Ev) as (row' & Hrow' & _).
    destruct ((length v =? b - a)%nat && (b <=? length row)%nat) eqn:E;
      [|discriminate].
    apply andb_true_iff in E. destruct E as [_ E2].
    apply Nat.leb_le. exact E2.
Qed.

Lemma widths_map3 : forall (f : fval -> fval) (t : tensor),
  widths (map3 f t) = widths t.
Proof.
  intros f t. unfold widths, map3. rewrite map_map.
  apply map_ext. intro m. rewrite map_map.
  apply map_ext. intro row. apply length_map.
Qed.

Lemma normalize_widths :
  forall u agents max_malfunctions self observation normalized,
    normalize u agents max_malfunctions self observation = Ret normalized ->
    widths normalized = widths observation
    /\ Forall (Forall (fun row => (FEATURES <= length row)%nat)) observation.
Proof.
  intros u agents max_malfunctions self observation normalized H.
  unfold normalize in H.
  apply bind_ret in H. destruct H as (t & Ht & H).
  destruct (forall3 in_range (map3 sanity t)); [|discriminate].
  inversion H. subst normalized. clear H.
  rewrite widths_map3.
  unfold scaled in Ht.
  apply bind_ret in Ht. destruct Ht as (done & _ & Ht).
  apply bind_ret in Ht. destruct Ht as (t1 & E1 & Ht).
  apply bind_ret in Ht. destruct Ht as (t2 & E2 & Ht).
  apply bind_ret in Ht. destruct Ht as (t3 & E3 & Ht).
  apply bind_ret in Ht. destruct Ht as (t4 & E4 & Ht).
  apply bind_ret in Ht. destruct Ht as (t5 & E5 & Ht).
  apply bind_ret in Ht. destruct Ht as (t6 & E6 & E7).
  destruct (assign_feats_widths 0 4 _ _ _ ltac:(lia) E1) as (W1 & _).
  destruct (assign_feats_widths 4 6 _ _ _ ltac:(lia) E2) as (W2 & _).
  destruct (assign_feats_widths 6 8 _ _ _ ltac:(lia) E3) as (W3 & _).
  destruct (assign_feats_widths 8 9 _ _ _ ltac:(lia) E4) as (W4 & _).
  destruct (assign_feats_widths 9 10 _ _ _ ltac:(lia) E5) as (W5 & _).
  destruct (assign_feats_widths 10 11 _ _ _ ltac:(lia) E6) as (W6 & _).
  destruct (assign_feats_widths 11 12 _ _ _ ltac:(lia) E7) as (W7 & B7).
  assert (Hw : widths t6 = widths observation) by congruence.
  split; [congruence|].
  (* the bound on the last group carries over to the argument *)
  clear - Hw B7. unfold widths in Hw.
  revert observation Hw. induction B7 as [|m t6' Hm _ IH];
    intros [|m' obs] Hw; try discriminate; constructor.
  - simpl in Hw. inversion Hw as [[Hm' _]]. clear - Hm Hm'.
    revert m' Hm'. induction Hm as [|row rest Hrow _ IHm];
      intros [|row' rest'] Hm'; try discriminate; constructor.
    + simpl in Hm'. inversion Hm'. unfold FEATURES. lia.
    + apply IHm. simpl in Hm'. inversion Hm'. reflexivity.
  - apply IH. simpl in Hw. inversion Hw. reflexivity.
Qed.

(** X17: [normalize] returns a tensor of the shape of its argument, and only
    for an argument with at least 12 features at every node. *)
Theorem normalize_keeps_shape :
  forall u agents max_malfunctions self observation normalized,
    normalize u agents max_malfunctions self observation = Ret normalized ->
    widths normalized = widths observation
    /\ Forall (Forall (fun row => (FEATURES <= length row)%nat)) observation.
Proof.
  exact normalize_widths.
Qed.

Lemma normalize_keeps_shape_witness :
  widths east_normalized = widths east_raw
  /\ Forall (Forall (fun row => (FEATURES <= length row)%nat)) east_raw.
Proof.
  apply (normalize_keeps_shape utils_model trains 5 at_tick east_raw
           east_normalized).
  vm_compute. reflexivity.
Defined.

Lemma tensor_shaped_widths : forall depth cols (t t' : tensor),
  widths t' = widths t ->
  tensor_shaped depth cols t -> tensor_shaped depth cols t'.
Proof.
  intros depth cols t t' Hw [Hlen Hall]. unfold widths in Hw. split.
  - rewrite <- Hlen, <- (length_map (map (@length fval)) t'), Hw.
    apply length_map.
  - apply Forall_nth_error. intros i m' Hm'.
    assert (Hm : exists m, nth_error t i = Some m
                           /\ map (@length fval) m' = map (@length fval) m).
    { pose proof (f_equal (fun l => nth_error l i) Hw) as Hi.
      cbv beta in Hi. rewrite !nth_error_map, Hm' in Hi.
      destruct (nth_error t i) as [m|]; [|discriminate].
      exists m. split; [reflexivity|]. simpl in Hi. inversion Hi. reflexivity. }
    destruct Hm as (m & Em & Hmm).
    destruct (Forall_at _ _ _ _ Hall Em) as [Hl Hrows]. split.
    + rewrite <- Hl, <- (length_map (@length fval) m'), Hmm. apply length_map.
    + apply Forall_nth_error. intros j row' Hrow'.
      pose proof (f_equal (fun l => nth_error l j) Hmm) as Hj.
      cbv beta in Hj. rewrite !nth_error_map, Hrow' in Hj.
      destruct (nth_error m j) as [row|] eqn:Erow; [|discriminate].
      simpl in Hj. inversion Hj as [Hlen'].
      rewrite Hlen'. exact (Forall_at _ _ _ _ Hrows Erow).
Qed.

(** X18: The observation that [get] returns has [max_depth] rows of
    [max_depth] nodes by 12 features. *)
Theorem get_shape :
  forall g u agents max_malfunctions self predictions handle observation,
    get g u agents max_malfunctions self predictions handle = Ret observation ->
    tensor_shaped (max_depth self) FEATURES observation.
Proof.
  intros g u agents max_malfunctions self predictions handle observation H.
  unfold get in H. apply bind_ret in H. destruct H as (raw & Hraw & Hnorm).
  apply (tensor_shaped_widths _ _ raw).
  - exact (proj1 (normalize_widths _ _ _ _ _ _ Hnorm)).
  - exact (raw_observation_shaped _ _ _ _ _ _ _ Hraw).
Qed.

Lemma get_shape_witness :
  tensor_shaped (max_depth at_tick) FEATURES
    (or_else [] (get track utils_model trains 5 at_tick forecasts 0)).
Proof.
  apply (get_shape track utils_model trains 5 at_tick forecasts 0%nat).
  vm_compute. reflexivity.
Defined.

(** ** An agent without a path, and the first deviation path *)

Lemma for_break_none : forall {A : Type} (body : nat -> res (option A))
  (l : list nat),
  (forall i, In i l -> body i = Ret None) -> for_break body l = Ret None.
Proof.
  intros A body l. induction l as [|i t IH]; intro H; simpl.
  - reflexivity.
  - rewrite (H i (or_introl eq_refl)). cbn [bind].
    apply IH. intros j Hj. apply H. right. exact Hj.
Qed.

Lemma scan_edges_filler :
  forall positions cum_weights packed_weights agent p n,
    scan_edges positions cum_weights (p :: repeat pad_pos n) packed_weights
      agent = Ret None.
Proof.
  intros positions cum_weights packed_weights agent p n.
  unfold scan_edges. apply for_break_none. intros i Hi.
  unfold range in Hi. apply in_seq in Hi.
  simpl length in Hi. rewrite repeat_length in Hi.
  assert (Hi' : (i < n)%nat) by lia.
  destruct (item_lt (p :: repeat pad_pos n) i
              ltac:(simpl; rewrite repeat_length; lia)) as (a0 & E0).
  rewrite E0. cbn [bind].
  assert (E1 : item (p :: repeat pad_pos n) (i + 1) = Ret pad_pos).
  { apply item_ret. rewrite Nat.add_1_r. simpl.
    apply nth_error_repeat_lt. exact Hi'. }
  rewrite E1. cbn [bind].
  replace (pos_eqb pad_pos pad_pos) with true by reflexivity.
  rewrite andb_false_r. reflexivity.
Qed.

(** X19: An agent whose packed row holds the filler after its first entry,
    as the row of an agent without a prediction does, leaves the deadlock
    counts and the crash turns as they are. *)
Theorem filler_row_adds_no_deadlock :
  forall u self handle positions cum_weights packed_positions packed_weights
         st agent p n,
    nth_error packed_positions agent = Some (p :: repeat pad_pos n) ->
    find_deadlocks_step u self handle positions cum_weights
      packed_positions packed_weights st agent = Ret st.
Proof.
  intros u self handle positions cum_weights packed_positions packed_weights
         [dl ct] agent p n Hrow.
  unfold find_deadlocks_step. apply item_ret in Hrow.
  rewrite Hrow. cbn [bind]. rewrite scan_edges_filler. reflexivity.
Qed.

Lemma filler_row_adds_no_deadlock_witness :
  find_deadlocks_step utils_model at_tick 0
    (nth 0 (fst packed_at_tick) []) (nth 0 (snd packed_at_tick) [])
    [[]; [(0, 9); pad_pos; pad_pos; pad_pos]] (snd packed_at_tick)
    ([0; 0; 0; 0], [PInf; PInf; PInf; PInf]) 1
  = Ret ([0; 0; 0; 0], [PInf; PInf; PInf; PInf]).
Proof.
  apply (filler_row_adds_no_deadlock utils_model at_tick 0%nat
           (nth 0 (fst packed_at_tick) []) (nth 0 (snd packed_at_tick) [])
           [[]; [(0, 9); pad_pos; pad_pos; pad_pos]] (snd packed_at_tick)
           ([0; 0; 0; 0], [PInf; PInf; PInf; PInf]) 1%nat (0, 9) 3%nat).
  reflexivity.
Defined.

(** X20: When the first cumulative weight of the agent is 0, the features of
    its first deviation path do not depend on the edges of that path: the
    cumulative weights and the packed positions of the shortest path are
    used, as for the shortest path itself. *)
Theorem first_deviation_ignores_edges :
  forall g u agents self handle packed_positions packed_weights
         shortest_feats d d' w,
    item2 (_shortest_cum_weights self) handle 0 = Ret w ->
    Qeq_bool w 0 = true ->
    path d = path d' ->
    lenght d = lenght d' ->
    deviation_feats g u agents self handle packed_positions packed_weights
      shortest_feats 0 d
    = deviation_feats g u agents self handle packed_positions packed_weights
        shortest_feats 0 d'.
Proof.
  intros g u agents self handle pp pw sf d d' w Hw Hzero Hpath Hlen.
  unfold deviation_feats, seeds. cbn [Nat.leb bind].
  rewrite Hw. cbn [bind].
  unfold _fill_path_values. rewrite Hzero, Hpath, Hlen. reflexivity.
Qed.

Lemma first_deviation_ignores_edges_witness :
  deviation_feats track utils_model trains at_tick 0
    (fst packed_at_tick) (snd packed_at_tick) east_feats 0
    (nth 0 east_deviations east_shortest)
  = deviation_feats track utils_model trains at_tick 0
      (fst packed_at_tick) (snd packed_at_tick) east_feats 0
      {| path := [east 0; siding 3; east 6; east 9];
         edges := [];
         lenght := Cells 11 |}.
Proof.
  apply (first_deviation_ignores_edges track utils_model trains at_tick 0%nat
           (fst packed_at_tick) (snd packed_at_tick) east_feats
           (nth 0 east_deviations east_shortest)
           {| path := [east 0; siding 3; east 6; east 9];
              edges := [];
              lenght := Cells 11 |} 0%Q).
  - vm_compute. reflexivity.
  - reflexivity.
  - reflexivity.
  - reflexivity.
Defined.

(** ** Masked maximum and argmax *)

Lemma fle_refl : forall a, is_nan a = false -> fle a a = true.
Proof.
  intros [|q| |] H; try reflexivity; [|discriminate].
  simpl. apply Qle_bool_iff. apply Qle_refl.
Qed.

Lemma flt_fle : forall a b, flt a b = true -> fle a b = true.
Proof.
  intros [|x| |] [|y| |] H; try reflexivity; try discriminate.
  simpl in *. apply Qle_bool_iff. apply Qlt_le_weak. apply Qltb_lt. exact H.
Qed.

Lemma not_flt_fle : forall a b,
  is_nan a = false -> is_nan b = false -> flt a b = false -> fle b a = true.
Proof.
  intros [|x| |] [|y| |] Ha Hb H; try reflexivity; try discriminate.
  simpl in *. apply Qle_bool_iff. apply Qltb_ge. exact H.
Qed.

Lemma fle_trans : forall a b c,
  fle a b = true -> fle b c = true -> fle a c = true.
Proof.
  intros [|x| |] [|y| |] [|z| |] H1 H2; try reflexivity; try discriminate.
  simpl in *. apply Qle_bool_iff.
  apply Qle_bool_iff in H1. apply Qle_bool_iff in H2.
  exact (Qle_trans _ _ _ H1 H2).
Qed.

Lemma fle_flt_trans : forall a b c,
  fle a b = true -> flt b c = true -> flt a c = true.
Proof.
  intros [|x| |] [|y| |] [|z| |] H1 H2; try reflexivity; try discriminate.
  simpl in *. apply Qltb_lt.
  apply Qle_bool_iff in H1. apply Qltb_lt in H2.
  exact (Qle_lt_trans _ _ _ H1 H2).
Qed.

Lemma flt_trans : forall a b c,
  flt a b = true -> flt b c = true -> flt a c = true.
Proof.
  intros a b c H1 H2. exact (fle_flt_trans _ _ _ (flt_fle _ _ H1) H2).
Qed.

Lemma fle_antisym : forall a b,
  fle a b = true -> fle b a = true -> feq a b = true.
Proof.
  intros [|x| |] [|y| |] H1 H2; try reflexivity; try discriminate.
  simpl in *. apply Qeq_bool_iff.
  apply Qle_bool_iff in H1. apply Qle_bool_iff in H2.
  apply Qle_antisym; assumption.
Qed.

Lemma flt_not_nan : forall a b,
  flt a b = true -> is_nan a = false /\ is_nan b = false.
Proof.
  intros [|x| |] [|y| |] H; try discriminate; auto.
Qed.

(** The place that [argmax_from] returns: the running best, or the
    first later entry that no entry exceeds. *)
Lemma argmax_from_spec : forall row best_i best i,
  Forall (fun v => is_nan v = false) row ->
  is_nan best = false ->
  (argmax_from best_i best i row = best_i
   /\ forall k y, nth_error row k = Some y -> fle y best = true)
  \/ exists k x,
       argmax_from best_i best i row = (i + k)%nat
       /\ nth_error row k = Some x
       /\ flt best x = true
       /\ (forall k' y, nth_error row k' = Some y -> fle y x = true)
       /\ (forall k' y, (k' < k)%nat -> nth_error row k' = Some y ->
                        flt y x = true).
Proof.
  induction row as [|y t IH]; intros best_i best i Hrow Hbest.
  - left. split; [reflexivity|]. intros [|k] z H; discriminate.
  - inversion Hrow as [|? ? Hy Ht]. subst. simpl.
    destruct (flt best y) eqn:E.
    + right.
      destruct (IH i y (S i) Ht Hy)
        as [(Hr & Hall) | (k & x & Hr & Hx & Hlt & Hall & Hbefore)].
      * exists 0%nat, y. rewrite Hr, Nat.add_0_r.
        split; [reflexivity|]. split; [reflexivity|]. split; [exact E|].
        split.
        -- intros [|k'] z Hz; simpl in Hz.
           ++ inversion Hz. subst. apply fle_refl. exact Hy.
           ++ exact (Hall k' z Hz).
        -- intros k' z Hk'. lia.
      * exists (S k), x. rewrite Hr.
        split; [lia|]. split; [exact Hx|].
        split; [exact (flt_trans _ _ _ E Hlt)|]. split.
        -- intros [|k'] z Hz; simpl in Hz.
           ++ inversion Hz. subst. exact (flt_fle _ _ Hlt).
           ++ exact (Hall k' z Hz).
        -- intros [|k'] z Hk' Hz; simpl in Hz.
           ++ inversion Hz. subst. exact Hlt.
           ++ apply (Hbefore k' z); [lia | exact Hz].
    + pose proof (not_flt_fle _ _ Hbest Hy E) as Hle.
      destruct (IH best_i best (S i) Ht Hbest)
        as [(Hr & Hall) | (k & x & Hr & Hx & Hlt & Hall & Hbefore)].
      * left. split; [exact Hr|].
        intros [|k'] z Hz; simpl in Hz.
        -- inversion Hz. subst. exact Hle.
        -- exact (Hall k' z Hz).
      * right. exists (S k), x. rewrite Hr.
        split; [lia|]. split; [exact Hx|]. split; [exact Hlt|].
        split.
        -- intros [|k'] z Hz; simpl in Hz.
           ++ inversion Hz. subst.
              exact (flt_fle _ _ (fle_flt_trans _ _ _ Hle Hlt)).
           ++ exact (Hall k' z Hz).
        -- intros [|k'] z Hk' Hz; simpl in Hz.
           ++ inversion Hz. subst. exact (fle_flt_trans _ _ _ Hle Hlt).
           ++ apply (Hbefore k' z); [lia | exact Hz].
Qed.

Lemma np_argmax_spec : forall row,
  row <> [] ->
  Forall (fun v => is_nan v = false) row ->
  exists i x,
    np_argmax row = Ret i
    /\ nth_error row i = Some x
    /\ (forall j y, nth_error row j = Some y -> fle y x = true)
    /\ (forall j y, (j < i)%nat -> nth_error row j = Some y ->
                    flt y x = true).
Proof.
  intros [|x t] Hne Hrow; [exfalso; apply Hne; reflexivity|].
  inversion Hrow as [|? ? Hx Ht]. subst. simpl.
  destruct (argmax_from_spec t 0%nat x 1%nat Ht Hx)
    as [(Hr & Hall) | (k & y & Hr & Hy & Hlt & Hall & Hbefore)].
  - exists 0%nat, x. rewrite Hr.
    split; [reflexivity|]. split; [reflexivity|]. split.
    + intros [|j] z Hz; simpl in Hz.
      * inversion Hz. subst. apply fle_refl. exact Hx.
      * exact (Hall j z Hz).
    + intros j z Hj. lia.
  - exists (S k), y. rewrite Hr.
    split; [reflexivity|]. split; [exact Hy|]. split.
    + intros [|j] z Hz; simpl in Hz.
      * inversion Hz. subst. exact (flt_fle _ _ Hlt).
      * exact (Hall j z Hz).
    + intros [|j] z Hj Hz; simpl in Hz.
      * inversion Hz. subst. exact Hlt.
      * apply (Hbefore j z); [lia | exact Hz].
Qed.

Lemma fmax_nan : forall a b,
  is_nan (fmax a b) = true -> is_nan a = true /\ is_nan b = true.
Proof.
  intros a b H.
  destruct a as [|x| |], b as [|y| |]; simpl in H; try discriminate; auto.
  destruct (Qltb x y); discriminate.
Qed.

Lemma fmax_pick : forall a b, fmax a b = a \/ fmax a b = b.
Proof.
  intros a b.
  destruct a as [|x| |], b as [|y| |]; simpl; auto.
  destruct (Qltb x y); auto.
Qed.

Ltac fmax_cases :=
  simpl;
  repeat match goal with
         | |- context [Qltb ?p ?q] => destruct (Qltb p q) eqn:?
         end;
  simpl; try reflexivity; apply Qle_bool_iff;
  first [ apply Qle_refl
        | apply Qlt_le_weak; apply Qltb_lt; assumption
        | apply Qltb_ge; assumption ].

Lemma fmax_left : forall a b,
  is_nan a = false -> fle a (fmax a b) = true.
Proof.
  intros a b H.
  destruct a as [|x| |], b as [|y| |]; try discriminate; fmax_cases.
Qed.

Lemma fmax_right : forall a b,
  is_nan b = false -> fle b (fmax a b) = true.
Proof.
  intros a b H.
  destruct a as [|x| |], b as [|y| |]; try discriminate; fmax_cases.
Qed.

(** The value that [np.fmax.reduce] returns: the start, or an entry that
    no entry exceeds. *)
Lemma fold_fmax_spec : forall row start,
  (is_nan (fold_left fmax row start) = true ->
   is_nan start = true /\ Forall (fun v => is_nan v = true) row)
  /\ (is_nan (fold_left fmax row start) = false ->
      (fold_left fmax row start = start
       \/ exists k, nth_error row k = Some (fold_left fmax row start))
      /\ (is_nan start = false -> fle start (fold_left fmax row start) = true)
      /\ forall k y, nth_error row k = Some y -> is_nan y = false ->
                     fle y (fold_left fmax row start) = true).
Proof.
  induction row as [|y t IH]; intro start; simpl.
  - split; [intro H; split; [exact H | constructor]|].
    intros H. split; [left; reflexivity|].
    split; [intros _; apply fle_refl; exact H|].
    intros [|k] z Hz; discriminate.
  - destruct (IH (fmax start y)) as (IHnan & IHnum).
    split.
    + intro H. destruct (IHnan H) as (H1 & H2).
      destruct (fmax_nan _ _ H1) as (H3 & H4). split; [exact H3|].
      constructor; assumption.
    + intro H. destruct (IHnum H) as (Hsrc & Hstart & Hall).
      split; [|split].
      * destruct Hsrc as [Hsrc | (k & Hk)].
        -- rewrite Hsrc. destruct (fmax_pick start y) as [-> | ->];
             [left; reflexivity | right; exists 0%nat; reflexivity].
        -- right. exists (S k). exact Hk.
      * intro Hsn. pose proof (fmax_left start y Hsn) as Hle.
        apply (fle_trans _ _ _ Hle). apply Hstart.
        destruct (is_nan (fmax start y)) eqn:Em; [|reflexivity].
        destruct (fmax_nan _ _ Em). congruence.
      * intros [|k] z Hz Hzn; simpl in Hz.
        -- inversion Hz. subst z. pose proof (fmax_right start y Hzn) as Hle.
           apply (fle_trans _ _ _ Hle). apply Hstart.
           destruct (is_nan (fmax start y)) eqn:Em; [|reflexivity].
           destruct (fmax_nan _ _ Em). congruence.
        -- exact (Hall k z Hz Hzn).
Qed.

Lemma nth_error_mask_out : forall row mrow j x m,
  nth_error row j = Some x ->
  nth_error mrow j = Some m ->
  nth_error (mask_out row mrow) j = Some (if as_bool m then x else NaN).
Proof.
  intros row mrow j x m Hx Hm. unfold mask_out.
  rewrite nth_error_map, (nth_error_combine _ _ _ _ _ Hx Hm). reflexivity.
Qed.

Lemma nth_error_mask_out_inv : forall row mrow j y,
  nth_error (mask_out row mrow) j = Some y ->
  exists x m,
    nth_error row j = Some x /\ nth_error mrow j = Some m
    /\ y = (if as_bool m then x else NaN).
Proof.
  intros row mrow j y H. unfold mask_out in H. rewrite nth_error_map in H.
  destruct (nth_error (combine row mrow) j) as [[x m]|] eqn:E; [|discriminate].
  simpl in H. inversion H. exists x, m.
  revert mrow j E. clear. induction row as [|a t IH]; intros [|b mrow] [|j] E;
    simpl in E; try discriminate.
  - inversion E. auto.
  - destruct (IH _ _ E) as (H1 & H2 & _). auto.
Qed.

(** The numbers of the masked row are the valid numbers of the row. *)
Lemma mask_out_valid : forall row mrow j y,
  is_nan y = false ->
  (nth_error (mask_out row mrow) j = Some y <-> valid_at row mrow j y).
Proof.
  intros row mrow j y Hy. split.
  - intro H. destruct (nth_error_mask_out_inv _ _ _ _ H) as (x & m & Hx & Hm & E).
    destruct (as_bool m) eqn:Em; [|subst y; discriminate].
    subst y. split; [exact Hx|]. split; [exact Hy|]. exists m. auto.
  - intros (Hx & _ & m & Hm & Em).
    rewrite (nth_error_mask_out _ _ _ _ _ Hx Hm), Em. reflexivity.
Qed.

Lemma forallb_is_nan_false : forall row j x,
  nth_error row j = Some x -> is_nan x = false -> forallb is_nan row = false.
Proof.
  intros row j x Hx Hn.
  destruct (forallb is_nan row) eqn:E; [|reflexivity].
  rewrite forallb_forall in E.
  rewrite (E x (nth_error_In _ _ Hx)) in Hn. discriminate.
Qed.

(** [np.nanargmax] on a row that holds a number above [-inf]: the first
    place of the largest number. *)
Lemma np_nanargmax_spec : forall row j0 x0,
  nth_error row j0 = Some x0 -> is_nan x0 = false -> x0 <> NInf ->
  exists i x,
    np_nanargmax row = Ret i
    /\ nth_error row i = Some x
    /\ is_nan x = false
    /\ forall j y, nth_error row j = Some y -> is_nan y = false ->
                   fle y x = true /\ ((j < i)%nat -> flt y x = true).
Proof.
  intros row j0 x0 Hx0 Hn0 Hinf. unfold np_nanargmax.
  rewrite (forallb_is_nan_false _ _ _ Hx0 Hn0).
  set (repl := fun v => if is_nan v then NInf else v).
  destruct (np_argmax_spec (map repl row)) as (i & xr & Hr & Hxr & Hall & Hbefore).
  { destruct row; [destruct j0; discriminate | discriminate]. }
  { apply Forall_forall. intros v Hv. apply in_map_iff in Hv.
    destruct Hv as (w & <- & _). unfold repl. destruct w; reflexivity. }
  assert (Hmap : forall j y, nth_error row j = Some y -> is_nan y = false ->
                             nth_error (map repl row) j = Some y).
  { intros j y Hy Hyn. rewrite nth_error_map, Hy. simpl. unfold repl.
    rewrite Hyn. reflexivity. }
  assert (Hxr_inf : xr <> NInf).
  { intro Heq. subst xr. pose proof (Hall j0 x0 (Hmap _ _ Hx0 Hn0)) as Hle.
    destruct x0; try discriminate. apply Hinf. reflexivity. }
  rewrite nth_error_map in Hxr.
  destruct (nth_error row i) as [xi|] eqn:Exi; [|discriminate].
  simpl in Hxr. inversion Hxr as [Hrepl]. unfold repl in Hrepl.
  destruct (is_nan xi) eqn:Enan; [exfalso; apply Hxr_inf; congruence|].
  subst xr. exists i, xi.
  split; [exact Hr|]. split; [exact Exi|]. split; [exact Enan|].
  intros j y Hy Hyn. split.
  - exact (Hall j y (Hmap _ _ Hy Hyn)).
  - intro Hj. exact (Hbefore j y Hj (Hmap _ _ Hy Hyn)).
Qed.

(** [np.nanmax] on a row that holds a number: a number of the row that no
    number of the row exceeds. *)
Lemma np_nanmax_spec : forall row j0 x0,
  nth_error row j0 = Some x0 -> is_nan x0 = false ->
  exists v k,
    np_nanmax row = Ret v
    /\ nth_error row k = Some v
    /\ is_nan v = false
    /\ forall j y, nth_error row j = Some y -> is_nan y = false ->
                   fle y v = true.
Proof.
  intros [|start t] j0 x0 Hx0 Hn0; [destruct j0; discriminate|].
  simpl. destruct (fold_fmax_spec t start) as (Hnan & Hnum).
  destruct (is_nan (fold_left fmax t start)) eqn:E.
  - destruct (Hnan eq_refl) as (Hs & Ht). exfalso.
    destruct j0 as [|j0]; simpl in Hx0.
    + inversion Hx0. congruence.
    + rewrite Forall_forall in Ht.
      rewrite (Ht x0 (nth_error_In _ _ Hx0)) in Hn0. discriminate.
  - destruct (Hnum eq_refl) as (Hsrc & Hstart & Hall).
    exists (fold_left fmax t start).
    assert (Hk : exists k, nth_error (start :: t) k
                           = Some (fold_left fmax t start)).
    { destruct Hsrc as [-> | (k & Hk)];
        [exists 0%nat; reflexivity | exists (S k); exact Hk]. }
    destruct Hk as (k & Hk). exists k.
    split; [reflexivity|]. split; [exact Hk|]. split; [exact E|].
    intros [|j] y Hy Hyn; simpl in Hy.
    + inversion Hy. subst y. exact (Hstart Hyn).
    + exact (Hall j y Hy Hyn).
Qed.

Lemma same_shape_rows : forall vec mask,
  same_shape vec mask = true ->
  length vec = length mask
  /\ forall r row mrow,
       nth_error vec r = Some row -> nth_error mask r = Some mrow ->
       length row = length mrow.
Proof.
  intros vec mask H. unfold same_shape in H.
  apply andb_true_iff in H. destruct H as [H1 H2].
  apply Nat.eqb_eq in H1. split; [exact H1|].
  intros r row mrow Hrow Hmrow. rewrite forallb_forall in H2.
  pose proof (H2 (row, mrow)
                (nth_error_In _ r (nth_error_combine _ _ _ _ _ Hrow Hmrow)))
    as Hlen.
  apply Nat.eqb_eq. exact Hlen.
Qed.

Lemma nth_error_combine_inv : forall {A B : Type} (l : list A) (m : list B) k x y,
  nth_error (combine l m) k = Some (x, y) ->
  nth_error l k = Some x /\ nth_error m k = Some y.
Proof.
  intros A B l. induction l as [|a t IH]; intros [|b m] [|k] x y H;
    simpl in H; try discriminate.
  - inversion H. auto.
  - exact (IH _ _ _ _ H).
Qed.

Lemma all_any_valid : forall vec mask,
  length vec = length mask ->
  (forall r row mrow,
     nth_error vec r = Some row -> nth_error mask r = Some mrow ->
     exists j x, valid_at row mrow j x) ->
  all_any mask = true.
Proof.
  intros vec mask Hlen H. unfold all_any. apply forallb_forall.
  intros mrow Hin. destruct (In_nth_error _ _ Hin) as (r & Hr).
  destruct (nth_error vec r) as [row|] eqn:Erow.
  2:{ apply nth_error_None in Erow.
      assert (r < length mask)%nat
        by (apply nth_error_Some; rewrite Hr; discriminate).
      lia. }
  destruct (H r row mrow Erow Hr) as (j & x & _ & _ & m & Hm & Em).
  apply existsb_exists. exists m. split; [exact (nth_error_In _ _ Hm) | exact Em].
Qed.

(** X21: When there is a row and every row holds a valid number above
    [-inf], [masked_argmax] returns for each row the place of a valid number
    that no valid number of the row exceeds, and the first such place. *)
Theorem masked_argmax_picks_best :
  forall vec mask,
    vec <> [] ->
    same_shape vec mask = true ->
    (forall r row mrow,
       nth_error vec r = Some row -> nth_error mask r = Some mrow ->
       exists j x, valid_at row mrow j x /\ x <> NInf) ->
    exists idx,
      masked_argmax vec mask = Ret idx
      /\ length idx = length vec
      /\ forall r row mrow,
           nth_error vec r = Some row -> nth_error mask r = Some mrow ->
           exists i x,
             nth_error idx r = Some [i]
             /\ valid_at row mrow i x
             /\ forall j y,
                  valid_at row mrow j y ->
                  fle y x = true /\ ((j < i)%nat -> flt y x = true).
Proof.
  intros vec mask _ Hshape Hvalid.
  destruct (same_shape_rows _ _ Hshape) as (Hlen & Hrows).
  unfold masked_argmax. rewrite Hshape.
  rewrite (all_any_valid vec mask Hlen).
  2:{ intros r row mrow Hr Hm.
      destruct (Hvalid r row mrow Hr Hm) as (j & x & Hv & _). eauto. }
  cbn [andb].
  assert (Hrow : forall r row mrow,
             nth_error vec r = Some row -> nth_error mask r = Some mrow ->
             exists i x,
               np_nanargmax (mask_out row mrow) = Ret i
               /\ valid_at row mrow i x
               /\ forall j y,
                    valid_at row mrow j y ->
                    fle y x = true /\ ((j < i)%nat -> flt y x = true)).
  { intros r row mrow Hr Hm.
    destruct (Hvalid r row mrow Hr Hm) as (j0 & x0 & Hv0 & Hinf).
    pose proof (proj1 (proj2 Hv0)) as Hn0.
    destruct (np_nanargmax_spec (mask_out row mrow) j0 x0
                (proj2 (mask_out_valid _ _ _ _ Hn0) Hv0) Hn0 Hinf)
      as (i & x & Hi & Hx & Hxn & Hbest).
    exists i, x. split; [exact Hi|].
    split; [exact (proj1 (mask_out_valid _ _ _ _ Hxn) Hx)|].
    intros j y Hy. pose proof (proj1 (proj2 Hy)) as Hyn.
    exact (Hbest j y (proj2 (mask_out_valid _ _ _ _ Hyn) Hy) Hyn). }
  destruct (mapM_spec
              (fun rm => i <- np_nanargmax (mask_out (fst rm) (snd rm)) ;;
                         Ret [i])
              (combine vec mask))
    as (idx & Eidx & Lidx & Hidx).
  { intros r [row mrow] Hrm. apply nth_error_combine_inv in Hrm.
    destruct Hrm as [Hr Hm].
    destruct (Hrow r row mrow Hr Hm) as (i & x & Hi & _).
    simpl. rewrite Hi. cbn [bind]. eauto. }
  exists idx. split; [exact Eidx|]. split.
  { rewrite Lidx, length_combine, Hlen. apply Nat.min_id. }
  intros r row mrow Hr Hm.
  destruct (Hrow r row mrow Hr Hm) as (i & x & Hi & Hv & Hbest).
  destruct (Hidx r (row, mrow) (nth_error_combine _ _ _ _ _ Hr Hm))
    as (out & Hout & Hnth).
  simpl in Hout. rewrite Hi in Hout. cbn [bind] in Hout. inversion Hout.
  subst out. exists i, x. auto.
Qed.

Lemma masked_argmax_picks_best_witness :
  exists idx,
    masked_argmax q_values legal_actions = Ret idx
    /\ length idx = length q_values
    /\ forall r row mrow,
         nth_error q_values r = Some row ->
         nth_error legal_actions r = Some mrow ->
         exists i x,
           nth_error idx r = Some [i]
           /\ valid_at row mrow i x
           /\ forall j y,
                valid_at row mrow j y ->
                fle y x = true /\ ((j < i)%nat -> flt y x = true).
Proof.
  apply (masked_argmax_picks_best q_values legal_actions).
  - discriminate.
  - reflexivity.
  - intros [|[|r]] row mrow Hr Hm; simpl in Hr, Hm; try discriminate;
      inversion Hr; inversion Hm; subst.
    + exists 0%nat, (Fin 1). split; [|discriminate].
      split; [reflexivity|]. split; [reflexivity|]. exists 1. auto.
    + exists 1%nat, (Fin 2). split; [|discriminate].
      split; [reflexivity|]. split; [reflexivity|]. exists 1. auto.
    + destruct r; discriminate.
Defined.

(** X22: When there is a row and every row holds a valid number above
    [-inf], [masked_max] returns for each row the number at the place that
    [masked_argmax] returns. *)
Theorem masked_max_at_argmax :
  forall vec mask,
    vec <> [] ->
    same_shape vec mask = true ->
    (forall r row mrow,
       nth_error vec r = Some row -> nth_error mask r = Some mrow ->
       exists j x, valid_at row mrow j x /\ x <> NInf) ->
    exists idx best,
      masked_argmax vec mask = Ret idx
      /\ masked_max vec mask = Ret best
      /\ forall r row,
           nth_error vec r = Some row ->
           exists i x v,
             nth_error idx r = Some [i]
             /\ nth_error row i = Some x
             /\ nth_error best r = Some [v]
             /\ feq v x = true.
Proof.
  intros vec mask _ Hshape Hvalid.
  destruct (same_shape_rows _ _ Hshape) as (Hlen & Hrows).
  unfold masked_argmax, masked_max. rewrite Hshape.
  rewrite (all_any_valid vec mask Hlen).
  2:{ intros r row mrow Hr Hm.
      destruct (Hvalid r row mrow Hr Hm) as (j & x & Hv & _). eauto. }
  cbn [andb].
  assert (Hrow : forall r row mrow,
             nth_error vec r = Some row -> nth_error mask r = Some mrow ->
             exists i x v,
               np_nanargmax (mask_out row mrow) = Ret i
               /\ np_nanmax (mask_out row mrow) = Ret v
               /\ nth_error row i = Some x
               /\ feq v x = true).
  { intros r row mrow Hr Hm.
    destruct (Hvalid r row mrow Hr Hm) as (j0 & x0 & Hv0 & Hinf).
    pose proof (proj1 (proj2 Hv0)) as Hn0.
    pose proof (proj2 (mask_out_valid _ _ _ _ Hn0) Hv0) as Hm0.
    destruct (np_nanargmax_spec _ j0 x0 Hm0 Hn0 Hinf)
      as (i & x & Hi & Hx & Hxn & Hbest).
    destruct (np_nanmax_spec _ j0 x0 Hm0 Hn0)
      as (v & k & Hv & Hk & Hvn & Hmax).
    exists i, x, v. split; [exact Hi|]. split; [exact Hv|].
    split; [exact (proj1 (proj1 (mask_out_valid _ _ _ _ Hxn) Hx))|].
    apply fle_antisym.
    - exact (proj1 (Hbest k v Hk Hvn)).
    - exact (Hmax i x Hx Hxn). }
  destruct (mapM_spec
              (fun rm => i <- np_nanargmax (mask_out (fst rm) (snd rm)) ;;
                         Ret [i])
              (combine vec mask))
    as (idx & Eidx & Lidx & Hidx).
  { intros r [row mrow] Hrm. apply nth_error_combine_inv in Hrm.
    destruct Hrm as [Hr Hm].
    destruct (Hrow r row mrow Hr Hm) as (i & x & v & Hi & _).
    simpl. rewrite Hi. cbn [bind]. eauto. }
  destruct (mapM_spec
              (fun rm => v <- np_nanmax (mask_out (fst rm) (snd rm)) ;;
                         Ret [v])
              (combine vec mask))
    as (best & Ebest & Lbest & Hbest).
  { intros r [row mrow] Hrm. apply nth_error_combine_inv in Hrm.
    destruct Hrm as [Hr Hm].
    destruct (Hrow r row mrow Hr Hm) as (i & x & v & _ & Hv & _).
    simpl. rewrite Hv. cbn [bind]. eauto. }
  exists idx, best. split; [exact Eidx|]. split; [exact Ebest|].
  intros r row Hr.
  destruct (nth_error mask r) as [mrow|] eqn:Hm.
  2:{ apply nth_error_None in Hm.
      assert (r < length vec)%nat
        by (apply nth_error_Some; rewrite Hr; discriminate).
      lia. }
  destruct (Hrow r row mrow Hr Hm) as (i & x & v & Hi & Hv & Hx & Heq).
  destruct (Hidx r (row, mrow) (nth_error_combine _ _ _ _ _ Hr Hm))
    as (out & Hout & Hnth).
  destruct (Hbest r (row, mrow) (nth_error_combine _ _ _ _ _ Hr Hm))
    as (out' & Hout' & Hnth').
  simpl in Hout, Hout'. rewrite Hi in Hout. rewrite Hv in Hout'.
  cbn [bind] in Hout, Hout'. inversion Hout. inversion Hout'. subst out out'.
  exists i, x, v. auto.
Qed.

Lemma masked_max_at_argmax_witness :
  exists idx best,
    masked_argmax q_values legal_actions = Ret idx
    /\ masked_max q_values legal_actions = Ret best
    /\ forall r row,
         nth_error q_values r = Some row ->
         exists i x v,
           nth_error idx r = Some [i]
           /\ nth_error row i = Some x
           /\ nth_error best r = Some [v]
           /\ feq v x = true.
Proof.
  apply (masked_max_at_argmax q_values legal_actions).
  - discriminate.
  - reflexivity.
  - intros [|[|r]] row mrow Hr Hm; simpl in Hr, Hm; try discriminate;
      inversion Hr; inversion Hm; subst.
    + exists 0%nat, (Fin 1). split; [|discriminate].
      split; [reflexivity|]. split; [reflexivity|]. exists 1. auto.
    + exists 1%nat, (Fin 2). split; [|discriminate].
      split; [reflexivity|]. split; [reflexivity|]. exists 1. auto.
    + destruct r; discriminate.
Defined.

Lemma mapM_raise_iff : forall {A B : Type} (f : A -> res B) (l : list A),
  mapM f l = Raise <-> exists x, In x l /\ f x = Raise.
Proof.
  intros A B f l. induction l as [|x t IH]; simpl.
  - split; [discriminate | intros (x & [] & _)].
  - destruct (f x) as [y|] eqn:E; cbn [bind].
    + destruct (mapM f t) as [ys|] eqn:Et; cbn [bind].
      * split; [discriminate|].
        intros (z & [-> | Hin] & Hz); [congruence|].
        assert (Hr : Ret ys = Raise) by (apply IH; exists z; auto).
        discriminate.
      * split; [|reflexivity]. intros _.
        destruct (proj1 IH eq_refl) as (z & Hin & Hz). exists z. auto.
    + split; [|reflexivity]. intros _. exists x. auto.
Qed.

Lemma np_argmax_raise : forall row, np_argmax row = Raise -> row = [].
Proof. intros [|x t] H; [reflexivity | discriminate]. Qed.

(** X23: On an array with a row, [masked_argmax] raises exactly when the
    shapes differ, or a row has no valid entry, or every valid entry of a
    row is NaN. *)
Theorem masked_argmax_raise_iff :
  forall vec mask,
    vec <> [] ->
    masked_argmax vec mask = Raise
    <-> (same_shape vec mask = false
         \/ all_any mask = false
         \/ exists r row mrow,
              nth_error vec r = Some row /\ nth_error mask r = Some mrow
              /\ forall j x m,
                   nth_error row j = Some x -> nth_error mrow j = Some m ->
                   as_bool m = true -> is_nan x = true).
Proof.
  intros vec mask _. unfold masked_argmax.
  destruct (same_shape vec mask) eqn:Eshape; cbn [andb].
  2:{ split; [intros _; left; reflexivity | reflexivity]. }
  destruct (all_any mask) eqn:Eany.
  2:{ split; [intros _; right; left; reflexivity | reflexivity]. }
  rewrite mapM_raise_iff.
  assert (Hnan : forall row mrow,
             forallb is_nan (mask_out row mrow) = true
             <-> forall j x m,
                   nth_error row j = Some x -> nth_error mrow j = Some m ->
                   as_bool m = true -> is_nan x = true).
  { intros row mrow. rewrite forallb_forall. split.
    - intros H j x m Hx Hm Em.
      pose proof (nth_error_mask_out _ _ _ _ _ Hx Hm) as Hy.
      rewrite Em in Hy. exact (H x (nth_error_In _ _ Hy)).
    - intros H y Hy. destruct (In_nth_error _ _ Hy) as (j & Hj).
      destruct (nth_error_mask_out_inv _ _ _ _ Hj)
        as (x & m & Hx & Hm & ->).
      destruct (as_bool m) eqn:Em; [exact (H j x m Hx Hm Em) | reflexivity]. }
  split.
  - intros ([row mrow] & Hin & Hraise). right. right.
    destruct (In_nth_error _ _ Hin) as (r & Hr).
    apply nth_error_combine_inv in Hr. destruct Hr as [Hrow Hmrow].
    exists r, row, mrow. split; [exact Hrow|]. split; [exact Hmrow|].
    apply Hnan. simpl in Hraise. unfold np_nanargmax in Hraise.
    destruct (forallb is_nan (mask_out row mrow)) eqn:E; [reflexivity|].
    destruct (np_argmax _) eqn:Earg; [discriminate|].
    apply np_argmax_raise in Earg. apply map_eq_nil in Earg.
    rewrite Earg in E. discriminate.
  - intros [H | [H | (r & row & mrow & Hrow & Hmrow & Hall)]];
      [discriminate | discriminate |].
    exists (row, mrow).
    split; [exact (nth_error_In _ r (nth_error_combine _ _ _ _ _ Hrow Hmrow))|].
    simpl. unfold np_nanargmax.
    rewrite (proj2 (Hnan row mrow) Hall). reflexivity.
Qed.

(** X24: A row whose valid numbers are all [-inf] gets the place 0, whether
    the entry 0 is valid or not. *)
Theorem masked_argmax_all_neg_inf :
  forall vec mask idx r row mrow,
    masked_argmax vec mask = Ret idx ->
    nth_error vec r = Some row ->
    nth_error mask r = Some mrow ->
    (forall j x, valid_at row mrow j x -> x = NInf) ->
    nth_error idx r = Some [0%nat].
Proof.
  intros vec mask idx r row mrow H Hrow Hmrow Hall.
  unfold masked_argmax in H.
  destruct (same_shape vec mask && all_any mask); [|discriminate].
  destruct (mapM_ret _ _ _ H) as (_ & Hidx).
  destruct (Hidx r (row, mrow) (nth_error_combine _ _ _ _ _ Hrow Hmrow))
    as (out & Hout & Hnth).
  rewrite Hnth. f_equal.
  simpl in Hout. apply bind_ret in Hout. destruct Hout as (i & Hi & Hout).
  inversion Hout. subst out. f_equal.
  unfold np_nanargmax in Hi.
  destruct (forallb is_nan (mask_out row mrow)); [discriminate|].
  assert (Hrepl : forall v,
             In v (map (fun v => if is_nan v then NInf else v)
                       (mask_out row mrow)) -> v = NInf).
  { intros v Hv. apply in_map_iff in Hv. destruct Hv as (w & <- & Hw).
    destruct (is_nan w) eqn:Ew; [reflexivity|].
    destruct (In_nth_error _ _ Hw) as (j & Hj).
    exact (Hall j w (proj1 (mask_out_valid _ _ _ _ Ew) Hj)). }
  revert Hi Hrepl.
  generalize (map (fun v => if is_nan v then NInf else v) (mask_out row mrow)).
  intros [|x t] Hi Hrepl; [discriminate|].
  simpl in Hi. inversion Hi as [Hi']. clear Hi Hi'.
  rewrite (Hrepl x (or_introl eq_refl)).
  assert (Ht : forall v, In v t -> v = NInf)
    by (intros v Hv; apply Hrepl; right; exact Hv).
  clear Hrepl. generalize 1%nat.
  induction t as [|y t IH]; intro k; [reflexivity|].
  simpl. rewrite (Ht y (or_introl eq_refl)). simpl.
  apply IH. intros v Hv. apply Ht. right. exact Hv.
Qed.

Lemma masked_argmax_raise_iff_witness :
  masked_argmax q_values legal_actions = Raise
  <-> (same_shape q_values legal_actions = false
       \/ all_any legal_actions = false
       \/ exists r row mrow,
            nth_error q_values r = Some row
            /\ nth_error legal_actions r = Some mrow
            /\ forall j x m,
                 nth_error row j = Some x -> nth_error mrow j = Some m ->
                 as_bool m = true -> is_nan x = true).
Proof.
  apply (masked_argmax_raise_iff q_values legal_actions). discriminate.
Defined.

Lemma masked_argmax_all_neg_inf_witness :
  nth_error
    (or_else [] (masked_argmax [[Fin 5; NInf]] [[0; 1]])) 0
  = Some [0%nat].
Proof.
  apply (masked_argmax_all_neg_inf [[Fin 5; NInf]] [[0; 1]] _ 0%nat
           [Fin 5; NInf] [0; 1]).
  - reflexivity.
  - reflexivity.
  - reflexivity.
  - intros j x (Hx & Hn & m & Hm & Em).
    destruct j as [|[|j]]; simpl in Hx, Hm.
    + inversion Hm. subst m. discriminate.
    + inversion Hx. reflexivity.
    + destruct j; discriminate.
Defined.
